(** * aiblogs: retry policy, image pipeline, structured data and persistence

    A shallow embedding of the TypeScript sources
      - [src/lib/geminiService.ts]      (retryWithBackoff, generateTopics,
                                         generateFullPost, generateCoverImage,
                                         generateAndPublishAutoPost,
                                         generateTrainingModule)
      - [src/app/actions/gemini.ts]     (the server actions,
                                         generateAndStoreCoverImage)
      - [src/lib/schemaGenerator.ts]    (the JSON-LD generators, aggregateSchemas,
                                         getCombinedSchemaHtml)
      - [src/app/api/posts/route.ts]    (GET and POST of /posts)
      - [src/unnamed/part_000]          (lib/remoteStorage.ts: uploadFile,
                                         listFiles, deleteFile)
      - [src/components/PostEditor.tsx] (slugify)
      - [src/services/geminiService.ts] (generateCoverImage)
      - [src/migrate-db.js]             (migrate)
    together with the parts of the JavaScript language they rely on:
    strings as UTF-16, [encodeURIComponent], [JSON.stringify] and
    [JSON.parse], truthiness and [||].

    Conventions.
      - A JavaScript string is the list of its UTF-16 code units.
      - [async] functions are computations in a state-and-exception monad
        over an abstract outside world; a rejected promise is a thrown
        value.  What a run does to the outside is recorded in a trace.
      - The clock, the random source, the network, the model provider and
        the process environment are the fields of the class [Platform];
        module [Demo] has scripted instances for evaluation.
      - [console.log], [console.error] and [console.warn] have no effect that
        the program can observe and are left out.

    The first part holds the definitions, module by module in the order of
    the sources; the second part, from "Properties" on, the theorems. *)

From Stdlib Require Import String Ascii DecimalString.
From Stdlib Require Import List ZArith NArith QArith Qround Bool Lia.
From Stdlib Require DecimalPos DecimalFacts.
Import ListNotations.

Close Scope Q_scope.

Set Implicit Arguments.

(* ================================================================== *)
(** ** JavaScript strings *)
(* ================================================================== *)

Module JsString.

Local Open Scope N_scope.

(** A string value: its UTF-16 code units, each below [0x10000]. *)
Definition jsstring := list N.

(** The code units of an ASCII literal of the source text. *)
Definition lit (s : string) : jsstring :=
  map N_of_ascii (list_ascii_of_string s).

Definition in_range (lo hi c : N) : bool := (lo <=? c) && (c <=? hi).

Definition is_high_surrogate (c : N) : bool := in_range 0xD800 0xDBFF c.
Definition is_low_surrogate (c : N) : bool := in_range 0xDC00 0xDFFF c.

Definition is_digit (c : N) : bool := in_range 0x30 0x39 c.
Definition is_upper (c : N) : bool := in_range 0x41 0x5A c.
Definition is_lower (c : N) : bool := in_range 0x61 0x7A c.

(** [\w] of a regular expression without the [u] and [i] flags. *)
Definition is_word (c : N) : bool :=
  is_digit c || is_upper c || is_lower c || (c =? 0x5F).

(** [\s]: the WhiteSpace and LineTerminator code points of ECMA-262. *)
Definition is_space (c : N) : bool :=
  in_range 0x09 0x0D c || (c =? 0x20) || (c =? 0xA0) || (c =? 0x1680)
  || in_range 0x2000 0x200A c || (c =? 0x2028) || (c =? 0x2029)
  || (c =? 0x202F) || (c =? 0x205F) || (c =? 0x3000) || (c =? 0xFEFF).

(** Well-formed UTF-16: every surrogate is one half of a pair. *)
Fixpoint well_formed (s : jsstring) : bool :=
  match s with
  | [] => true
  | c :: t =>
      if is_high_surrogate c then
        match t with
        | d :: t' => is_low_surrogate d && well_formed t'
        | [] => false
        end
      else if is_low_surrogate c then false
      else well_formed t
  end.

Fixpoint eqb (a b : jsstring) : bool :=
  match a, b with
  | [], [] => true
  | x :: a', y :: b' => (x =? y) && eqb a' b'
  | _, _ => false
  end.

(** [s.substring(0, n)] for a literal [n]. *)
Definition substring0 (n : nat) (s : jsstring) : jsstring := firstn n s.

Fixpoint starts_with (p s : jsstring) : bool :=
  match p, s with
  | [], _ => true
  | x :: p', y :: s' => (x =? y) && starts_with p' s'
  | _ :: _, [] => false
  end.

(** [s.includes(p)]. *)
Fixpoint includes (p s : jsstring) : bool :=
  starts_with p s ||
  match s with
  | [] => false
  | _ :: s' => includes p s'
  end.

(** [s.split(sep)] for a separator of one code unit; the result is never
    empty: the empty string splits into one empty piece. *)
Fixpoint split (sep : N) (s : jsstring) : list jsstring :=
  match s with
  | [] => [[]]
  | c :: t =>
      if c =? sep then [] :: split sep t
      else match split sep t with
           | [] => [[c]]
           | w :: ws => (c :: w) :: ws
           end
  end.

(** [a.slice(0, n)] on an array. *)
Definition slice0 {A} (n : nat) (a : list A) : list A := firstn n a.

(** [a.join(sep)]. *)
Fixpoint join (sep : jsstring) (a : list jsstring) : jsstring :=
  match a with
  | [] => []
  | [w] => w
  | w :: ws => w ++ sep ++ join sep ws
  end.

(** The decimal text of an integer, as in a template literal. *)
Definition of_Z (z : Z) : jsstring :=
  lit (NilZero.string_of_int (Z.to_int z)).

(** [s.replace(/[set]+/g, r)]: every maximal run of code units of [set]
    becomes one copy of [r]. *)
Fixpoint replace_runs (set : N -> bool) (r : jsstring) (in_run : bool)
    (s : jsstring) : jsstring :=
  match s with
  | [] => []
  | c :: t =>
      if set c then
        (if in_run then [] else r) ++ replace_runs set r true t
      else c :: replace_runs set r false t
  end.

(** [s.replace(/[set]/g, '')]. *)
Definition remove_all (set : N -> bool) (s : jsstring) : jsstring :=
  filter (fun c => negb (set c)) s.

Fixpoint drop_while (set : N -> bool) (s : jsstring) : jsstring :=
  match s with
  | [] => []
  | c :: t => if set c then drop_while set t else s
  end.

Definition drop_while_end (set : N -> bool) (s : jsstring) : jsstring :=
  rev (drop_while set (rev s)).

Definition is_dash (c : N) : bool := c =? 0x2D.

(** [s.replace(/^-+|-+$/g, '')]. *)
Definition trim_dashes (s : jsstring) : jsstring :=
  drop_while_end is_dash (drop_while is_dash s).

(** [s.replace(/(^-|-$)/g, '')]: at most one dash goes at either end; on the
    one-character string ["-"] the first alternative consumes it. *)
Definition trim_one_dash (s : jsstring) : jsstring :=
  let s1 := match s with
            | c :: t => if is_dash c then t else s
            | [] => []
            end in
  match rev s1 with
  | c :: t => if is_dash c then rev t else s1
  | [] => []
  end.

(** *** encodeURIComponent *)

Definition hex_digit_upper (d : N) : N :=
  if d <? 10 then 0x30 + d else 0x41 + (d - 10).

(** [%XX] for one octet. *)
Definition percent (b : N) : jsstring :=
  [0x25; hex_digit_upper (b / 16); hex_digit_upper (b mod 16)].

(** The UTF-8 octets of a code point. *)
Definition utf8 (cp : N) : list N :=
  if cp <? 0x80 then [cp]
  else if cp <? 0x800 then
    [0xC0 + cp / 64; 0x80 + cp mod 64]
  else if cp <? 0x10000 then
    [0xE0 + cp / 4096; 0x80 + (cp / 64) mod 64; 0x80 + cp mod 64]
  else
    [0xF0 + cp / 262144; 0x80 + (cp / 4096) mod 64;
     0x80 + (cp / 64) mod 64; 0x80 + cp mod 64].

(** The characters [encodeURIComponent] leaves alone: letters, digits and
    [- _ . ! ~ * ' ( )]. *)
Definition uri_unreserved (c : N) : bool :=
  is_digit c || is_upper c || is_lower c ||
  existsb (N.eqb c) [0x2D; 0x5F; 0x2E; 0x21; 0x7E; 0x2A; 0x27; 0x28; 0x29].

Definition code_point (hi lo : N) : N :=
  (hi - 0xD800) * 0x400 + (lo - 0xDC00) + 0x10000.

(** [encodeURIComponent(s)], the Encode operation of ECMA-262: [None] is the
    [URIError] raised at a surrogate that has no partner. *)
Fixpoint encodeURIComponent (s : jsstring) : option jsstring :=
  match s with
  | [] => Some []
  | c :: t =>
      if uri_unreserved c then option_map (cons c) (encodeURIComponent t)
      else if is_low_surrogate c then None
      else if is_high_surrogate c then
        match t with
        | d :: t' =>
            if is_low_surrogate d then
              option_map (app (flat_map percent (utf8 (code_point c d))))
                         (encodeURIComponent t')
            else None
        | [] => None
        end
      else option_map (app (flat_map percent (utf8 c))) (encodeURIComponent t)
  end.

End JsString.

Import JsString.


(* ================================================================== *)
(** ** JavaScript values, thrown values and the outside world *)
(* ================================================================== *)

Module Js.

Set Warnings "-register-all".

(** The values of type [any] that the sources look into.  Numbers on these
    paths (HTTP statuses, list positions, scores, seeds) are integers. *)
Inductive JsVal : Type :=
| JUndefined
| JNull
| JBool (b : bool)
| JNum (n : Z)
| JStr (s : jsstring)
| JArr (items : list JsVal)
| JObj (fields : list (jsstring * JsVal)).

(** ToBoolean. *)
Definition truthy (v : JsVal) : bool :=
  match v with
  | JUndefined | JNull => false
  | JBool b => b
  | JNum n => negb (n =? 0)%Z
  | JStr s => match s with [] => false | _ => true end
  | JArr _ | JObj _ => true
  end.

(** [a || b]. *)
Definition js_or (a b : JsVal) : JsVal := if truthy a then a else b.

(** [v === n] for a number literal [n]. *)
Definition strict_eq_num (v : JsVal) (n : Z) : bool :=
  match v with
  | JNum m => (m =? n)%Z
  | _ => false
  end.

(** [s || d] on an optional string: the default also replaces the empty
    string. *)
Definition str_or (s : option jsstring) (d : jsstring) : jsstring :=
  match s with
  | Some (c :: t) => c :: t
  | _ => d
  end.

(** A thrown value, by the properties the sources read from it:
    [error.status], [error.response?.status], [error.code] and
    [error.message].  Everything thrown on the modelled paths is an
    [Error] object or one of the provider's error objects, whose message
    is a string when it is there. *)
Record JsError : Type := mkError {
  err_name : jsstring;
  err_message : option jsstring;
  err_status : JsVal;
  err_response_status : JsVal;
  err_code : JsVal
}.

(** [new Error(msg)]. *)
Definition new_Error (msg : jsstring) : JsError :=
  mkError (lit "Error") (Some msg) JUndefined JUndefined JUndefined.

(** The [URIError] of [encodeURIComponent]. *)
Definition URIError_malformed : JsError :=
  mkError (lit "URIError") (Some (lit "URI malformed"))
          JUndefined JUndefined JUndefined.

(** [error.message] inside a template literal or assigned to a string. *)
Definition message_text (e : JsError) : jsstring :=
  match err_message e with
  | Some m => m
  | None => lit "undefined"
  end.

(** *** HTTP *)

(** The file part of a multipart form: [formData.append('file', blob, name)]. *)
Record FormFile : Type := mkFormFile {
  file_name : jsstring;
  file_type : jsstring;
  file_bytes : list N
}.

Record Request : Type := mkRequest {
  req_url : jsstring;
  req_method : jsstring;
  req_headers : list (jsstring * jsstring);
  req_body : option FormFile
}.

(** The reply of the storage service, [{success, url?, error?}], as
    [uploadResponse.json()] hands it over. *)
Record UploadReply : Type := mkUploadReply {
  up_success : bool;
  up_url : option jsstring;
  up_error : option jsstring
}.

(** A [Response]: the two fields read directly and the three body readers,
    each of which may reject. *)
Record Response : Type := mkResponse {
  resp_ok : bool;
  resp_status : Z;
  resp_arrayBuffer : JsError + list N;
  resp_text : JsError + jsstring;
  resp_json : JsError + UploadReply
}.

(** *** The generative model *)

Record QA : Type := mkQA { question : jsstring; answer : jsstring }.

(** Modelled from the spec: the [GeneratedTopic] interface of [types.ts],
    which is not under [src/].  Its fields are those of the data model,
    which are also the properties the schema of [generateTopics] requires. *)
Record GeneratedTopic : Type := mkTopic {
  topic : jsstring;
  relevance : jsstring;
  t_content : jsstring;
  t_excerpt : jsstring;
  t_keywords : list jsstring;
  t_category : jsstring;
  t_readTime : jsstring;
  t_geoTargeting : jsstring;
  t_aeoQuestions : list QA;
  t_seoScore : Z;
  t_coverImage : jsstring
}.

(** [Partial<BlogPost>], by the properties the schema of [generateFullPost]
    lists: any of them can be missing from the parsed answer. *)
Record PartialPost : Type := mkPartial {
  pp_title : option jsstring;
  pp_content : option jsstring;
  pp_excerpt : option jsstring;
  pp_keywords : option (list jsstring);
  pp_category : option jsstring;
  pp_readTime : option jsstring;
  pp_geoTargeting : option jsstring;
  pp_aeoQuestions : option (list QA);
  pp_seoScore : option Z;
  pp_commercialIntent : option bool;
  pp_isHowTo : option bool;
  pp_steps : option (list jsstring)
}.

(** The three requests sent to [ai.models.generateContent]; the prompt text,
    the response schema and the temperature are functions of these. *)
Inductive GenRequest : Type :=
| TopicsRequest (niche : jsstring) (trainingContext : option jsstring) (count : Z)
| FullPostRequest (topic tone : jsstring) (trainingContext : option jsstring)
| TrainingRequest (topic : jsstring).

(** [GenerateContentResponse]: only [response.text] is read. *)
Record GenResponse : Type := mkGenResponse { text : option jsstring }.

(** *** The platform *)

(** [String.prototype.toLowerCase], whose Unicode case tables are the
    runtime's. *)
Class CaseTables : Type := {
  toLowerCase : jsstring -> jsstring
}.

(** What the program calls and does not define: the runtime's clock and
    random source, the network, the model provider, the process environment
    and the library functions whose tables are not part of the repository.
    [W] is the state of everything outside the program. *)
Class Platform (W : Type) : Type := {
  (** [Math.random()], a rational in [0, 1). *)
  Math_random : W -> Q * W;
  Math_random_range :
    forall w, (0 <= fst (Math_random w))%Q /\ (fst (Math_random w) < 1)%Q;
  (** [Date.now()], in milliseconds. *)
  Date_now : W -> Z * W;
  (** [new Date().toISOString()] and [new Date().toLocaleString()]. *)
  Date_toISOString : W -> jsstring * W;
  Date_toLocaleString : W -> jsstring * W;
  (** [fetch(url, init)]. *)
  fetch : Request -> W -> (JsError + Response) * W;
  (** [ai.models.generateContent(request)]. *)
  generateContent : GenRequest -> W -> (JsError + GenResponse) * W;
  (** [new URL(u)], [searchParams.append] for each pair, [toString()]. *)
  URL_with_params : jsstring -> list (jsstring * jsstring) -> JsError + jsstring;
  (** [JSON.parse(text) as GeneratedTopic[]] and
      [JSON.parse(text)] as [Partial<BlogPost>]; [inl] is the [SyntaxError]. *)
  JSON_parse_topics : jsstring -> JsError + list GeneratedTopic;
  JSON_parse_post : jsstring -> JsError + PartialPost;
  (** [process.env.NEXT_PUBLIC_REMOTE_STORAGE_API_KEY] and [..._API_URL]. *)
  env_REMOTE_STORAGE_API_KEY : option jsstring;
  env_REMOTE_STORAGE_API_URL : option jsstring
}.

(** [Math.floor(Math.random() * k)] from one draw [r]. *)
Definition floor_scaled (r : Q) (k : Z) : Z := Qfloor (r * inject_Z k).

End Js.

Import Js.

(* ================================================================== *)
(** ** Asynchronous computations *)
(* ================================================================== *)

Module Async.

(** What a run does to the outside, in order. *)
Inductive Event : Type :=
| EvInvoke                 (** the wrapped operation [fn()] was called *)
| EvSleep (ms : Z)         (** [await new Promise(r => setTimeout(r, ms))] *)
| EvRandom                 (** [Math.random()] *)
| EvFetch (req : Request)  (** [fetch(url, init)] *)
.

Record State (W : Type) : Type := mkState {
  world : W;
  trace : list Event
}.

(** An [async] function body: it ends by returning ([inr]) or by throwing
    ([inl]), and leaves a new state behind. *)
Definition M (W A : Type) : Type := State W -> (JsError + A) * State W.

Section Monad.
Context {W : Type}.

Definition ret {A} (a : A) : M W A := fun s => (inr a, s).

Definition throw {A} (e : JsError) : M W A := fun s => (inl e, s).

Definition bind {A B} (m : M W A) (k : A -> M W B) : M W B :=
  fun s =>
    match m s with
    | (inr a, s') => k a s'
    | (inl e, s') => (inl e, s')
    end.

(** [try { m } catch (error) { handler(error) }]. *)
Definition try_catch {A} (m : M W A) (handler : JsError -> M W A) : M W A :=
  fun s =>
    match m s with
    | (inr a, s') => (inr a, s')
    | (inl e, s') => handler e s'
    end.

(** A synchronous step that may throw. *)
Definition of_sum {A} (r : JsError + A) : M W A := fun s => (r, s).

Definition emit (ev : Event) : M W unit :=
  fun s => (inr tt, mkState (world s) (trace s ++ [ev])).

(** An operation of the outside world, with the event that records it. *)
Definition external {A} (ev : Event) (op : W -> (JsError + A) * W) : M W A :=
  fun s =>
    let '(r, w') := op (world s) in
    (r, mkState w' (trace s ++ [ev])).

(** An operation of the outside world that leaves no event. *)
Definition silent {A} (op : W -> A * W) : M W A :=
  fun s =>
    let '(a, w') := op (world s) in
    (inr a, mkState w' (trace s)).

(** [await new Promise(resolve => setTimeout(resolve, ms))]. *)
Definition sleep (ms : Z) : M W unit := emit (EvSleep ms).

End Monad.

Declare Scope async_scope.
Delimit Scope async_scope with async.
Notation "x <- m ;; k" := (bind m (fun x => k))
  (at level 61, m at next level, right associativity) : async_scope.
Notation "m ;;; k" := (bind m (fun _ => k))
  (at level 61, right associativity) : async_scope.

End Async.

Import Async.
Local Open Scope async_scope.

(* ================================================================== *)
(** ** The Retry Policy ([src/lib/geminiService.ts], lines 13-29) *)
(* ================================================================== *)

Module Retry.

Section RetryWithBackoff.
Context {W T : Type}.

(** [error?.status || error?.response?.status || error?.code]. *)
Definition error_status (error : JsError) : JsVal :=
  js_or (js_or (err_status error) (err_response_status error)) (err_code error).

(** [status === 503 || status === 429 || error?.message?.includes('overloaded')],
    read as a condition. *)
Definition isTransient (error : JsError) : bool :=
  let status := error_status error in
  strict_eq_num status 503 || strict_eq_num status 429 ||
  match err_message error with
  | Some m => includes (lit "overloaded") m
  | None => false
  end.

(** [retryWithBackoff(fn, retries, delay)].  The function is private to its
    module and its three callers leave [retries] at its default, so the
    counter runs over the natural numbers; [retries === 0] is the [O] case. *)
Fixpoint retryWithBackoff (fn : W -> (JsError + T) * W)
    (retries : nat) (delay : Z) : M W T :=
  try_catch (external EvInvoke fn)
    (fun error =>
       match retries with
       | O => throw error
       | S retries' =>
           if negb (isTransient error) then throw error
           else
             sleep delay ;;;
             retryWithBackoff fn retries' (delay * 2)
       end).

(** The default arguments, [retries = 3] and [delay = 2000]. *)
Definition default_retries : nat := 3.
Definition default_delay : Z := 2000.

End RetryWithBackoff.

End Retry.

Import Retry.

(* ================================================================== *)
(** ** JSON: [JSON.stringify] and [JSON.parse] *)
(* ================================================================== *)

Module Json.

Local Open Scope N_scope.

(** *** Objects as ordered property lists *)

(** [o[k] = v]: an existing property keeps its place, a new one goes last. *)
Fixpoint obj_set (k : jsstring) (v : JsVal) (fields : list (jsstring * JsVal))
  : list (jsstring * JsVal) :=
  match fields with
  | [] => [(k, v)]
  | (k', v') :: rest =>
      if JsString.eqb k k' then (k', v) :: rest
      else (k', v') :: obj_set k v rest
  end.

Fixpoint obj_get (k : jsstring) (fields : list (jsstring * JsVal)) : JsVal :=
  match fields with
  | [] => JUndefined
  | (k', v') :: rest =>
      if JsString.eqb k k' then v' else obj_get k rest
  end.

(** [{ ...base, ...o }] where [base] is what the literal has built so far;
    spreading [null] or [undefined] adds nothing. *)
Definition spread (base : list (jsstring * JsVal)) (o : JsVal)
  : list (jsstring * JsVal) :=
  match o with
  | JObj fields => fold_left (fun acc kv => obj_set (fst kv) (snd kv) acc) fields base
  | _ => base
  end.

(** *** JSON.stringify *)

Definition hex_digit_lower (d : N) : N :=
  if d <? 10 then 0x30 + d else 0x61 + (d - 10).

(** [\uXXXX], in lower-case hexadecimal. *)
Definition unicode_escape (c : N) : jsstring :=
  [0x5C; 0x75; hex_digit_lower (c / 4096); hex_digit_lower ((c / 256) mod 16);
   hex_digit_lower ((c / 16) mod 16); hex_digit_lower (c mod 16)].

(** One code unit that is not a surrogate, inside a JSON string. *)
Definition quote_unit (c : N) : jsstring :=
  if c =? 0x08 then [0x5C; 0x62]
  else if c =? 0x09 then [0x5C; 0x74]
  else if c =? 0x0A then [0x5C; 0x6E]
  else if c =? 0x0C then [0x5C; 0x66]
  else if c =? 0x0D then [0x5C; 0x72]
  else if c =? 0x22 then [0x5C; 0x22]
  else if c =? 0x5C then [0x5C; 0x5C]
  else if c <? 0x20 then unicode_escape c
  else [c].

(** The body of QuoteJSONString: a surrogate pair goes out as it is, a
    surrogate without partner as an escape. *)
Fixpoint quote_units (s : jsstring) : jsstring :=
  match s with
  | [] => []
  | c :: t =>
      if is_high_surrogate c then
        match t with
        | d :: t' =>
            if is_low_surrogate d then c :: d :: quote_units t'
            else unicode_escape c ++ quote_units t
        | [] => unicode_escape c
        end
      else if is_low_surrogate c then unicode_escape c ++ quote_units t
      else quote_unit c ++ quote_units t
  end.

Definition quote (s : jsstring) : jsstring := 0x22 :: quote_units s ++ [0x22].

(** [open + items.join(sep) + close], on several lines when [gap] is not
    empty. *)
Definition bracket (gap indent : jsstring) (open close : N)
    (items : list jsstring) : jsstring :=
  match items, gap with
  | [], _ => [open; close]
  | _, [] => open :: join [0x2C] items ++ [close]
  | _, _ =>
      let inner := indent ++ gap in
      open :: 0x0A :: inner ++ join (0x2C :: 0x0A :: inner) items
        ++ 0x0A :: indent ++ [close]
  end.

(** SerializeJSONProperty: [None] is [undefined]. *)
Fixpoint serialize (gap indent : jsstring) (v : JsVal) : option jsstring :=
  match v with
  | JUndefined => None
  | JNull => Some (lit "null")
  | JBool true => Some (lit "true")
  | JBool false => Some (lit "false")
  | JNum n => Some (of_Z n)
  | JStr s => Some (quote s)
  | JArr items =>
      let inner := indent ++ gap in
      Some (bracket gap indent 0x5B 0x5D
              ((fix elements (l : list JsVal) : list jsstring :=
                  match l with
                  | [] => []
                  | x :: l' =>
                      match serialize gap inner x with
                      | Some t => t
                      | None => lit "null"
                      end :: elements l'
                  end) items))
  | JObj fields =>
      let inner := indent ++ gap in
      let colon := match gap with [] => [0x3A] | _ => [0x3A; 0x20] end in
      Some (bracket gap indent 0x7B 0x7D
              ((fix members (l : list (jsstring * JsVal)) : list jsstring :=
                  match l with
                  | [] => []
                  | (k, x) :: l' =>
                      match serialize gap inner x with
                      | Some t => (quote k ++ colon ++ t) :: members l'
                      | None => members l'
                      end
                  end) fields))
  end.

(** [JSON.stringify(v)]. *)
Definition JSON_stringify (v : JsVal) : option jsstring := serialize [] [] v.

(** [JSON.stringify(v, null, 2)]. *)
Definition JSON_stringify_2 (v : JsVal) : option jsstring :=
  serialize [0x20; 0x20] [] v.

(** *** JSON.parse *)

(** The parser below reads the JSON texts whose numbers are integers,
    written without a fraction and without an exponent, and gives an
    object its properties in the order of the text.  The engine reads the
    other numbers too, and lists the properties whose names are array
    indices first.  So a value this parser reads from a text without such
    names is the value the engine reads; that this parser refuses a text
    says the same of the engine only for a text without a fraction or an
    exponent. *)

Definition is_json_space (c : N) : bool :=
  (c =? 0x20) || (c =? 0x09) || (c =? 0x0A) || (c =? 0x0D).

Fixpoint skip_ws (s : jsstring) : jsstring :=
  match s with
  | c :: t => if is_json_space c then skip_ws t else s
  | [] => []
  end.

Definition hex_value (c : N) : option N :=
  if is_digit c then Some (c - 0x30)
  else if in_range 0x61 0x66 c then Some (c - 0x61 + 10)
  else if in_range 0x41 0x46 c then Some (c - 0x41 + 10)
  else None.

Definition hex4 (a b c d : N) : option N :=
  match hex_value a, hex_value b, hex_value c, hex_value d with
  | Some x, Some y, Some z, Some w => Some (x * 4096 + y * 256 + z * 16 + w)
  | _, _, _, _ => None
  end.

(** The characters of a string after its opening quote, up to and past the
    closing one. *)
Fixpoint parse_string (s : jsstring) : option (jsstring * jsstring) :=
  match s with
  | [] => None
  | c :: t =>
      if c =? 0x22 then Some ([], t)
      else if c =? 0x5C then
        match t with
        | [] => None
        | e :: t1 =>
            let simple (u : N) :=
              match parse_string t1 with
              | Some (str, r) => Some (u :: str, r)
              | None => None
              end in
            if e =? 0x22 then simple 0x22
            else if e =? 0x5C then simple 0x5C
            else if e =? 0x2F then simple 0x2F
            else if e =? 0x62 then simple 0x08
            else if e =? 0x66 then simple 0x0C
            else if e =? 0x6E then simple 0x0A
            else if e =? 0x72 then simple 0x0D
            else if e =? 0x74 then simple 0x09
            else if e =? 0x75 then
              match t1 with
              | h1 :: h2 :: h3 :: h4 :: t2 =>
                  match hex4 h1 h2 h3 h4, parse_string t2 with
                  | Some u, Some (str, r) => Some (u :: str, r)
                  | _, _ => None
                  end
              | _ => None
              end
            else None
        end
      else if c <? 0x20 then None
      else
        match parse_string t with
        | Some (str, r) => Some (c :: str, r)
        | None => None
        end
  end.

Fixpoint parse_digits (acc : Z) (s : jsstring) : Z * jsstring :=
  match s with
  | c :: t =>
      if is_digit c then parse_digits (acc * 10 + Z.of_N (c - 0x30)) t
      else (acc, s)
  | [] => (acc, [])
  end.

(** An integer: [0] or a digit from 1 to 9 and more digits.  A fraction or
    an exponent after it has no value among the numbers of [JsVal] and is
    refused. *)
Definition parse_int (s : jsstring) : option (Z * jsstring) :=
  match s with
  | c :: t =>
      if is_digit c then
        let '(n, r) := if c =? 0x30 then (0%Z, t)
                       else parse_digits (Z.of_N (c - 0x30)) t in
        match r with
        | d :: _ =>
            if is_digit d || (d =? 0x2E) || (d =? 0x65) || (d =? 0x45)
            then None else Some (n, r)
        | [] => Some (n, r)
        end
      else None
  | [] => None
  end.

Definition expect (word : jsstring) (v : JsVal) (s : jsstring)
  : option (JsVal * jsstring) :=
  if starts_with word s then Some (v, skipn (List.length word) s) else None.

(** A value, the rest of an array after an element, and the rest of an
    object after a member.  [fuel] bounds the nesting of calls; every call
    consumes input before it calls again, so the length of the text is
    enough. *)
Fixpoint parse_value (fuel : nat) (s : jsstring) : option (JsVal * jsstring) :=
  match fuel with
  | O => None
  | S fuel' =>
      match skip_ws s with
      | [] => None
      | c :: t =>
          if c =? 0x22 then
            match parse_string t with
            | Some (str, r) => Some (JStr str, r)
            | None => None
            end
          else if c =? 0x5B then
            match skip_ws t with
            | d :: t' =>
                if d =? 0x5D then Some (JArr [], t')
                else
                  match parse_value fuel' t with
                  | Some (v, r) => parse_elements fuel' [v] r
                  | None => None
                  end
            | [] => None
            end
          else if c =? 0x7B then
            match skip_ws t with
            | d :: t' =>
                if d =? 0x7D then Some (JObj [], t')
                else parse_member fuel' [] t
            | [] => None
            end
          else if c =? 0x74 then expect (lit "true") (JBool true) (c :: t)
          else if c =? 0x66 then expect (lit "false") (JBool false) (c :: t)
          else if c =? 0x6E then expect (lit "null") JNull (c :: t)
          else if c =? 0x2D then
            match parse_int t with
            | Some (n, r) => Some (JNum (- n), r)
            | None => None
            end
          else
            match parse_int (c :: t) with
            | Some (n, r) => Some (JNum n, r)
            | None => None
            end
      end
  end

with parse_elements (fuel : nat) (acc : list JsVal) (s : jsstring)
  : option (JsVal * jsstring) :=
  match fuel with
  | O => None
  | S fuel' =>
      match skip_ws s with
      | c :: t =>
          if c =? 0x5D then Some (JArr (rev acc), t)
          else if c =? 0x2C then
            match parse_value fuel' t with
            | Some (v, r) => parse_elements fuel' (v :: acc) r
            | None => None
            end
          else None
      | [] => None
      end
  end

with parse_member (fuel : nat) (acc : list (jsstring * JsVal)) (s : jsstring)
  : option (JsVal * jsstring) :=
  match fuel with
  | O => None
  | S fuel' =>
      match skip_ws s with
      | q :: t =>
          if q =? 0x22 then
            match parse_string t with
            | Some (k, r) =>
                match skip_ws r with
                | c :: r1 =>
                    if c =? 0x3A then
                      match parse_value fuel' r1 with
                      | Some (v, r2) =>
                          let acc' := obj_set k v acc in
                          match skip_ws r2 with
                          | d :: r3 =>
                              if d =? 0x7D then Some (JObj acc', r3)
                              else if d =? 0x2C then parse_member fuel' acc' r3
                              else None
                          | [] => None
                          end
                      | None => None
                      end
                    else None
                | [] => None
                end
            | None => None
            end
          else None
      | [] => None
      end
  end.

Definition SyntaxError : JsError :=
  mkError (lit "SyntaxError") (Some (lit "Unexpected token in JSON"))
          JUndefined JUndefined JUndefined.

(** [JSON.parse(text)]. *)
Definition JSON_parse (text : jsstring) : JsError + JsVal :=
  match parse_value (S (List.length text)) text with
  | Some (v, r) =>
      match skip_ws r with
      | [] => inr v
      | _ => inl SyntaxError
      end
  | None => inl SyntaxError
  end.

End Json.

Import Json.

(* ================================================================== *)
(** ** The Structured-Data Aggregator ([src/lib/schemaGenerator.ts]) *)
(* ================================================================== *)

Module Schema.

Inductive Status : Type := draft | published | scheduled.

(** Modelled from the spec: the [BlogPost] interface of [types.ts], which is
    not under [src/].  The fields are those of the Post of the data model;
    the ones the sources test for absence or fill from a
    [Partial<BlogPost>] ([coverImage], [geoTargeting], [aeoQuestions],
    [commercialIntent], [isHowTo], [steps], [scheduledDate]) are optional. *)
Record BlogPost : Type := mkPost {
  id : jsstring;
  slug : jsstring;
  title : jsstring;
  excerpt : jsstring;
  content : jsstring;
  keywords : list jsstring;
  category : jsstring;
  dateCreated : jsstring;
  status : Status;
  readTime : jsstring;
  coverImage : option jsstring;
  geoTargeting : option jsstring;
  seoScore : Z;
  aeoQuestions : option (list QA);
  commercialIntent : option bool;
  isHowTo : option bool;
  steps : option (list jsstring);
  scheduledDate : option jsstring
}.

Definition str (s : string) : JsVal := JStr (lit s).

Definition opt_str (o : option jsstring) : JsVal :=
  match o with
  | Some s => JStr s
  | None => JUndefined
  end.

Definition site : jsstring := lit "https://smmsurge.com".

(** [generateBlogPostingSchema(post)]; [now] is the value of
    [new Date().toISOString()] at the call. *)
Definition generateBlogPostingSchema (now : jsstring) (post : BlogPost) : JsVal :=
  JObj [
    (lit "@type", str "BlogPosting");
    (lit "headline", JStr (title post));
    (lit "description", JStr (excerpt post));
    (lit "image", opt_str (coverImage post));
    (lit "author", JObj [
       (lit "@type", str "Person");
       (lit "name", str "AutoBlog AI");
       (lit "jobTitle", str "AI Content Creator");
       (lit "worksFor", JObj [
          (lit "@type", str "Organization");
          (lit "name", str "AutoBlog")])]);
    (lit "publisher", JObj [
       (lit "@type", str "Organization");
       (lit "name", str "AutoBlog");
       (lit "logo", JObj [
          (lit "@type", str "ImageObject");
          (lit "url", str "https://smmsurge.com/logo.png")])]);
    (lit "datePublished", JStr (dateCreated post));
    (lit "dateModified", JStr now);
    (lit "mainEntityOfPage", JObj [
       (lit "@type", str "WebPage");
       (lit "@id", JStr (site ++ lit "/blog/" ++ slug post))])
  ].

Definition generateOrganizationSchema : JsVal :=
  JObj [
    (lit "@type", str "Organization");
    (lit "name", str "AutoBlog AI");
    (lit "url", str "https://smmsurge.com");
    (lit "logo", str "https://smmsurge.com/logo.png");
    (lit "sameAs", JArr [
       str "https://twitter.com/autoblogai";
       str "https://facebook.com/autoblogai";
       str "https://linkedin.com/company/autoblogai"]);
    (lit "contactPoint", JObj [
       (lit "@type", str "ContactPoint");
       (lit "telephone", str "+1-000-000-0000");
       (lit "contactType", str "customer service")])
  ].

Definition list_item (position : Z) (name item : jsstring) : JsVal :=
  JObj [
    (lit "@type", str "ListItem");
    (lit "position", JNum position);
    (lit "name", JStr name);
    (lit "item", JStr item)
  ].

Definition generateBreadcrumbSchema `{CaseTables} (post : BlogPost) : JsVal :=
  JObj [
    (lit "@type", str "BreadcrumbList");
    (lit "itemListElement", JArr [
       list_item 1 (lit "Home") site;
       list_item 2 (lit "Blog") (site ++ lit "/blog");
       list_item 3 (category post)
         (site ++ lit "/blog/category/"
            ++ replace_runs is_space (lit "-") false (toLowerCase (category post)));
       list_item 4 (title post) (site ++ lit "/blog/" ++ slug post)])
  ].

Definition generateFAQSchema (post : BlogPost) : JsVal :=
  match aeoQuestions post with
  | None | Some [] => JNull
  | Some qs =>
      JObj [
        (lit "@type", str "FAQPage");
        (lit "mainEntity",
         JArr (map (fun q =>
                      JObj [
                        (lit "@type", str "Question");
                        (lit "name", JStr (question q));
                        (lit "acceptedAnswer", JObj [
                           (lit "@type", str "Answer");
                           (lit "text", JStr (answer q))])])
                   qs))
      ]
  end.

(** [steps.map((step, idx) => ...)], [idx] counting from [from]. *)
Fixpoint howto_steps (from : Z) (steps : list jsstring) : list JsVal :=
  match steps with
  | [] => []
  | step :: rest =>
      JObj [
        (lit "@type", str "HowToStep");
        (lit "position", JNum (from + 1));
        (lit "text", JStr step);
        (lit "name", JStr (lit "Step " ++ of_Z (from + 1)))
      ] :: howto_steps (from + 1) rest
  end.

Definition generateHowToSchema (post : BlogPost) : JsVal :=
  match isHowTo post, steps post with
  | Some true, Some ss =>
      if (List.length ss <? 3)%nat then JNull
      else
        JObj [
          (lit "@type", str "HowTo");
          (lit "name", JStr (title post));
          (lit "description", JStr (excerpt post));
          (lit "step", JArr (howto_steps 0 ss))
        ]
  | _, _ => JNull
  end.

Definition generateServiceSchema (post : BlogPost) : JsVal :=
  match commercialIntent post with
  | Some true =>
      JObj [
        (lit "@type", str "Service");
        (lit "name", JStr (title post));
        (lit "provider", JObj [
           (lit "@type", str "Organization");
           (lit "name", str "AutoBlog AI")]);
        (lit "areaServed", JStr (str_or (geoTargeting post) (lit "Global")));
        (lit "hasOfferCatalog", JObj [
           (lit "@type", str "OfferCatalog");
           (lit "name", str "Social Media Services");
           (lit "itemListElement", JArr [
              JObj [
                (lit "@type", str "Offer");
                (lit "itemOffered", JObj [
                   (lit "@type", str "Service");
                   (lit "name", JStr (title post))]);
                (lit "price", str "1.00");
                (lit "priceCurrency", str "USD")]])])
      ]
  | _ => JNull
  end.

(** [{ "@context": "https://schema.org", ...fragment }]. *)
Definition with_context (fragment : JsVal) : JsVal :=
  JObj (spread [(lit "@context", str "https://schema.org")] fragment).

(** [if (fragment) schemas.push({ "@context": ..., ...fragment })]. *)
Definition push_if (fragment : JsVal) (schemas : list JsVal) : list JsVal :=
  if truthy fragment then schemas ++ [with_context fragment] else schemas.

(** [aggregateSchemas(post)]; [now] as in [generateBlogPostingSchema]. *)
Definition aggregateSchemas `{CaseTables} (now : jsstring) (post : BlogPost)
  : list JsVal :=
  let schemas := [
    with_context (generateBlogPostingSchema now post);
    with_context generateOrganizationSchema;
    with_context (generateBreadcrumbSchema post)
  ] in
  let schemas := push_if (generateFAQSchema post) schemas in
  let schemas := push_if (generateHowToSchema post) schemas in
  let schemas := push_if (generateServiceSchema post) schemas in
  schemas.

(** [JSON.stringify(schema, null, 2)] inside a template literal. *)
Definition stringify_in_template (v : JsVal) : jsstring :=
  match JSON_stringify_2 v with
  | Some t => t
  | None => lit "undefined"
  end.

Definition script_tag (schema : JsVal) : jsstring :=
  lit "<script type=" ++ [0x22%N] ++ lit "application/ld+json" ++ [0x22%N]
    ++ lit ">" ++ stringify_in_template schema ++ lit "</script>".

(** [getCombinedSchemaHtml(post)]. *)
Definition getCombinedSchemaHtml `{CaseTables} (now : jsstring) (post : BlogPost)
  : jsstring :=
  join [0x0A%N] (map script_tag (aggregateSchemas now post)).

(** The ["@type"] of a fragment. *)
Definition type_of (fragment : JsVal) : JsVal :=
  match fragment with
  | JObj fields => obj_get (lit "@type") fields
  | _ => JUndefined
  end.

(** A fragment with its ["dateModified"] set to [v]. *)
Definition set_dateModified (v : JsVal) (fragment : JsVal) : JsVal :=
  match fragment with
  | JObj fields => JObj (obj_set (lit "dateModified") v fields)
  | other => other
  end.

End Schema.

Import Schema.

(* ================================================================== *)
(** ** The Generation Client and the Auto-Publish Orchestrator
       ([src/lib/geminiService.ts]) *)
(* ================================================================== *)

Module Generation.

Section Client.
Context {W : Type} `{Platform W} `{CaseTables}.

(** [encodeURIComponent(s)] where it is called. *)
Definition encodeURIComponentM (s : jsstring) : M W jsstring :=
  match encodeURIComponent s with
  | Some t => ret t
  | None => throw URIError_malformed
  end.

(** [Math.floor(Math.random() * k)]. *)
Definition random_below (k : Z) : M W Z :=
  r <- external EvRandom
         (fun w => let '(r, w') := Math_random w in (inr r, w')) ;;
  ret (floor_scaled r k).

Fixpoint mapM {A B} (f : A -> M W B) (l : list A) : M W (list B) :=
  match l with
  | [] => ret []
  | x :: l' =>
      y <- f x ;;
      ys <- mapM f l' ;;
      ret (y :: ys)
  end.

Definition set_coverImage (t : GeneratedTopic) (image : jsstring)
  : GeneratedTopic :=
  {| topic := topic t; relevance := relevance t; t_content := t_content t;
     t_excerpt := t_excerpt t; t_keywords := t_keywords t;
     t_category := t_category t; t_readTime := t_readTime t;
     t_geoTargeting := t_geoTargeting t; t_aeoQuestions := t_aeoQuestions t;
     t_seoScore := t_seoScore t; t_coverImage := image |}.

(** The callback of [topics.map] in [generateTopics]. *)
Definition with_picsum_cover (t : GeneratedTopic) : M W GeneratedTopic :=
  encoded <- encodeURIComponentM (topic t) ;;
  n <- random_below 1000 ;;
  ret (set_coverImage t
         (lit "https://picsum.photos/seed/" ++ substring0 10 encoded
            ++ of_Z n ++ lit "/800/400")).

(** [trainingContext ? ... : (the empty string)]: an empty context counts
    as none. *)
Definition given (o : option jsstring) : option jsstring :=
  match o with
  | Some (c :: t) => Some (c :: t)
  | _ => None
  end.

Definition topics_failure : JsError :=
  new_Error (lit "Failed to generate topics. Please check your API key or try again later.").

(** [generateTopics(niche, trainingContext, count)]. *)
Definition generateTopics (niche : jsstring) (trainingContext : option jsstring)
    (count : Z) : M W (list GeneratedTopic) :=
  try_catch
    (response <- retryWithBackoff
                   (generateContent
                      (TopicsRequest niche (given trainingContext) count))
                   default_retries default_delay ;;
     match text response with
     | None | Some [] => ret []
     | Some json =>
         topics <- of_sum (JSON_parse_topics json) ;;
         mapM with_picsum_cover topics
     end)
    (fun _ => throw topics_failure).

Definition post_failure : JsError :=
  new_Error (lit "Failed to generate blog post. The AI model is currently overloaded. Please try again in a few moments.").

(** [generateFullPost(topic, tone, trainingContext)]. *)
Definition generateFullPost (topic tone : jsstring)
    (trainingContext : option jsstring) : M W PartialPost :=
  try_catch
    (response <- retryWithBackoff
                   (generateContent
                      (FullPostRequest topic tone (given trainingContext)))
                   default_retries default_delay ;;
     match text response with
     | None | Some [] => throw (new_Error (lit "No content generated"))
     | Some json => of_sum (JSON_parse_post json)
     end)
    (fun _ => throw post_failure).

(** [generateCoverImage(prompt, isRawPrompt)]. *)
Definition generateCoverImage (prompt : jsstring) (isRawPrompt : bool)
  : M W jsstring :=
  finalPrompt <-
    (if isRawPrompt
     then encodeURIComponentM (substring0 200 prompt)
     else encodeURIComponentM
            (lit "High-quality cinematic blog header image for: "
               ++ substring0 100 prompt
               ++ lit ", vivid colors, detailed, professional photography")) ;;
  seed <- random_below 1000000 ;;
  ret (lit "https://image.pollinations.ai/prompt/" ++ finalPrompt
         ++ lit "?width=1000&height=500&nologo=true&seed=" ++ of_Z seed).

(** [t.toLowerCase().replace(/[^\w\s-]/g, '').replace(/[\s_-]+/g, '-')
      .replace(/^-+|-+$/g, '')]. *)
Definition slugify (t : jsstring) : jsstring :=
  trim_dashes
    (replace_runs (fun c => is_space c || (c =? 0x5F)%N || is_dash c)
       (lit "-") false
       (remove_all (fun c => negb (is_word c || is_space c || is_dash c))
          (toLowerCase t))).

Definition or_default {A} (o : option A) (d : A) : A :=
  match o with
  | Some a => a
  | None => d
  end.

(** [content.seoScore || 85]: a score of zero is replaced as well. *)
Definition score_or (o : option Z) (d : Z) : Z :=
  match o with
  | Some n => if (n =? 0)%Z then d else n
  | None => d
  end.

Definition set_content (p : BlogPost) (c : jsstring) : BlogPost :=
  {| id := id p; slug := slug p; title := title p; excerpt := excerpt p;
     content := c; keywords := keywords p; category := category p;
     dateCreated := dateCreated p; status := status p;
     readTime := readTime p; coverImage := coverImage p;
     geoTargeting := geoTargeting p; seoScore := seoScore p;
     aeoQuestions := aeoQuestions p;
     commercialIntent := commercialIntent p; isHowTo := isHowTo p;
     steps := steps p; scheduledDate := scheduledDate p |}.

(** Step 4 of [generateAndPublishAutoPost]: the object literal [basePost]. *)
Definition basePost (id_ms : Z) (created : jsstring)
    (randomTopic : GeneratedTopic) (content : PartialPost)
    (coverImage : jsstring) : BlogPost :=
  {| id := of_Z id_ms;
     title := str_or (pp_title content) (topic randomTopic);
     content := str_or (pp_content content) [];
     excerpt := str_or (pp_excerpt content) [];
     keywords := or_default (pp_keywords content) [];
     category := str_or (pp_category content) (lit "Auto-Generated");
     readTime := str_or (pp_readTime content) (lit "3 min read");
     dateCreated := created;
     status := published;
     geoTargeting := Some (str_or (pp_geoTargeting content) (lit "Global"));
     aeoQuestions := Some (or_default (pp_aeoQuestions content) []);
     seoScore := score_or (pp_seoScore content) 85;
     commercialIntent := pp_commercialIntent content;
     isHowTo := pp_isHowTo content;
     steps := pp_steps content;
     slug := slugify (str_or (pp_title content) (topic randomTopic));
     coverImage := Some coverImage;
     scheduledDate := None |}.

(** [a[i]]: [None] is [undefined]. *)
Definition array_at {A} (a : list A) (i : Z) : option A :=
  if (i <? 0)%Z then None else nth_error a (Z.to_nat i).

Definition no_topics : JsError :=
  new_Error (lit "Failed to auto-generate topics").

(** Reading a property of [undefined]. *)
Definition TypeError_undefined : JsError :=
  mkError (lit "TypeError")
          (Some (lit "Cannot read properties of undefined"))
          JUndefined JUndefined JUndefined.

(** Step 3 of [generateAndPublishAutoPost]: the cover image, or the
    placeholder of the [catch] branch. *)
Definition cover_or_placeholder (topic : jsstring) : M W jsstring :=
  try_catch (generateCoverImage topic false)
    (fun _ =>
       now <- silent Date_now ;;
       ret (lit "https://picsum.photos/800/400?random=" ++ of_Z now)).

(** Step 5: [basePost.content = `${basePost.content}\n\n${schemaHtml}`]. *)
Definition inject_schema (now : jsstring) (base : BlogPost) : BlogPost :=
  let schemaHtml := getCombinedSchemaHtml now base in
  set_content base (content base ++ [0x0A; 0x0A]%N ++ schemaHtml).

(** Steps 4 and 5 with the clock readings they make: [Date.now()] for the
    id, [toLocaleString()] for the creation date, [toISOString()] inside
    the aggregator. *)
Definition assemble (randomTopic : GeneratedTopic) (content : PartialPost)
    (coverImage : jsstring) : M W BlogPost :=
  id_ms <- silent Date_now ;;
  created <- silent Date_toLocaleString ;;
  let base := basePost id_ms created randomTopic content coverImage in
  now <- silent Date_toISOString ;;
  ret (inject_schema now base).

(** [generateAndPublishAutoPost(niche)]. *)
Definition generateAndPublishAutoPost (niche : jsstring) : M W BlogPost :=
  topics <- generateTopics niche None 3 ;;
  match topics with
  | [] => throw no_topics
  | _ :: _ =>
      index <- random_below (Z.of_nat (List.length topics)) ;;
      match array_at topics index with
      | None => throw TypeError_undefined
      | Some randomTopic =>
          content <- generateFullPost (topic randomTopic)
                       (lit "Professional & Engaging") None ;;
          coverImage <- cover_or_placeholder (topic randomTopic) ;;
          assemble randomTopic content coverImage
      end
  end.

End Client.

End Generation.

Import Generation.

(* ================================================================== *)
(** ** The Image Acquisition Pipeline ([src/app/actions/gemini.ts]) *)
(* ================================================================== *)

Module Pipeline.

(** [{ success, url?, error? }]. *)
Record StoreResult : Type := mkResult {
  success : bool;
  url : option jsstring;
  error : option jsstring
}.

Definition maxRetries : Z := 2.

Definition user_agent : jsstring :=
  lit "Mozilla/5.0 (Windows NT 10.0; Win64; x64) AppleWebKit/537.36 (KHTML, like Gecko) Chrome/91.0.4472.124 Safari/537.36".

Definition config_missing : StoreResult :=
  mkResult false None (Some (lit "Remote storage configuration missing")).

(** [`AI generation failed (${lastError}), using relevant fallback.`]. *)
Definition fallback_note (lastError : option jsstring) : jsstring :=
  lit "AI generation failed ("
    ++ or_default lastError (lit "undefined")
    ++ lit "), using relevant fallback.".

(** [topic.split(' ').slice(0, 3).join(',')]. *)
Definition fallback_keywords (topic : jsstring) : jsstring :=
  join (lit ",") (slice0 3 (split 0x20%N topic)).

Definition fallback_prefix : jsstring := lit "https://loremflickr.com/800/400/".

Section Store.
Context {W : Type} `{Platform W} `{CaseTables}.

Definition image_request (imageUrl : jsstring) : Request :=
  mkRequest imageUrl (lit "GET") [(lit "User-Agent", user_agent)] None.

Definition upload_request (uploadUrl apiKey filename : jsstring)
    (bytes : list N) : Request :=
  mkRequest uploadUrl (lit "POST") [(lit "X-API-Key", apiKey)]
            (Some (mkFormFile filename (lit "image/jpeg") bytes)).

(** The file name when none is supplied. *)
Definition default_filename (topic : jsstring) (now_ms : Z) : jsstring :=
  let slug :=
    substring0 50
      (trim_one_dash
         (replace_runs (fun c => negb (is_lower c || is_digit c))
            (lit "-") false (toLowerCase topic))) in
  let timestamp := (now_ms / 1000)%Z in
  str_or (Some slug) (lit "ai-image") ++ lit "-" ++ of_Z timestamp
    ++ lit ".jpg".

(** The body of the [try] block of one round of the loop; [inr] is its
    [return].  The timer that aborts the download after 15 seconds has no
    effect of its own: when it fires, [fetch] throws. *)
Definition attempt (topic : jsstring) (isRawPrompt : bool)
    (customFilename : option jsstring) : M W StoreResult :=
  imageUrl <- generateCoverImage topic isRawPrompt ;;
  match given env_REMOTE_STORAGE_API_KEY, given env_REMOTE_STORAGE_API_URL with
  | Some apiKey, Some apiUrl =>
      response <- external (EvFetch (image_request imageUrl))
                    (fetch (image_request imageUrl)) ;;
      if negb (resp_ok response) then
        throw (new_Error (lit "AI Provider responded with "
                            ++ of_Z (resp_status response)))
      else
        arrayBuffer <- of_sum (resp_arrayBuffer response) ;;
        if (List.length arrayBuffer <? 1000)%nat then
          throw (new_Error (lit "Received invalid or too small image data"))
        else
          filename <-
            match given customFilename with
            | Some name => ret name
            | None =>
                now <- silent Date_now ;;
                ret (default_filename topic now)
            end ;;
          uploadUrl <- of_sum (URL_with_params apiUrl
                                 [(lit "action", lit "upload");
                                  (lit "api_key", apiKey)]) ;;
          let upload := upload_request uploadUrl apiKey filename arrayBuffer in
          uploadResponse <- external (EvFetch upload) (fetch upload) ;;
          if negb (resp_ok uploadResponse) then
            errorText <- of_sum (resp_text uploadResponse) ;;
            throw (new_Error (lit "Storage upload failed: "
                                ++ of_Z (resp_status uploadResponse)
                                ++ lit " " ++ errorText))
          else
            data <- of_sum (resp_json uploadResponse) ;;
            if up_success data then ret (mkResult true (up_url data) None)
            else throw (new_Error (str_or (up_error data) (lit "Upload failed")))
  | _, _ => ret config_missing
  end.

(** The code after the loop. *)
Definition fallback (topic : jsstring) (lastError : option jsstring)
  : M W StoreResult :=
  try_catch
    (let keywords := fallback_keywords topic in
     encoded <- encodeURIComponentM keywords ;;
     lock <- random_below 1000 ;;
     ret (mkResult true
            (Some (fallback_prefix ++ encoded ++ lit "?lock=" ++ of_Z lock))
            (Some (fallback_note lastError))))
    (fun _ =>
       ret (mkResult false None
              (Some (str_or lastError (lit "Failed to generate or store image"))))).

(** [for (let i = ...; i <= maxRetries; i++) { try {...} catch {...} }] with
    [rounds] rounds to go, followed by the fallback. *)
Fixpoint rounds_from (rounds : nat) (i : Z) (lastError : option jsstring)
    (topic : jsstring) (isRawPrompt : bool) (customFilename : option jsstring)
  : M W StoreResult :=
  match rounds with
  | O => fallback topic lastError
  | S rounds' =>
      try_catch (attempt topic isRawPrompt customFilename)
        (fun error =>
           let lastError := err_message error in
           (if (i <? maxRetries)%Z then sleep 1000 else ret tt) ;;;
           rounds_from rounds' (i + 1) lastError topic isRawPrompt
                       customFilename)
  end.

(** [generateAndStoreCoverImage(topic, isRawPrompt, customFilename)]. *)
Definition generateAndStoreCoverImage (topic : jsstring) (isRawPrompt : bool)
    (customFilename : option jsstring) : M W StoreResult :=
  rounds_from (Z.to_nat (maxRetries + 1)) 0 (Some []) topic isRawPrompt
              customFilename.

End Store.

End Pipeline.

Import Pipeline.

(* ================================================================== *)
(** ** Parsed answers of the model as typed records *)
(* ================================================================== *)

Module Decode.

Definition as_string (v : JsVal) : option jsstring :=
  match v with JStr s => Some s | _ => None end.

Definition as_number (v : JsVal) : option Z :=
  match v with JNum n => Some n | _ => None end.

Definition as_bool (v : JsVal) : option bool :=
  match v with JBool b => Some b | _ => None end.

Fixpoint all_some {A} (l : list (option A)) : option (list A) :=
  match l with
  | [] => Some []
  | Some a :: t => option_map (cons a) (all_some t)
  | None :: _ => None
  end.

Definition as_list {A} (item : JsVal -> option A) (v : JsVal)
  : option (list A) :=
  match v with
  | JArr items => all_some (map item items)
  | _ => None
  end.

Definition as_qa (v : JsVal) : option QA :=
  match v with
  | JObj f =>
      match as_string (obj_get (lit "question") f),
            as_string (obj_get (lit "answer") f) with
      | Some q, Some a => Some (mkQA q a)
      | _, _ => None
      end
  | _ => None
  end.

Definition of_qa (q : QA) : JsVal :=
  JObj [(lit "question", JStr (question q)); (lit "answer", JStr (answer q))].

Definition of_strings (l : list jsstring) : JsVal := JArr (map JStr l).

Definition of_qas (l : list QA) : JsVal := JArr (map of_qa l).

(** An element of the array [generateTopics] asks for, with all the
    properties its schema requires. *)
Definition as_topic (v : JsVal) : option GeneratedTopic :=
  match v with
  | JObj f =>
      match as_string (obj_get (lit "topic") f),
            as_string (obj_get (lit "relevance") f),
            as_string (obj_get (lit "content") f),
            as_string (obj_get (lit "excerpt") f),
            as_list as_string (obj_get (lit "keywords") f),
            as_string (obj_get (lit "category") f) with
      | Some tp, Some rl, Some ct, Some ex, Some kw, Some cg =>
          match as_string (obj_get (lit "readTime") f),
                as_string (obj_get (lit "geoTargeting") f),
                as_list as_qa (obj_get (lit "aeoQuestions") f),
                as_number (obj_get (lit "seoScore") f),
                as_string (obj_get (lit "coverImage") f) with
          | Some rt, Some gt, Some qs, Some sc, Some ci =>
              Some (mkTopic tp rl ct ex kw cg rt gt qs sc ci)
          | _, _, _, _, _ => None
          end
      | _, _, _, _, _, _ => None
      end
  | _ => None
  end.

Definition of_topic (t : GeneratedTopic) : JsVal :=
  JObj [(lit "topic", JStr (topic t));
        (lit "relevance", JStr (relevance t));
        (lit "content", JStr (t_content t));
        (lit "excerpt", JStr (t_excerpt t));
        (lit "keywords", of_strings (t_keywords t));
        (lit "category", JStr (t_category t));
        (lit "readTime", JStr (t_readTime t));
        (lit "geoTargeting", JStr (t_geoTargeting t));
        (lit "aeoQuestions", of_qas (t_aeoQuestions t));
        (lit "seoScore", JNum (t_seoScore t));
        (lit "coverImage", JStr (t_coverImage t))].

Definition TypeError_shape : JsError :=
  mkError (lit "TypeError") (Some (lit "topics.map is not a function"))
          JUndefined JUndefined JUndefined.

(** [JSON.parse(text) as GeneratedTopic[]] for a text that has the shape
    requested from the model: an array of objects with all the properties
    of the schema.  A text that is no array makes the code that follows
    throw, which is reported here; an array with an element of another
    shape is reported in the same way, although the code goes on with
    it. *)
Definition parse_topics (json : jsstring) : JsError + list GeneratedTopic :=
  match JSON_parse json with
  | inl e => inl e
  | inr v =>
      match as_list as_topic v with
      | Some ts => inr ts
      | None => inl TypeError_shape
      end
  end.

(** [JSON.parse(text)] as a [Partial<BlogPost>]: a property is there when
    the object has it with the type of its schema.  This is how an answer
    that is an object with properties of those types is read; on [null]
    or on a property of another type the code that uses the answer
    throws, which this reading does not show. *)
Definition as_partial (v : JsVal) : PartialPost :=
  let f := match v with JObj f => f | _ => [] end in
  {| pp_title := as_string (obj_get (lit "title") f);
     pp_content := as_string (obj_get (lit "content") f);
     pp_excerpt := as_string (obj_get (lit "excerpt") f);
     pp_keywords := as_list as_string (obj_get (lit "keywords") f);
     pp_category := as_string (obj_get (lit "category") f);
     pp_readTime := as_string (obj_get (lit "readTime") f);
     pp_geoTargeting := as_string (obj_get (lit "geoTargeting") f);
     pp_aeoQuestions := as_list as_qa (obj_get (lit "aeoQuestions") f);
     pp_seoScore := as_number (obj_get (lit "seoScore") f);
     pp_commercialIntent := as_bool (obj_get (lit "commercialIntent") f);
     pp_isHowTo := as_bool (obj_get (lit "isHowTo") f);
     pp_steps := as_list as_string (obj_get (lit "steps") f) |}.

Definition parse_post (json : jsstring) : JsError + PartialPost :=
  match JSON_parse json with
  | inl e => inl e
  | inr v => inr (as_partial v)
  end.

End Decode.

Import Decode.

(* ================================================================== *)
(** ** The persistence contract ([src/app/api/posts/route.ts]) *)
(* ================================================================== *)

Module Route.

(** A row as the database driver hands it over: column names and values. *)
Definition Row : Type := list (jsstring * JsVal).

(** The [posts] table. *)
Definition Store : Type := list Row.

(** [NextResponse.json(body, { status })]. *)
Record ApiResponse : Type := mkApiResponse {
  http_status : Z;
  body : JsVal
}.

Definition ok (v : JsVal) : ApiResponse := mkApiResponse 200 v.

(** [NextResponse.json({ error: error.message }, { status: 500 })]. *)
Definition failed (e : JsError) : ApiResponse :=
  mkApiResponse 500 (JObj [(lit "error", opt_str (err_message e))]).

(** [v.k] on a value of type [any]: reading from [null] or [undefined]
    throws, reading from another value that is not an object gives
    [undefined]. *)
Definition get_prop (v : JsVal) (k : jsstring) : JsError + JsVal :=
  match v with
  | JObj fields => inr (obj_get k fields)
  | JUndefined | JNull => inl TypeError_undefined
  | _ => inr JUndefined
  end.

(** ToString. *)
Fixpoint to_text (v : JsVal) : jsstring :=
  match v with
  | JUndefined => lit "undefined"
  | JNull => lit "null"
  | JBool true => lit "true"
  | JBool false => lit "false"
  | JNum n => of_Z n
  | JStr s => s
  | JArr items =>
      join (lit ",")
        ((fix texts (l : list JsVal) : list jsstring :=
            match l with
            | [] => []
            | x :: l' =>
                match x with
                | JUndefined | JNull => []
                | _ => to_text x
                end :: texts l'
            end) items)
  | JObj _ => lit "[object Object]"
  end.

(** [post.k] on the properties of an object. *)
Definition field (post : list (jsstring * JsVal)) (k : string) : JsVal :=
  obj_get (lit k) post.

(** [JSON.parse(v)] on a value of type [any]. *)
Definition JSON_parse_any (v : JsVal) : JsError + JsVal :=
  match v with
  | JStr s => JSON_parse s
  | _ => JSON_parse (to_text v)
  end.

(** [JSON.stringify(v)] as a value: a string or [undefined]. *)
Definition stringified (v : JsVal) : JsVal := opt_str (JSON_stringify v).

(** [flag ? 1 : 0]. *)
Definition one_or_zero (flag : JsVal) : JsVal :=
  JNum (if truthy flag then 1 else 0).

(** [Boolean(v)]. *)
Definition Boolean (v : JsVal) : JsVal := JBool (truthy v).

Definition empty_array : JsVal := JArr [].

(** *** GET *)

(** [cell ? JSON.parse(cell) : []], for [keywords] and [steps]. *)
Definition parse_or_empty (cell : JsVal) : JsError + JsVal :=
  if truthy cell then JSON_parse_any cell else inr empty_array.

(** [typeof cell === 'string' ? JSON.parse(cell) : (cell || [])], for
    [aeoQuestions]. *)
Definition parse_if_string (cell : JsVal) : JsError + JsVal :=
  match cell with
  | JStr s => JSON_parse s
  | other => inr (js_or other empty_array)
  end.

(** The callback of [rows.map] in [GET]: the row with five of its
    properties replaced. *)
Definition decode_row (post : Row) : JsError + JsVal :=
  match parse_or_empty (obj_get (lit "keywords") post) with
  | inl e => inl e
  | inr keywords =>
      match parse_if_string (obj_get (lit "aeoQuestions") post) with
      | inl e => inl e
      | inr aeoQuestions =>
          match parse_or_empty (obj_get (lit "steps") post) with
          | inl e => inl e
          | inr steps =>
              inr (JObj
                     (obj_set (lit "isHowTo")
                        (Boolean (obj_get (lit "isHowTo") post))
                     (obj_set (lit "commercialIntent")
                        (Boolean (obj_get (lit "commercialIntent") post))
                     (obj_set (lit "steps") steps
                     (obj_set (lit "aeoQuestions") aeoQuestions
                     (obj_set (lit "keywords") keywords post))))))
          end
      end
  end.

Fixpoint map_sum {A B} (f : A -> JsError + B) (l : list A) : JsError + list B :=
  match l with
  | [] => inr []
  | x :: l' =>
      match f x with
      | inl e => inl e
      | inr y =>
          match map_sum f l' with
          | inl e => inl e
          | inr ys => inr (y :: ys)
          end
      end
  end.

(** The [dateCreated] of a row, as a number of milliseconds. *)
Definition created_at (row : Row) : Z :=
  match obj_get (lit "dateCreated") row with
  | JNum ms => ms
  | _ => 0
  end.

(** [ORDER BY dateCreated DESC]. *)
Fixpoint insert_by_date (row : Row) (sorted : list Row) : list Row :=
  match sorted with
  | [] => [row]
  | r :: rest =>
      if (created_at r <? created_at row)%Z then row :: r :: rest
      else r :: insert_by_date row rest
  end.

Definition newest_first (rows : list Row) : list Row :=
  fold_right insert_by_date [] rows.

(** [GET()]: the store is not changed. *)
Definition GET (st : Store) : ApiResponse :=
  let rows := newest_first st in
  match map_sum decode_row rows with
  | inr posts => ok (JArr posts)
  | inl e => failed e
  end.

(** *** POST *)

Section Post.

(** The timestamp of [new Date(v)] as the database keeps it. *)
Variable parse_date : JsVal -> Z.

(** Whether the column [aeoQuestions] has the type JSON, whose values the
    driver parses on the way out, or a text type.  The sources provide for
    both. *)
Variable aeo_column_is_json : bool.

(** What a bound parameter reads back as from a column that is not of type
    JSON: [undefined] is bound as [NULL]. *)
Definition stored (v : JsVal) : JsVal :=
  match v with
  | JUndefined => JNull
  | other => other
  end.

Definition db_error (msg : string) : JsError :=
  mkError (lit "Error") (Some (lit msg)) JUndefined JUndefined JUndefined.

(** What a bound parameter reads back as from a JSON column. *)
Definition stored_json (v : JsVal) : JsError + JsVal :=
  match v with
  | JUndefined | JNull => inr JNull
  | JStr s =>
      match JSON_parse s with
      | inr j => inr j
      | inl _ => inl (db_error "Invalid JSON text")
      end
  | _ => inl (db_error "Invalid JSON text")
  end.

(** The values the query binds to the columns other than [id] and
    [dateCreated]; the source lists them twice, for INSERT and for
    UPDATE. *)
Definition update_values (post : list (jsstring * JsVal))
  : list (jsstring * JsVal) :=
  [ (lit "slug", field post "slug");
    (lit "title", field post "title");
    (lit "excerpt", field post "excerpt");
    (lit "content", field post "content");
    (lit "keywords", stringified (field post "keywords"));
    (lit "category", field post "category");
    (lit "status", field post "status");
    (lit "readTime", field post "readTime");
    (lit "coverImage", field post "coverImage");
    (lit "geoTargeting", field post "geoTargeting");
    (lit "seoScore", field post "seoScore");
    (lit "aeoQuestions", stringified (field post "aeoQuestions"));
    (lit "commercialIntent", one_or_zero (field post "commercialIntent"));
    (lit "isHowTo", one_or_zero (field post "isHowTo"));
    (lit "steps", stringified (js_or (field post "steps") empty_array));
    (lit "scheduledDate", js_or (field post "scheduledDate") JNull) ].

Definition insert_values (post : list (jsstring * JsVal))
  : list (jsstring * JsVal) :=
  (lit "id", obj_get (lit "id") post)
    :: (lit "dateCreated", JNum (parse_date (obj_get (lit "dateCreated") post)))
    :: update_values post.

(** One bound value as its column keeps it. *)
Definition keep (column : jsstring * JsVal) : JsError + (jsstring * JsVal) :=
  let '(name, v) := column in
  if JsString.eqb name (lit "aeoQuestions") && aeo_column_is_json then
    match stored_json v with
    | inr j => inr (name, j)
    | inl e => inl e
    end
  else inr (name, stored v).

(** The primary key of a row: a text; a number is kept as its decimal
    text, and there is no row without a key. *)
Definition key_of (v : JsVal) : option jsstring :=
  match v with
  | JStr s => Some s
  | JNum n => Some (of_Z n)
  | _ => None
  end.

Definition has_key (k : jsstring) (row : Row) : bool :=
  match key_of (obj_get (lit "id") row) with
  | Some k' => JsString.eqb k k'
  | None => false
  end.

Definition set_columns (columns : list (jsstring * JsVal)) (row : Row) : Row :=
  fold_left (fun r kv => obj_set (fst kv) (snd kv) r) columns row.

(** [INSERT INTO posts (...) VALUES (...) ON DUPLICATE KEY UPDATE ...]. *)
Definition upsert (post : list (jsstring * JsVal)) (st : Store)
  : JsError + Store :=
  match key_of (obj_get (lit "id") post) with
  | None => inl (db_error "Column 'id' cannot be null")
  | Some k =>
      if existsb (has_key k) st then
        match map_sum keep (update_values post) with
        | inl e => inl e
        | inr columns =>
            inr (map (fun row => if has_key k row then set_columns columns row
                                 else row) st)
        end
      else
        match map_sum keep (insert_values post) with
        | inl e => inl e
        | inr row => inr (st ++ [row])
        end
  end.

(** [POST(request)], [post] being the parsed body of the request.  The
    table has no counter of its own, the ids are made by the client, and
    [insertId] is reported as zero. *)
Definition POST (post : JsVal) (st : Store) : ApiResponse * Store :=
  match get_prop post (lit "id") with
  | inl e => (failed e, st)
  | inr _ =>
      let fields := match post with JObj f => f | _ => [] end in
      match upsert fields st with
      | inl e => (failed e, st)
      | inr st' =>
          (ok (JObj [(lit "success", JBool true); (lit "insertId", JNum 0)]),
           st')
      end
  end.

End Post.

(** A value that [JSON.stringify] writes and [JSON.parse] reads back: no
    [undefined] inside, and no object with one key twice. *)
Fixpoint is_json (v : JsVal) : bool :=
  match v with
  | JUndefined => false
  | JNull | JBool _ | JNum _ | JStr _ => true
  | JArr items =>
      (fix all (l : list JsVal) : bool :=
         match l with
         | [] => true
         | x :: l' => is_json x && all l'
         end) items
  | JObj fields =>
      (fix all (l : list (jsstring * JsVal)) : bool :=
         match l with
         | [] => true
         | (k, x) :: l' =>
             is_json x && negb (existsb (fun kv => JsString.eqb k (fst kv)) l')
             && all l'
         end) fields
  end.

(** An array or an object. *)
Definition is_compound (v : JsVal) : bool :=
  match v with
  | JArr _ | JObj _ => true
  | _ => false
  end.

End Route.

Import Route.
(* ================================================================== *)
(** ** The training modules ([src/lib/geminiService.ts], lines 238-272) *)
(* ================================================================== *)
Module Training.

(** [JSON.parse(text)] where the result is used as it is, at the type
    [any]: what the engine reads from the text, numbers with a fraction or
    an exponent and objects with numeric keys included; [inl] is the
    [SyntaxError]. *)
Class Reader : Type := {
  JSON_parse_module : jsstring -> JsError + JsVal
}.

Section Client.
Context {W : Type} `{Platform W} `{Reader}.

Definition training_failure : JsError :=
  new_Error (lit "Failed to generate training module. The AI model might be busy. Please try again.").

(** [generateTrainingModule(topic)].  The value of [JSON.parse(text)] is
    returned as it is: the type [Partial<TrainingModule>] of the result is
    not checked when the program runs. *)
Definition generateTrainingModule (topic : jsstring) : M W JsVal :=
  try_catch
    (response <- retryWithBackoff (generateContent (TrainingRequest topic))
                   default_retries default_delay ;;
     match text response with
     | None | Some [] =>
         throw (new_Error (lit "No content generated for training module"))
     | Some json => of_sum (JSON_parse_module json)
     end)
    (fun _ => throw training_failure).

End Client.

End Training.

(* ================================================================== *)
(** ** The server actions ([src/app/actions/gemini.ts]) *)
(* ================================================================== *)
Module Actions.

Section Server.
Context {W : Type} `{Platform W} `{CaseTables} `{Training.Reader}.

Definition topics_error : JsError :=
  new_Error (lit "Failed to generate topics.").

Definition post_error : JsError :=
  new_Error (lit "Failed to generate full post.").

Definition publish_error : JsError :=
  new_Error (lit "Failed to auto-publish post.").

Definition training_error : JsError :=
  new_Error (lit "Failed to generate training module.").

(** [generateTopics(niche, trainingContext, count)], lines 6-13. *)
Definition generateTopics (niche : jsstring) (trainingContext : option jsstring)
    (count : Z) : M W (list GeneratedTopic) :=
  try_catch (Generation.generateTopics niche trainingContext count)
    (fun _ => throw topics_error).

(** [generateFullPost(topic, tone, trainingContext)], lines 15-22. *)
Definition generateFullPost (topic tone : jsstring)
    (trainingContext : option jsstring) : M W PartialPost :=
  try_catch (Generation.generateFullPost topic tone trainingContext)
    (fun _ => throw post_error).

(** [generateCoverImage(topic)], lines 24-32: the service is called with
    [isRawPrompt] at its default. *)
Definition generateCoverImage (topic : jsstring) : M W jsstring :=
  try_catch (Generation.generateCoverImage topic false)
    (fun _ =>
       now <- silent Date_now ;;
       ret (lit "https://picsum.photos/800/400?random=" ++ of_Z now)).

(** [generateAndPublishAutoPost(niche)], lines 141-148. *)
Definition generateAndPublishAutoPost (niche : jsstring) : M W BlogPost :=
  try_catch (Generation.generateAndPublishAutoPost niche)
    (fun _ => throw publish_error).

(** [generateTrainingModule(topic)], lines 150-157. *)
Definition generateTrainingModule (topic : jsstring) : M W JsVal :=
  try_catch (Training.generateTrainingModule topic)
    (fun _ => throw training_error).

End Server.

End Actions.

(* ================================================================== *)
Module Legacy.

Section Client.
Context {W : Type} `{Platform W}.

(** [generateCoverImage(topic)] of the earlier service: the topic is not
    used. *)
Definition generateCoverImage (topic : jsstring) : M W jsstring :=
  randomSeed <- random_below 100000 ;;
  ret (lit "https://picsum.photos/seed/" ++ of_Z randomSeed ++ lit "/800/400").

(** Step 3 of the earlier [generateAndPublishAutoPost], lines 189-195. *)
Definition cover_or_placeholder (topic : jsstring) : M W jsstring :=
  try_catch (generateCoverImage topic)
    (fun _ =>
       now <- silent Date_now ;;
       ret (lit "https://picsum.photos/800/400?random=" ++ of_Z now)).

End Client.

End Legacy.

(* ================================================================== *)
Module RemoteStorage.

(** A [Response] as this module reads it: [statusText] as well, and the
    body as the value [response.json()] parses it into. *)
Record Reply : Type := mkReply {
  reply_ok : bool;
  reply_status : Z;
  reply_statusText : jsstring;
  reply_text : JsError + jsstring;
  reply_json : JsError + JsVal
}.

(** What the module calls in the browser: [fetch], [new URL] with
    [searchParams.append], and the two variables that the build inlines
    for [process.env.NEXT_PUBLIC_REMOTE_STORAGE_API_URL] and [..._KEY]. *)
Class Browser (W : Type) : Type := {
  browser_fetch : Request -> W -> (JsError + Reply) * W;
  browser_URL : jsstring -> list (jsstring * jsstring) -> JsError + jsstring;
  API_URL : option jsstring;
  API_KEY : option jsstring
}.

(** [{ success, url?, error? }], with the properties of the reply of the
    service as they are. *)
Record Outcome : Type := mkOutcome {
  done : bool;
  at_url : JsVal;
  why : JsVal
}.

Definition missing : Outcome :=
  mkOutcome false JUndefined (str "Remote storage configuration missing").

Definition network_error : Outcome :=
  mkOutcome false JUndefined
            (str "Network error or CORS issue. Check browser console.").

Section Client.
Context {W : Type} `{Browser W}.

Definition upload_of (uploadUrl apiKey : jsstring) (file : FormFile) : Request :=
  mkRequest uploadUrl (lit "POST") [(lit "X-API-Key", apiKey)] (Some file).

Definition list_of (apiUrl apiKey : jsstring) : Request :=
  mkRequest (apiUrl ++ lit "?action=list") (lit "GET")
            [(lit "X-API-Key", apiKey)] None.

Definition delete_of (apiUrl apiKey encoded : jsstring) : Request :=
  mkRequest (apiUrl ++ lit "?action=delete&filename=" ++ encoded)
            (lit "DELETE") [(lit "X-API-Key", apiKey)] None.

(** [uploadFile(file)]. *)
Definition uploadFile (file : FormFile) : M W Outcome :=
  match given API_URL, given API_KEY with
  | Some apiUrl, Some apiKey =>
      try_catch
        (uploadUrl <- of_sum (browser_URL apiUrl
                                [(lit "action", lit "upload");
                                 (lit "api_key", apiKey)]) ;;
         let request := upload_of uploadUrl apiKey file in
         response <- external (EvFetch request) (browser_fetch request) ;;
         if negb (reply_ok response) then
           errorText <- of_sum (reply_text response) ;;
           ret (mkOutcome false JUndefined
                  (JStr (lit "Upload failed: " ++ of_Z (reply_status response)
                           ++ lit " " ++ reply_statusText response)))
         else
           data <- of_sum (reply_json response) ;;
           success <- of_sum (get_prop data (lit "success")) ;;
           if truthy success then
             url <- of_sum (get_prop data (lit "url")) ;;
             ret (mkOutcome true url JUndefined)
           else
             error <- of_sum (get_prop data (lit "error")) ;;
             ret (mkOutcome false JUndefined
                    (js_or error (str "Upload failed"))))
        (fun _ => ret network_error)
  | _, _ => ret missing
  end.

(** [listFiles()]: the parsed body of the reply, or the empty array. *)
Definition listFiles : M W JsVal :=
  match given API_URL, given API_KEY with
  | Some apiUrl, Some apiKey =>
      try_catch
        (let request := list_of apiUrl apiKey in
         response <- external (EvFetch request) (browser_fetch request) ;;
         if negb (reply_ok response) then
           errorText <- of_sum (reply_text response) ;;
           throw (new_Error
                    (lit "Failed to fetch file list: "
                       ++ of_Z (reply_status response) ++ lit " "
                       ++ reply_statusText response))
         else of_sum (reply_json response))
        (fun _ => ret (JArr []))
  | _, _ => ret (JArr [])
  end.

(** [data.success === true]. *)
Definition is_true (v : JsVal) : bool :=
  match v with
  | JBool true => true
  | _ => false
  end.

(** [deleteFile(filename)]. *)
Definition deleteFile (filename : jsstring) : M W bool :=
  match given API_URL, given API_KEY with
  | Some apiUrl, Some apiKey =>
      try_catch
        (encoded <- encodeURIComponentM filename ;;
         let request := delete_of apiUrl apiKey encoded in
         response <- external (EvFetch request) (browser_fetch request) ;;
         data <- of_sum (reply_json response) ;;
         success <- of_sum (get_prop data (lit "success")) ;;
         ret (is_true success))
        (fun _ => ret false)
  | _, _ => ret false
  end.

End Client.

End RemoteStorage.

(* ================================================================== *)
(** ** The editor's slug ([src/components/PostEditor.tsx], lines 36-43) *)
(* ================================================================== *)
Module Editor.

(** [s.trim()]: the code points it strips are those of [\s]. *)
Definition trim (s : jsstring) : jsstring :=
  drop_while_end is_space (drop_while is_space s).

(** [slugify(text)]: [text.toLowerCase().trim().replace(/[^\w\s-]/g, '')
      .replace(/[\s_-]+/g, '-').replace(/^-+|-+$/g, '')]. *)
Definition slugify `{CaseTables} (text : jsstring) : jsstring :=
  trim_dashes
    (replace_runs (fun c => is_space c || (c =? 0x5F)%N || is_dash c)
       (lit "-") false
       (remove_all (fun c => negb (is_word c || is_space c || is_dash c))
          (trim (toLowerCase text)))).

End Editor.

(* ================================================================== *)
(** ** The migration script ([src/migrate-db.js]) *)
(* ================================================================== *)
Module Migration.

(** What the script does to the database, in order. *)
Inductive Step : Type :=
| Connect
| Query (sql : jsstring)
| Disconnect.

(** The driver: [mysql.createConnection], [connection.query] and
    [connection.end], each of which may reject. *)
Class MySql (W : Type) : Type := {
  createConnection : W -> (JsError + unit) * W;
  query : jsstring -> W -> (JsError + unit) * W;
  end_connection : W -> (JsError + unit) * W
}.

Definition alterQueries : list jsstring :=
  [lit "ALTER TABLE posts ADD COLUMN IF NOT EXISTS commercialIntent BOOLEAN DEFAULT FALSE";
   lit "ALTER TABLE posts ADD COLUMN IF NOT EXISTS isHowTo BOOLEAN DEFAULT FALSE";
   lit "ALTER TABLE posts ADD COLUMN IF NOT EXISTS steps LONGTEXT"].

(** [err.code === 'ER_DUP_COLUMN_NAME']. *)
Definition is_duplicate_column (err : JsError) : bool :=
  match err_code err with
  | JStr code => JsString.eqb code (lit "ER_DUP_COLUMN_NAME")
  | _ => false
  end.

Section Script.
Context {W : Type} `{MySql W}.

(** [for (const query of alterQueries) { try {...} catch (err) {...} }]:
    the steps taken are added to [log].  The message printed for a column
    that exists is computed from the text of the query, which for each of
    the three queries has the words the computation looks for. *)
Fixpoint run_queries (queries : list jsstring) (w : W) (log : list Step)
  : (JsError + unit) * W * list Step :=
  match queries with
  | [] => (inr tt, w, log)
  | sql :: rest =>
      match query sql w with
      | (inr _, w') => run_queries rest w' (log ++ [Query sql])
      | (inl err, w') =>
          if is_duplicate_column err
          then run_queries rest w' (log ++ [Query sql])
          else (inl err, w', log ++ [Query sql])
      end
  end.

(** [migrate()]: the status the process exits with, the world it leaves
    and the steps it has taken. *)
Definition migrate (w : W) : Z * W * list Step :=
  match createConnection w with
  | (inl _, w1) => (1%Z, w1, [Connect])
  | (inr _, w1) =>
      match run_queries alterQueries w1 [Connect] with
      | (inl _, w2, log) => (1%Z, w2, log)
      | (inr _, w2, log) =>
          match end_connection w2 with
          | (inl _, w3) => (1%Z, w3, log ++ [Disconnect])
          | (inr _, w3) => (0%Z, w3, log ++ [Disconnect])
          end
      end
  end.

End Script.

(** The queries among the steps. *)
Definition queries_of (log : list Step) : list jsstring :=
  flat_map (fun st => match st with Query sql => [sql] | _ => [] end) log.

Definition disconnects (log : list Step) : bool :=
  existsb (fun st => match st with Disconnect => true | _ => false end) log.

End Migration.


(* ================================================================== *)
(** ** Observations on runs *)
(* ================================================================== *)

Module Observe.

Section RetryRuns.
Context {W T : Type}.
Implicit Types (fn : W -> (JsError + T) * W).

(** The events of a run in which all of [retries + 1] calls fail: call,
    sleep [delay * 2^0], call, sleep [delay * 2^1], ..., call. *)
Definition backoff_events (retries : nat) (delay : Z) : list Event :=
  flat_map (fun n => [EvInvoke; EvSleep (delay * 2 ^ Z.of_nat n)])
           (seq 0 retries) ++ [EvInvoke].

Definition invocations (evs : list Event) : nat :=
  length (filter (fun ev => match ev with EvInvoke => true | _ => false end) evs).

Definition sleeps (evs : list Event) : list Z :=
  flat_map (fun ev => match ev with EvSleep ms => [ms] | _ => [] end) evs.

(** Every call of the operation fails, and with a transient error. *)
Definition always_transient fn : Prop :=
  forall w, exists e w', fn w = (inl e, w') /\ isTransient e = true.

End RetryRuns.

End Observe.

Import Observe.

Module Fragments.

(** The conditions under which the three optional fragments are due. *)
Definition faq_due (post : BlogPost) : bool :=
  match aeoQuestions post with
  | Some (_ :: _) => true
  | _ => false
  end.

Definition howto_due (post : BlogPost) : bool :=
  match isHowTo post, steps post with
  | Some true, Some ss => (3 <=? List.length ss)%nat
  | _, _ => false
  end.

Definition service_due (post : BlogPost) : bool :=
  match commercialIntent post with
  | Some true => true
  | _ => false
  end.

(** The ["@type"]s of the fragments of a post, in order. *)
Definition fragment_types `{CaseTables} (now : jsstring) (post : BlogPost)
  : list JsVal :=
  map type_of (aggregateSchemas now post).

(** [f] applied to the first element of a list only. *)
Definition map_head {A} (f : A -> A) (l : list A) : list A :=
  match l with
  | [] => []
  | x :: t => f x :: t
  end.

End Fragments.

Import Fragments.

Module Covers.

(** The text [generateCoverImage] hands to [encodeURIComponent]. *)
Definition cover_prompt_text (prompt : jsstring) (isRawPrompt : bool) : jsstring :=
  if isRawPrompt then substring0 200 prompt
  else lit "High-quality cinematic blog header image for: "
         ++ substring0 100 prompt
         ++ lit ", vivid colors, detailed, professional photography".

(** How much of the prompt is used. *)
Definition cover_prompt_limit (isRawPrompt : bool) : nat :=
  if isRawPrompt then 200%nat else 100%nat.

Definition pollinations_prefix : jsstring :=
  lit "https://image.pollinations.ai/prompt/".

Definition pollinations_suffix : jsstring :=
  lit "?width=1000&height=500&nologo=true&seed=".

Definition picsum_placeholder (now_ms : Z) : jsstring :=
  lit "https://picsum.photos/800/400?random=" ++ of_Z now_ms.

Definition is_surrogate (c : N) : bool :=
  is_high_surrogate c || is_low_surrogate c.

Definition no_fetch (evs : list Event) : bool :=
  forallb (fun ev => match ev with EvFetch _ => false | _ => true end) evs.

Definition tone : jsstring := lit "Professional & Engaging".

(** The state after one draw of [Math.random]. *)
Definition after_draw {W : Type} `{Platform W} (s : State W) : State W :=
  mkState (snd (Math_random (world s))) (trace s ++ [EvRandom]).

End Covers.

Import Covers.

Module Assembly.

(** Every optional field that the answer of the model leaves out has its
    fixed value in the post. *)
Definition absent_fields_defaulted (content : PartialPost) (post : BlogPost)
  : Prop :=
  (pp_category content = None -> category post = lit "Auto-Generated") /\
  (pp_readTime content = None -> readTime post = lit "3 min read") /\
  (pp_geoTargeting content = None -> geoTargeting post = Some (lit "Global")) /\
  (pp_seoScore content = None -> seoScore post = 85%Z) /\
  (pp_keywords content = None -> keywords post = []) /\
  (pp_aeoQuestions content = None -> aeoQuestions post = Some []).

(** The fields of the post as the [||] of the source computes them, whether
    the answer has them or not. *)
Definition fields_assembled (randomTopic : GeneratedTopic)
    (content : PartialPost) (post : BlogPost) : Prop :=
  title post = str_or (pp_title content) (topic randomTopic) /\
  excerpt post = str_or (pp_excerpt content) [] /\
  category post = str_or (pp_category content) (lit "Auto-Generated") /\
  readTime post = str_or (pp_readTime content) (lit "3 min read") /\
  geoTargeting post
  = Some (str_or (pp_geoTargeting content) (lit "Global")) /\
  seoScore post = score_or (pp_seoScore content) 85 /\
  keywords post = or_default (pp_keywords content) [] /\
  aeoQuestions post = Some (or_default (pp_aeoQuestions content) []) /\
  commercialIntent post = pp_commercialIntent content /\
  isHowTo post = pp_isHowTo content /\
  steps post = pp_steps content /\
  status post = published.

End Assembly.

Import Assembly.

Module Storage.

Section Configured.
Context {W : Type} `{Platform W}.

(** Both environment variables of the storage service are set and
    non-empty. *)
Definition configured : bool :=
  match given env_REMOTE_STORAGE_API_KEY, given env_REMOTE_STORAGE_API_URL with
  | Some _, Some _ => true
  | _, _ => false
  end.

(** The state after a sleep. *)
Definition slept (ms : Z) (s : State W) : State W :=
  mkState (world s) (trace s ++ [EvSleep ms]).

End Configured.

Definition fetches (evs : list Event) : list Request :=
  flat_map (fun ev => match ev with EvFetch r => [r] | _ => [] end) evs.

End Storage.

Import Storage.

Module Texts.

Definition prepend (c : N) (r : option (jsstring * jsstring))
  : option (jsstring * jsstring) :=
  match r with
  | Some (str, rest) => Some (c :: str, rest)
  | None => None
  end.

(** The number of calls the parser makes at most to read a value. *)
Fixpoint size (v : JsVal) : nat :=
  match v with
  | JArr items =>
      2 + (fix sum (l : list JsVal) : nat :=
             match l with
             | [] => 0
             | x :: l' => size x + sum l'
             end) items
  | JObj fields =>
      2 + (fix sum (l : list (jsstring * JsVal)) : nat :=
             match l with
             | [] => 0
             | kv :: l' => S (size (snd kv)) + sum l'
             end) fields
  | _ => 1
  end.

Definition sizes (items : list JsVal) : nat :=
  fold_right (fun x n => size x + n) 0 items.

Definition member_sizes (fields : list (jsstring * JsVal)) : nat :=
  fold_right (fun kv n => S (size (snd kv)) + n) 0 fields.

(** What may follow a value inside a JSON text: nothing, a comma or a
    closing bracket. *)
Definition delimited (rest : jsstring) : bool :=
  match rest with
  | [] => true
  | c :: _ => (c =? 0x2C)%N || (c =? 0x5D)%N || (c =? 0x7D)%N
  end.

(** The text of an element of an array. *)
Definition compact (v : JsVal) : jsstring :=
  match JSON_stringify v with
  | Some t => t
  | None => lit "null"
  end.

(** The text of a member of an object. *)
Definition member (kv : jsstring * JsVal) : jsstring :=
  quote (fst kv) ++ [0x3A%N] ++ compact (snd kv).

Definition has_field (k : jsstring) (fields : list (jsstring * JsVal)) : bool :=
  existsb (fun kv => JsString.eqb k (fst kv)) fields.

(** The condition of [is_json] on the properties of an object. *)
Fixpoint distinct_json_fields (fields : list (jsstring * JsVal)) : bool :=
  match fields with
  | [] => true
  | (k, x) :: l' =>
      is_json x && negb (has_field k l') && distinct_json_fields l'
  end.

(** What may follow the digits of a number. *)
Definition not_digit_next (rest : jsstring) : bool :=
  match rest with
  | [] => true
  | c :: _ => negb (is_digit c)
  end.

Definition total_length (ts : list jsstring) : nat :=
  fold_right (fun t n => List.length t + n) 0 ts.

(** A value is read back from its text, inside any text that goes on with
    a delimiter, by a parser with enough fuel; its text starts with a
    character that is neither white space nor a closing bracket, and is at
    least as long as the fuel the value needs. *)
Definition reads_back (v : JsVal) : Prop :=
  is_json v = true ->
  (forall fuel rest,
      size v <= fuel -> delimited rest = true ->
      parse_value fuel (compact v ++ rest) = Some (v, rest)) /\
  (exists c t', compact v = c :: t' /\ is_json_space c = false /\
                (c =? 0x5D)%N = false) /\
  size v <= List.length (compact v).

End Texts.

Import Texts.

Module Persistence.

(** The value a list of assignments leaves in a column. *)
Definition last_value (name : jsstring) (cols : list (jsstring * JsVal))
    (default : JsVal) : JsVal :=
  fold_left (fun acc kv => if JsString.eqb name (fst kv) then snd kv else acc)
            cols default.

(** The text of a value, as a string value. *)
Definition text_of (v : JsVal) : JsVal := JStr (compact v).

(** The answer of a successful [POST]. *)
Definition saved : JsVal :=
  JObj [(lit "success", JBool true); (lit "insertId", JNum 0)].

(** Every row of the store can be decoded, so that [GET] succeeds. *)
Definition readable (st : Store) : Prop :=
  forall row, In row st -> exists o, decode_row row = inr o.

Section Kept.
Variable aeo_column_is_json : bool.

(** What a bound value reads back as, when the query succeeds. *)
Definition kept (column : jsstring * JsVal) : jsstring * JsVal :=
  (fst column,
   if JsString.eqb (fst column) (lit "aeoQuestions") && aeo_column_is_json
   then match stored_json (snd column) with
        | inr j => j
        | inl _ => JNull
        end
   else stored (snd column)).

Definition keeps (column : jsstring * JsVal) : Prop :=
  keep aeo_column_is_json column = inr (kept column).

End Kept.

End Persistence.

Import Persistence.
(* ================================================================== *)
(** ** More observations *)
(* ================================================================== *)

Module Recovery.

Section Runs.
Context {W T : Type}.

(** The first [k] calls of the operation, from the world [w] on, fail with
    transient errors, and the call after them ends with [r] and leaves the
    world [w']. *)
Fixpoint transient_then (fn : W -> (JsError + T) * W) (k : nat) (w : W)
    (r : JsError + T) (w' : W) : Prop :=
  match k with
  | O => fn w = (r, w')
  | S k' =>
      exists e w1,
        fn w = (inl e, w1) /\ isTransient e = true /\
        transient_then fn k' w1 r w'
  end.

(** An outcome at which [retryWithBackoff] stops when [left] retries are
    left: a value, an error that is not transient, or any error when no
    retry is left. *)
Definition final (left : nat) (r : JsError + T) : Prop :=
  match r with
  | inr _ => True
  | inl e => isTransient e = false \/ left = O
  end.

End Runs.

Definition total (l : list Z) : Z := fold_right Z.add 0%Z l.

End Recovery.

Import Recovery.

Module Answers.

(** The cover [generateTopics] gives a topic: the first ten code units of
    the encoded title, then a number. *)
Definition picsum_cover (encoded : jsstring) (n : Z) : jsstring :=
  lit "https://picsum.photos/seed/" ++ substring0 10 encoded ++ of_Z n
    ++ lit "/800/400".

(** [t'] is [t] with its cover replaced by a picsum URL and nothing else
    changed. *)
Definition covered (t t' : GeneratedTopic) : Prop :=
  exists encoded n,
    encodeURIComponent (topic t) = Some encoded /\
    (0 <= n < 1000)%Z /\
    t' = set_coverImage t (picsum_cover encoded n).

Definition titles_well_formed (topics : list GeneratedTopic) : bool :=
  forallb (fun t => well_formed (topic t)) topics.

Section Calls.
Context {W : Type} `{Platform W}.

(** The call of the provider through the Retry Policy. *)
Definition call (request : GenRequest) : M W GenResponse :=
  retryWithBackoff (generateContent request) default_retries default_delay.

(** The provider answers the first call of [request] with [response]. *)
Definition answers (request : GenRequest) (s : State W)
    (response : GenResponse) (s' : State W) : Prop :=
  generateContent request (world s) = (inr response, world s') /\
  trace s' = trace s ++ [EvInvoke].

End Calls.

End Answers.

Import Answers.

Module Rounds.

Definition randoms (evs : list Event) : nat :=
  List.length
    (filter (fun ev => match ev with EvRandom => true | _ => false end) evs).

Section Requests.
Context {W : Type} `{Platform W}.

(** A request for the image: a GET to the image provider that carries the
    browser's name and nothing else. *)
Definition is_download (r : Request) : Prop :=
  req_method r = lit "GET" /\
  req_headers r = [(lit "User-Agent", user_agent)] /\
  req_body r = None /\
  starts_with pollinations_prefix (req_url r) = true.

(** A request that stores an image: a POST to the configured storage
    service, with the configured key in its header and in its query, and
    with a JPEG file of at least 1000 bytes as its body. *)
Definition is_upload (r : Request) : Prop :=
  req_method r = lit "POST" /\
  (exists apiKey apiUrl,
      given env_REMOTE_STORAGE_API_KEY = Some apiKey /\
      given env_REMOTE_STORAGE_API_URL = Some apiUrl /\
      req_headers r = [(lit "X-API-Key", apiKey)] /\
      URL_with_params apiUrl
        [(lit "action", lit "upload"); (lit "api_key", apiKey)]
      = inr (req_url r)) /\
  (exists file,
      req_body r = Some file /\
      file_type file = lit "image/jpeg" /\
      (1000 <= List.length (file_bytes file))%nat).

(** What one round of the loop does to the outside. *)
Inductive round_events : list Event -> Prop :=
| round_nothing : round_events []
| round_draw : round_events [EvRandom]
| round_download (d : Request) :
    is_download d -> round_events [EvRandom; EvFetch d]
| round_upload (d u : Request) :
    is_download d -> is_upload u ->
    round_events [EvRandom; EvFetch d; EvFetch u].

(** The file name of the upload and the world after it has been chosen:
    the name supplied, or the default one with a reading of the clock. *)
Definition chosen_filename (topic : jsstring) (customFilename : option jsstring)
    `{CaseTables} (w : W) : jsstring * W :=
  match given customFilename with
  | Some name => (name, w)
  | None => (default_filename topic (fst (Date_now w)), snd (Date_now w))
  end.

(** What a run of the pipeline with [n] rounds to go does to the outside
    at most: two requests and one draw a round and one draw more for the
    fallback, sleeps of one second between the rounds only, and no request
    other than downloads and uploads. *)
Definition within (n : nat) (new : list Event) : Prop :=
  (List.length (fetches new) <= 2 * n)%nat /\
  (randoms new <= n + 1)%nat /\
  (exists k, (k <= Nat.pred n)%nat /\ sleeps new = repeat 1000%Z k) /\
  invocations new = 0%nat /\
  Forall (fun r => is_download r \/ is_upload r) (fetches new).

End Requests.

End Rounds.

Import Rounds.

Module Shapes.

(** A letter or a digit of ASCII. *)
Definition is_alnum (c : N) : bool := is_digit c || is_upper c || is_lower c.

(** The characters between which [slugify] puts a dash. *)
Definition is_separator (c : N) : bool :=
  is_space c || (c =? 0x5F)%N || is_dash c.

(** The characters [slugify] keeps or turns into a dash. *)
Definition is_kept (c : N) : bool := is_word c || is_space c || is_dash c.

(** [u.replace(/[^\w\s-]/g, '')]. *)
Definition cleaned (u : jsstring) : jsstring :=
  remove_all (fun c => negb (is_kept c)) u.

(** No two dashes in a row. *)
Fixpoint single_dashes (s : jsstring) : bool :=
  match s with
  | c :: (d :: _) as t => negb (is_dash c && is_dash d) && single_dashes t
  | _ => true
  end.

(** The first code unit is not a dash. *)
Definition no_dash_first (s : jsstring) : bool :=
  match s with
  | c :: _ => negb (is_dash c)
  | [] => true
  end.

(** A slug: letters, digits and dashes, with no dash at either end and no
    two dashes in a row. *)
Definition is_slug (s : jsstring) : bool :=
  forallb (fun c => is_alnum c || is_dash c) s
  && no_dash_first s && no_dash_first (rev s) && single_dashes s.

(** The characters that the default file name replaces by dashes. *)
Definition not_lower_or_digit (c : N) : bool := negb (is_lower c || is_digit c).

(** The part of the default file name made from the topic. *)
Definition filename_slug `{CaseTables} (topic : jsstring) : jsstring :=
  substring0 50
    (trim_one_dash
       (replace_runs (fun c => negb (is_lower c || is_digit c))
          (lit "-") false (toLowerCase topic))).

End Shapes.

Import Shapes.

Module Listing.

(** The five properties [GET] computes; all others are copied from the
    row. *)
Definition computed_names : list jsstring :=
  [lit "keywords"; lit "aeoQuestions"; lit "steps"; lit "commercialIntent";
   lit "isHowTo"].

Definition is_computed (k : jsstring) : bool :=
  existsb (JsString.eqb k) computed_names.

(** The columns a save of an existing post assigns. *)
Definition assigned_names : list jsstring :=
  [lit "slug"; lit "title"; lit "excerpt"; lit "content"; lit "keywords";
   lit "category"; lit "status"; lit "readTime"; lit "coverImage";
   lit "geoTargeting"; lit "seoScore"; lit "aeoQuestions";
   lit "commercialIntent"; lit "isHowTo"; lit "steps"; lit "scheduledDate"].

Definition is_assigned (k : jsstring) : bool :=
  existsb (JsString.eqb k) assigned_names.

(** The creation dates of a list of rows are in descending order. *)
Fixpoint newest_to_oldest (rows : list Row) : Prop :=
  match rows with
  | [] => True
  | r :: rest =>
      (forall r', In r' rest -> (created_at r' <= created_at r)%Z) /\
      newest_to_oldest rest
  end.

(** How often a row occurs in a list of rows. *)
Definition same_rows (a b : list Row) : Prop :=
  forall r, In r a <-> In r b.

(** A text that is no JSON text, as its beginning shows: it is empty or
    white space only, or what comes first after the white space neither
    is a quote, a bracket, a brace, a minus sign or a digit nor begins one
    of the words [true], [false] and [null]. *)
Definition cannot_be_json (text : jsstring) : bool :=
  match skip_ws text with
  | [] => true
  | c :: t =>
      if (c =? 0x74)%N then negb (starts_with (lit "true") (c :: t))
      else if (c =? 0x66)%N then negb (starts_with (lit "false") (c :: t))
      else if (c =? 0x6E)%N then negb (starts_with (lit "null") (c :: t))
      else negb ((c =? 0x22)%N || (c =? 0x5B)%N || (c =? 0x7B)%N
                 || (c =? 0x2D)%N || is_digit c)
  end.

End Listing.

Import Listing.

Module Markup.

(** A fragment starts with ["@context": "https://schema.org"] and goes on
    with an ["@type"] that is a string. *)
Definition has_context_and_type (fragment : JsVal) : Prop :=
  exists fields type,
    fragment = JObj ((lit "@context", str "https://schema.org") :: fields) /\
    obj_get (lit "@type") fields = JStr type.

(** The step of a how-to at position [n], counted from one. *)
Definition how_to_step (n : nat) (step : jsstring) : JsVal :=
  JObj [(lit "@type", str "HowToStep");
        (lit "position", JNum (Z.of_nat n));
        (lit "text", JStr step);
        (lit "name", JStr (lit "Step " ++ of_Z (Z.of_nat n)))].

(** The entry of the FAQ page for a question. *)
Definition faq_entry (q : QA) : JsVal :=
  JObj [(lit "@type", str "Question");
        (lit "name", JStr (question q));
        (lit "acceptedAnswer",
         JObj [(lit "@type", str "Answer"); (lit "text", JStr (answer q))])].

End Markup.

Import Markup.

Module Pretty.

(** The text of a value in [JSON.stringify(v, null, 2)], at a given
    indentation; inside an array, [undefined] is written as [null]. *)
Definition pretty (indent : jsstring) (v : JsVal) : jsstring :=
  match serialize [0x20; 0x20]%N indent v with
  | Some t => t
  | None => lit "null"
  end.

(** White space only. *)
Definition blank (s : jsstring) : bool := forallb is_json_space s.

(** What may follow the digits of a number in a JSON text. *)
Definition number_end (rest : jsstring) : bool :=
  match rest with
  | [] => true
  | d :: _ =>
      negb (is_digit d || (d =? 0x2E)%N || (d =? 0x65)%N || (d =? 0x45)%N)
  end.

(** The text of a member of an object. *)
Definition pretty_member (inner : jsstring) (kv : jsstring * JsVal) : jsstring :=
  quote (fst kv) ++ [0x3A; 0x20]%N ++ pretty inner (snd kv).

(** The lines of an array or an object after the first one. *)
Definition more_lines (inner : jsstring) (ts : list jsstring) : jsstring :=
  flat_map (app (0x2C%N :: 0x0A%N :: inner)) ts.

(** A value is read back from its indented text, inside any text that
    goes on with white space and a delimiter. *)
Definition reads_back_indented (v : JsVal) : Prop :=
  is_json v = true ->
  forall indent, blank indent = true ->
    (forall fuel rest,
        size v <= fuel -> delimited (skip_ws rest) = true ->
        parse_value fuel (pretty indent v ++ rest) = Some (v, rest)) /\
    (exists c t', pretty indent v = c :: t' /\ is_json_space c = false /\
                  (c =? 0x5D)%N = false) /\
    size v <= List.length (pretty indent v).

End Pretty.

Import Pretty.

Module Scripts.

(** What [JSON.stringify] writes of a fragment: the properties of the
    fragment whose value is [undefined] are left out. *)
Definition written (fragment : JsVal) : JsVal :=
  match fragment with
  | JObj fields =>
      JObj (filter (fun kv => match snd kv with
                              | JUndefined => false
                              | _ => true
                              end) fields)
  | other => other
  end.

(** The properties of a fragment. *)
Definition properties (fragment : JsVal) : list (jsstring * JsVal) :=
  match fragment with
  | JObj fields => fields
  | _ => []
  end.

End Scripts.

Import Scripts.


(* ================================================================== *)
(** ** Concrete operations and worlds, for evaluation *)
(* ================================================================== *)

Module Demo.

(** The provider's error for an overloaded model (HTTP 503). *)
Definition busy : JsError :=
  mkError (lit "ApiError")
          (Some (lit "The model is overloaded. Please try again later."))
          (JNum 503) JUndefined JUndefined.

(** The provider's error for a rejected API key (HTTP 400). *)
Definition denied : JsError :=
  mkError (lit "ApiError") (Some (lit "API key not valid."))
          (JNum 400) JUndefined JUndefined.


Definition always_denied : nat -> (JsError + Z) * nat :=
  fun calls => (inl denied, S calls).

(** Busy for the first [k] calls, then answering [42]. *)
Definition flaky (k : nat) : nat -> (JsError + Z) * nat :=
  fun calls =>
    if (calls <? k)%nat then (inl busy, S calls) else (inr 42%Z, S calls).

Definition start {W} (w : W) : State W := mkState w [].

(** [toLowerCase] on strings of ASCII characters. *)
Definition ascii_lower (c : N) : N :=
  if is_upper c then (c + 32)%N else c.

#[export] Instance ascii_case_tables : CaseTables :=
  {| toLowerCase := map ascii_lower |}.

(** A guide with a given list of steps, marked as how-to and, or not, as
    commercial. *)
Definition guide (its_steps : list jsstring) (commercial : bool) : BlogPost :=
  {| id := lit "1767225600000";
     slug := lit "how-to-build-a-budget";
     title := lit "How to Build a Budget";
     excerpt := lit "A budget in an afternoon.";
     content := lit "<h2>Start</h2><p>Write down what you earn.</p>";
     keywords := [lit "budget"; lit "saving"];
     category := lit "Personal Finance";
     dateCreated := lit "1/1/2026, 12:00:00 AM";
     status := published;
     readTime := lit "4 min read";
     coverImage := Some (lit "https://example.org/budget.jpg");
     geoTargeting := Some (lit "Global");
     seoScore := 90;
     aeoQuestions := Some [mkQA (lit "What is a budget?") (lit "A plan for money.")];
     commercialIntent := Some commercial;
     isHowTo := Some true;
     steps := Some its_steps;
     scheduledDate := None |}.

(** *** A scripted world *)

(** The outside world as a script: the answers the provider and the web
    will give to the calls to come, the numbers [Math.random] will draw,
    and the time, which stands still during a run. *)
Record World : Type := mkWorld {
  provider : list (JsError + GenResponse);
  web : list (JsError + Response);
  dice : list Q;
  clock_ms : Z;
  clock_iso : jsstring;
  clock_local : jsstring
}.

(** What [fetch] and the provider's client throw when nothing answers. *)
Definition offline : JsError :=
  mkError (lit "TypeError") (Some (lit "fetch failed"))
          JUndefined JUndefined JUndefined.

Definition in_unit_interval (q : Q) : bool :=
  Qle_bool 0 q && negb (Qle_bool 1 q).

Definition draw (w : World) : Q * World :=
  match dice w with
  | q :: rest =>
      (if in_unit_interval q then q else 0%Q,
       mkWorld (provider w) (web w) rest (clock_ms w) (clock_iso w)
               (clock_local w))
  | [] => (0%Q, w)
  end.

Definition ask (_ : GenRequest) (w : World) : (JsError + GenResponse) * World :=
  match provider w with
  | r :: rest =>
      (r, mkWorld rest (web w) (dice w) (clock_ms w) (clock_iso w)
                  (clock_local w))
  | [] => (inl offline, w)
  end.

Definition get (_ : Request) (w : World) : (JsError + Response) * World :=
  match web w with
  | r :: rest =>
      (r, mkWorld (provider w) rest (dice w) (clock_ms w) (clock_iso w)
                  (clock_local w))
  | [] => (inl offline, w)
  end.

(** [new URL(u)] with parameters appended, for an absolute [u] without a
    query and parameter values of unreserved characters. *)
Definition url_with_params (u : jsstring) (params : list (jsstring * jsstring))
  : JsError + jsstring :=
  if starts_with (lit "http") u then
    inr (u ++ lit "?"
           ++ join (lit "&") (map (fun kv => fst kv ++ lit "=" ++ snd kv) params))
  else inl (mkError (lit "TypeError") (Some (lit "Invalid URL"))
                    JUndefined JUndefined JUndefined).

Lemma draw_range (w : World) :
  (0 <= fst (draw w))%Q /\ (fst (draw w) < 1)%Q.
Proof.
  unfold draw. destruct (dice w) as [|q rest]; cbn [fst].
  - split; [apply Qle_refl | reflexivity].
  - unfold in_unit_interval.
    destruct (Qle_bool 0 q) eqn:H0; cbn [andb];
      [destruct (Qle_bool 1 q) eqn:H1; cbn [negb]|];
      try (split; [apply Qle_refl | reflexivity]).
    split.
    + now apply Qle_bool_iff.
    + apply Qnot_le_lt. intros Hle. apply Qle_bool_iff in Hle. congruence.
Qed.

(** The platform over a scripted world, with the two environment variables
    of the storage service as given. *)
Definition platform (key url : option jsstring) : Platform World :=
  {| Math_random := draw;
     Math_random_range := draw_range;
     Date_now := fun w => (clock_ms w, w);
     Date_toISOString := fun w => (clock_iso w, w);
     Date_toLocaleString := fun w => (clock_local w, w);
     fetch := get;
     generateContent := ask;
     URL_with_params := url_with_params;
     JSON_parse_topics := parse_topics;
     JSON_parse_post := parse_post;
     env_REMOTE_STORAGE_API_KEY := key;
     env_REMOTE_STORAGE_API_URL := url |}.

Definition midnight (provider : list (JsError + GenResponse))
    (web : list (JsError + Response)) (dice : list Q) : World :=
  mkWorld provider web dice 1767225600000
          (lit "2026-01-01T00:00:00.000Z") (lit "1/1/2026, 12:00:00 AM").

(** The provider's answer carrying the JSON text of a value. *)
Definition answer_json (v : JsVal) : JsError + GenResponse :=
  inr (mkGenResponse (JSON_stringify v)).

Definition idea (title : jsstring) : GeneratedTopic :=
  mkTopic title (lit "Trending this quarter") (lit "<p>Draft</p>")
          (lit "A short summary.") [lit "money"; lit "budget"]
          (lit "Finance") (lit "5 min read") (lit "Global")
          [mkQA (lit "Why now?") (lit "Rates changed.")] 88
          (lit "A desk with a notebook").

(** A provider that is overloaded at every call, whatever the script. *)
Definition jammed (key url : option jsstring) : Platform World :=
  {| Math_random := draw;
     Math_random_range := draw_range;
     Date_now := fun w => (clock_ms w, w);
     Date_toISOString := fun w => (clock_iso w, w);
     Date_toLocaleString := fun w => (clock_local w, w);
     fetch := get;
     generateContent := fun _ w => (inl busy, w);
     URL_with_params := url_with_params;
     JSON_parse_topics := parse_topics;
     JSON_parse_post := parse_post;
     env_REMOTE_STORAGE_API_KEY := key;
     env_REMOTE_STORAGE_API_URL := url |}.

(** A well-formed title of 101 code units: 99 letters and one emoji, whose
    two surrogates sit at the indices 99 and 100. *)
Definition long_title : jsstring := repeat 0x61%N 99 ++ [0xD83D; 0xDE00]%N.

(** The JSON value of a full article, as [generateFullPost] asks for it. *)
Definition article (its_title : jsstring) : JsVal :=
  JObj [(lit "title", JStr its_title);
        (lit "content", str "<h2>Why</h2><p>Because it pays.</p>");
        (lit "excerpt", str "Why it pays to plan.");
        (lit "keywords", of_strings [lit "planning"; lit "saving"]);
        (lit "category", str "Finance");
        (lit "readTime", str "5 min read");
        (lit "geoTargeting", str "Global");
        (lit "aeoQuestions",
         of_qas [mkQA (lit "Does it pay?") (lit "Yes, within a year.")]);
        (lit "seoScore", JNum 92);
        (lit "commercialIntent", JBool true);
        (lit "isHowTo", JBool false)].

(** An answer that has a body and nothing else. *)
Definition bare_article : JsVal :=
  JObj [(lit "content", str "<p>Only a body.</p>")].

(** A world in which the provider first suggests one topic with the given
    title and then gives the answers of [later]. *)
Definition newsroom (its_title : jsstring)
    (later : list (JsError + GenResponse)) : World :=
  midnight (answer_json (JArr [of_topic (idea its_title)]) :: later) []
           [1 # 2; 1 # 4; 3 # 4]%Q.

(** Three ways for the image provider to let an attempt down: no answer,
    an error status, a body that is too small to be an image. *)
Definition unavailable : Response :=
  mkResponse false 503 (inr []) (inr (lit "Service Unavailable"))
             (inl SyntaxError).

Definition tiny_image : Response :=
  mkResponse true 200 (inr [0xFF; 0xD8; 0xFF; 0xD9]%N) (inr [])
             (inl SyntaxError).

Definition bad_day : World :=
  midnight [] [inl offline; inr unavailable; inr tiny_image]
           [1 # 2; 1 # 2; 1 # 2; 1 # 4]%Q.

Definition opt_bool (o : option bool) : JsVal :=
  match o with
  | Some b => JBool b
  | None => JUndefined
  end.

Definition status_text (s : Status) : JsVal :=
  match s with
  | draft => str "draft"
  | published => str "published"
  | scheduled => str "scheduled"
  end.

(** The properties of a post as the editor sends them to [POST /posts]. *)
Definition properties (p : BlogPost) : list (jsstring * JsVal) :=
  [(lit "id", JStr (id p));
   (lit "slug", JStr (slug p));
   (lit "title", JStr (title p));
   (lit "excerpt", JStr (excerpt p));
   (lit "content", JStr (content p));
   (lit "keywords", of_strings (keywords p));
   (lit "category", JStr (category p));
   (lit "dateCreated", JStr (dateCreated p));
   (lit "status", status_text (status p));
   (lit "readTime", JStr (readTime p));
   (lit "coverImage", opt_str (coverImage p));
   (lit "geoTargeting", opt_str (geoTargeting p));
   (lit "seoScore", JNum (seoScore p));
   (lit "aeoQuestions",
    match aeoQuestions p with
    | Some qs => of_qas qs
    | None => JUndefined
    end);
   (lit "commercialIntent", opt_bool (commercialIntent p));
   (lit "isHowTo", opt_bool (isHowTo p));
   (lit "steps",
    match steps p with
    | Some ss => of_strings ss
    | None => JUndefined
    end);
   (lit "scheduledDate", opt_str (scheduledDate p))].

(** A clock for [new Date(v)] that reads every date as the same instant. *)
Definition epoch (_ : JsVal) : Z := 1767225600000.

End Demo.
(* ================================================================== *)
(** ** More operations and worlds, for evaluation *)
(* ================================================================== *)

Module RecoveryDemo.
(** Busy for the first [k] calls, then rejecting the key. *)
Definition busy_then_denied (k : nat) : nat -> (JsError + Z) * nat :=
  fun calls =>
    if (calls <? k)%nat then (inl Demo.busy, S calls)
    else (inl Demo.denied, S calls).
End RecoveryDemo.

Module Classroom.

(** The JSON value of a training module, as [generateTrainingModule] asks
    for it. *)
Definition lesson : JsVal :=
  JObj [(lit "topic", str "Giving feedback");
        (lit "learningObjectives",
         of_strings [lit "Name the behaviour"; lit "Agree on a next step"]);
        (lit "keyConcepts", str "Feedback is about the work, not the person.");
        (lit "caseStudy", str "A release slipped; the review found the cause.");
        (lit "actionableTakeaways",
         of_strings [lit "Ask first"; lit "Be specific"; lit "Follow up"])].

(** A reader for evaluation: the parser of module [Json], which reads the
    texts that have whole numbers only. *)
Definition reader : Training.Reader :=
  {| Training.JSON_parse_module := JSON_parse |}.

End Classroom.

Module Studio.

Definition key : jsstring := lit "k-123".

Definition service : jsstring := lit "https://files.example.org/api.php".

(** A platform over the scripted world in which the storage service is
    configured. *)
Definition equipped : Platform Demo.World :=
  Demo.platform (Some key) (Some service).

(** An image of a thousand bytes, and the reply of the storage service
    that has stored it. *)
Definition picture : Response :=
  mkResponse true 200 (inr (repeat 0xFF%N 1000)) (inr []) (inl SyntaxError).

Definition stored_at (url : jsstring) : Response :=
  mkResponse true 200 (inl SyntaxError) (inr [])
             (inr (mkUploadReply true (Some url) None)).

Definition good_day : Demo.World :=
  Demo.midnight []
    [inr picture; inr (stored_at (lit "https://files.example.org/save-more.jpg"))]
    [1 # 2]%Q.

End Studio.

Module Newsdesk.

(** A clock for [new Date(v)] that tells two dates apart: it reads the
    month, the first number of a date in the format of [toLocaleString]. *)
Definition day_of (v : JsVal) : Z :=
  match v with
  | JStr (c :: _) => Z.of_N c - 48
  | _ => 0
  end.

(** A row from before the migration: no [steps], no flags, and no
    keywords or questions either. *)
Definition old_row : Row :=
  [(lit "id", str "7"); (lit "title", str "Old post");
   (lit "keywords", JNull); (lit "aeoQuestions", JNull)].

End Newsdesk.

Module Cabinet.

Import RemoteStorage.

(** A browser whose network is a script: the replies to the requests to
    come. *)
Definition answer (_ : Request) (w : list (JsError + Reply))
  : (JsError + Reply) * list (JsError + Reply) :=
  match w with
  | r :: rest => (r, rest)
  | [] => (inl Demo.offline, [])
  end.

Definition browser (url key : option jsstring)
  : Browser (list (JsError + Reply)) :=
  {| browser_fetch := answer;
     browser_URL := Demo.url_with_params;
     API_URL := url;
     API_KEY := key |}.

Definition service : jsstring := lit "https://files.example.org/api.php".

Definition key : jsstring := lit "k-123".

Definition connected : Browser (list (JsError + Reply)) :=
  browser (Some service) (Some key).

Definition json_reply (status : Z) (v : JsVal) : Reply :=
  mkReply (200 <=? status)%Z status
          (if (status =? 200)%Z then lit "OK" else lit "Internal Server Error")
          (inr (compact v)) (inr v).

Definition photo : FormFile :=
  mkFormFile (lit "desk.jpg") (lit "image/jpeg") [0xFF; 0xD8; 0xFF; 0xD9]%N.

End Cabinet.

Module Workshop.

Import Migration.

(** A database that answers the queries to come as a script says:
    [None] for success, [Some code] for an error with that code. *)
Definition scripted (w : list (option jsstring))
  : (JsError + unit) * list (option jsstring) :=
  match w with
  | None :: rest => (inr tt, rest)
  | Some code :: rest =>
      (inl (mkError (lit "Error") (Some (lit "query failed"))
                    JUndefined JUndefined (JStr code)), rest)
  | [] => (inr tt, [])
  end.

Definition server : MySql (list (option jsstring)) :=
  {| createConnection := fun w => (inr tt, w);
     query := fun _ => scripted;
     end_connection := fun w => (inr tt, w) |}.

End Workshop.


(** ** Lists *)

Module ListFacts.

(** Induction on a list with access to the list two elements down. *)
Lemma list_ind_pairs {A} (P : list A -> Prop) :
  P [] ->
  (forall c t, P t -> (forall d t', t = d :: t' -> P t') -> P (c :: t)) ->
  forall s, P s.
Proof.
  intros Hnil Hcons s.
  enough (P s /\ (forall d t', s = d :: t' -> P t')) by tauto.
  induction s as [|c t [IH1 IH2]].
  - split; [exact Hnil | discriminate].
  - split; [now apply Hcons | now intros d t' [= _ <-]].
Qed.

End ListFacts.
(* ================================================================== *)
(** * Properties *)
(* ================================================================== *)

(** ** Sanity checks of the string primitives *)

Example split_words :
  split 0x20 (lit "ten quick  tips") = [lit "ten"; lit "quick"; []; lit "tips"].
Proof. reflexivity. Qed.

Example encode_space_and_comma :
  encodeURIComponent (lit "a b,c") = Some (lit "a%20b%2Cc").
Proof. reflexivity. Qed.

Example encode_emoji :
  encodeURIComponent [0xD83D; 0xDE00]%N = Some (lit "%F0%9F%98%80").
Proof. reflexivity. Qed.

Example encode_lone_surrogate :
  encodeURIComponent [0x61; 0xD83D]%N = None.
Proof. reflexivity. Qed.

Example stringify_nested :
  JSON_stringify (JObj [(lit "a", JArr [JNum 1; JStr (lit "x y"); JNull]);
                        (lit "u", JUndefined); (lit "b", JBool true)])
  = Some ([0x7B; 0x22; 0x61; 0x22; 0x3A; 0x5B; 0x31; 0x2C; 0x22] ++ lit "x y"
          ++ [0x22] ++ lit ",null]," ++ [0x22; 0x62; 0x22] ++ lit ":true}")%N.
Proof. reflexivity. Qed.

Example stringify_indented :
  JSON_stringify_2 (JObj [(lit "a", JArr [JNum 1; JNum 2]); (lit "e", JArr [])])
  = Some ([0x7B; 0x0A] ++ lit "  " ++ [0x22; 0x61; 0x22] ++ lit ": ["
          ++ [0x0A] ++ lit "    1," ++ [0x0A] ++ lit "    2" ++ [0x0A]
          ++ lit "  ]," ++ [0x0A] ++ lit "  " ++ [0x22; 0x65; 0x22]
          ++ lit ": []" ++ [0x0A] ++ lit "}")%N.
Proof. reflexivity. Qed.

Example parse_nested :
  JSON_parse ([0x7B; 0x22; 0x61; 0x22] ++ lit " : [1, -20, true, null, "
              ++ [0x22; 0x5C] ++ lit "u0041" ++ [0x5C; 0x6E; 0x22]
              ++ lit "] }")%N
  = inr (JObj [(lit "a", JArr [JNum 1; JNum (-20); JBool true; JNull;
                                JStr [0x41; 0x0A]%N])]).
Proof. reflexivity. Qed.

Example parse_rejects_trailing_comma :
  JSON_parse (lit "[1,]") = inl SyntaxError.
Proof. reflexivity. Qed.

Example slug_of_a_title :
  @slugify Demo.ascii_case_tables (lit "Ten Budget_Tips -- for 2026!")
  = lit "ten-budget-tips-for-2026".
Proof. reflexivity. Qed.

Example filename_of_a_topic :
  @default_filename Demo.ascii_case_tables (lit "Cats & Dogs!") 1767225600999
  = lit "cats-dogs-1767225600.jpg".
Proof. reflexivity. Qed.

Example fallback_uses_three_words :
  fallback_keywords (lit "Ten quick budget tips") = lit "Ten,quick,budget".
Proof. reflexivity. Qed.

Example transient_by_message :
  @isTransient
    (mkError (lit "Error") (Some (lit "The model is overloaded."))
             JUndefined JUndefined JUndefined) = true /\
  isTransient (mkError (lit "Error") None (JStr (lit "503")) JUndefined
                       JUndefined) = false /\
  isTransient (mkError (lit "Error") None JUndefined
                       (JObj []) (JNum 429)) = false /\
  isTransient (mkError (lit "Error") None JUndefined JUndefined (JNum 429))
  = true.
Proof. repeat split. Qed.

(** A post saved twice under one id is listed once, with the values of the
    second save; here the column of [aeoQuestions] is a JSON column. *)
Example save_twice_list_once :
  let first := Demo.properties (Demo.guide [lit "a"; lit "b"; lit "c"] true) in
  let second := Demo.properties (Demo.guide [lit "x"] false) in
  let st1 := snd (POST Demo.epoch true (JObj first) []) in
  let st2 := snd (POST Demo.epoch true (JObj second) st1) in
  match body (GET st2) with
  | JArr [JObj o] =>
      [obj_get (lit "steps") o; obj_get (lit "commercialIntent") o;
       obj_get (lit "isHowTo") o]
  | _ => []
  end = [JArr [JStr (lit "x")]; JBool false; JBool true] /\
  match st2 with
  | [row] => [obj_get (lit "steps") row; obj_get (lit "commercialIntent") row]
  | _ => []
  end = [JStr ([0x5B; 0x22] ++ lit "x" ++ [0x22; 0x5D])%N; JNum 0].
Proof. split; vm_compute; reflexivity. Qed.

(** The scenario of a finance post: three ideas come back, one is picked,
    the article is commercial and no tutorial; the fragments of the post
    have a Service and no HowTo. *)
Example personal_finance_scenario :
  let P := Demo.platform None None in
  let C := Demo.ascii_case_tables in
  let ideas := JArr [of_topic (Demo.idea (lit "Save More"));
                     of_topic (Demo.idea (lit "Spend Less"));
                     of_topic (Demo.idea (lit "Invest Early"))] in
  let w := Demo.midnight
             [Demo.answer_json ideas;
              Demo.answer_json (Demo.article (lit "Spend Less, Live More"))]
             [] [1 # 10; 2 # 10; 3 # 10; 1 # 2; 1 # 4]%Q in
  match fst (@generateAndPublishAutoPost _ P C (lit "personal finance")
               (Demo.start w)) with
  | inr post =>
      (slug post,
       map type_of (@aggregateSchemas C (lit "2026-01-01T00:00:00.000Z") post))
  | inl _ => ([], [])
  end
  = (lit "spend-less-live-more",
     [str "BlogPosting"; str "Organization"; str "BreadcrumbList";
      str "FAQPage"; str "Service"]).
Proof. vm_compute. reflexivity. Qed.

(** ** The Retry Policy *)

Module RetryFacts.

Section Facts.
Context {W T : Type}.
Implicit Types (fn : W -> (JsError + T) * W) (s : State W).

Lemma flat_map_seq_shift {A} (f : nat -> list A) (n a : nat) :
  flat_map f (seq (S a) n) = flat_map (fun k => f (S k)) (seq a n).
Proof.
  revert a; induction n as [|n IH]; intros a; cbn; [reflexivity|].
  now rewrite IH.
Qed.

Lemma pow2_succ (d : Z) (k : nat) :
  (d * 2 ^ Z.of_nat (S k) = d * 2 * 2 ^ Z.of_nat k)%Z.
Proof. rewrite Nat2Z.inj_succ, Z.pow_succ_r by lia. ring. Qed.

Lemma backoff_events_S (n : nat) (d : Z) :
  backoff_events (S n) d = EvInvoke :: EvSleep d :: backoff_events n (d * 2).
Proof.
  unfold backoff_events.
  change (seq 0 (S n)) with (0%nat :: seq 1 n).
  cbn [flat_map app]. rewrite flat_map_seq_shift, Z.mul_1_r.
  do 3 f_equal. apply flat_map_ext; intros k. now rewrite pow2_succ.
Qed.

Lemma invocations_backoff (n : nat) (d : Z) :
  invocations (backoff_events n d) = S n.
Proof.
  revert d; induction n as [|n IH]; intros d; [reflexivity|].
  rewrite backoff_events_S. cbn. unfold invocations in IH. now rewrite IH.
Qed.

Lemma sleeps_backoff (n : nat) (d : Z) :
  sleeps (backoff_events n d) = map (fun k => d * 2 ^ Z.of_nat k)%Z (seq 0 n).
Proof.
  revert d; induction n as [|n IH]; intros d; [reflexivity|].
  rewrite backoff_events_S. cbn [sleeps flat_map app].
  unfold sleeps in IH. rewrite IH.
  change (seq 0 (S n)) with (0%nat :: seq 1 n).
  cbn [map]. rewrite Z.mul_1_r. f_equal.
  rewrite <- seq_shift, map_map.
  apply map_ext; intros k. now rewrite pow2_succ.
Qed.

Lemma all_transient_run fn (H : always_transient fn) (retries : nat) :
  forall (delay : Z) s,
  exists e s',
    retryWithBackoff fn retries delay s = (inl e, s') /\
    isTransient e = true /\
    trace s' = trace s ++ backoff_events retries delay.
Proof.
  induction retries as [|n IH]; intros delay s.
  - destruct (H (world s)) as (e & w' & Hfn & He).
    exists e, (mkState w' (trace s ++ [EvInvoke])).
    cbn. unfold try_catch, external. rewrite Hfn. cbn. auto.
  - destruct (H (world s)) as (e & w' & Hfn & He).
    destruct (IH (delay * 2)%Z
                (mkState w' ((trace s ++ [EvInvoke]) ++ [EvSleep delay])))
      as (e' & s' & Hrun & He' & Htr).
    exists e', s'. split; [|split; [exact He'|]].
    + cbn. unfold try_catch, external. rewrite Hfn. cbn. rewrite He. cbn.
      unfold bind, sleep, emit. cbn. exact Hrun.
    + rewrite Htr, backoff_events_S. cbn [trace].
      rewrite <- !app_assoc. reflexivity.
Qed.

Lemma retry_unfold fn (retries : nat) (delay : Z) s :
  retryWithBackoff fn retries delay s =
  let s1 := mkState (snd (fn (world s))) (trace s ++ [EvInvoke]) in
  match fst (fn (world s)) with
  | inr v => (inr v, s1)
  | inl e =>
      match retries with
      | O => (inl e, s1)
      | S r =>
          if isTransient e
          then retryWithBackoff fn r (delay * 2)
                 (mkState (world s1) (trace s1 ++ [EvSleep delay]))
          else (inl e, s1)
      end
  end.
Proof.
  destruct retries as [|r]; cbn; unfold try_catch, external;
    destruct (fn (world s)) as [[e|v] w']; cbn; try reflexivity.
  destruct (isTransient e); reflexivity.
Qed.


End Facts.



(** C2.  When the first invocation of the wrapped operation fails with a
    permanent error (its status is neither 503 nor 429 and its message does
    not contain 'overloaded'), [retryWithBackoff] stops there: the run
    consists of that one call, with no sleep and no second call, and the
    value thrown is the operation's own error. *)
Theorem retry_permanent_propagates_at_once
    {W T : Type} (fn : W -> (JsError + T) * W)
    (retries : nat) (delay : Z) (s : State W) (e : JsError) (w' : W) :
  fn (world s) = (inl e, w') ->
  isTransient e = false ->
  retryWithBackoff fn retries delay s
  = (inl e, mkState w' (trace s ++ [EvInvoke])).
Proof.
  intros Hfn He. rewrite retry_unfold, Hfn. cbn.
  rewrite He. now destruct retries.
Qed.

Lemma retry_permanent_propagates_at_once_witness :
  retryWithBackoff Demo.always_denied 3 2000 (Demo.start 0%nat)
  = (inl Demo.denied, mkState 1%nat [EvInvoke]).
Proof.
  apply (retry_permanent_propagates_at_once Demo.always_denied 3 2000
           (Demo.start 0%nat) (e := Demo.denied) (w' := 1%nat));
    reflexivity.
Defined.



End RetryFacts.

(** ** The Structured-Data Aggregator *)

Module SchemaFacts.

Section Facts.
Context `{CaseTables}.

Lemma fragment_types_eq (now : jsstring) (post : BlogPost) :
  fragment_types now post
  = [str "BlogPosting"; str "Organization"; str "BreadcrumbList"]
    ++ (if faq_due post then [str "FAQPage"] else [])
    ++ (if howto_due post then [str "HowTo"] else [])
    ++ (if service_due post then [str "Service"] else []).
Proof.
  unfold fragment_types, aggregateSchemas, faq_due, howto_due, service_due,
    generateFAQSchema, generateHowToSchema, generateServiceSchema.
  destruct (aeoQuestions post) as [[|q qs]|];
    destruct (isHowTo post) as [[|]|]; destruct (steps post) as [ss|];
    destruct (commercialIntent post) as [[|]|];
    try (rewrite Nat.leb_antisym; destruct (List.length ss <? 3)%nat);
    reflexivity.
Qed.

Ltac decide_membership :=
  rewrite fragment_types_eq;
  destruct (faq_due _), (howto_due _), (service_due _);
  vm_compute; intuition discriminate.

Lemma faq_fragment_iff (now : jsstring) (post : BlogPost) :
  In (str "FAQPage") (fragment_types now post) <-> faq_due post = true.
Proof. decide_membership. Qed.

Lemma howto_fragment_iff (now : jsstring) (post : BlogPost) :
  In (str "HowTo") (fragment_types now post) <-> howto_due post = true.
Proof. decide_membership. Qed.

Lemma service_fragment_iff (now : jsstring) (post : BlogPost) :
  In (str "Service") (fragment_types now post) <-> service_due post = true.
Proof. decide_membership. Qed.

Lemma faq_due_iff (post : BlogPost) :
  faq_due post = true <-> exists q qs, aeoQuestions post = Some (q :: qs).
Proof.
  unfold faq_due. destruct (aeoQuestions post) as [[|q qs]|]; split;
    try discriminate; try (intros (? & ? & ?); discriminate); eauto.
Qed.

Lemma howto_due_iff (post : BlogPost) :
  howto_due post = true <->
  isHowTo post = Some true /\
  exists ss, steps post = Some ss /\ (3 <= List.length ss)%nat.
Proof.
  unfold howto_due.
  destruct (isHowTo post) as [[|]|]; destruct (steps post) as [ss|]; split;
    try discriminate; try (intros [? _]; discriminate);
    try (intros [_ (? & ? & _)]; discriminate).
  - intros Hle. apply Nat.leb_le in Hle. eauto.
  - intros [_ (ss' & [= <-] & Hle)]. now apply Nat.leb_le.
Qed.

Lemma service_due_iff (post : BlogPost) :
  service_due post = true <-> commercialIntent post = Some true.
Proof.
  unfold service_due. destruct (commercialIntent post) as [[|]|]; split;
    congruence.
Qed.

End Facts.

(** C4.  For every post, the fragments [aggregateSchemas] returns start
    with BlogPosting, Organization and BreadcrumbList, in this order, and go
    on with FAQPage, HowTo and Service, each present once when it is due and
    absent otherwise: FAQPage exactly when [aeoQuestions] is a non-empty
    list, HowTo exactly when [isHowTo] is true and [steps] has at least
    three entries, Service exactly when [commercialIntent] is true.  In
    particular a how-to post with exactly two steps has no HowTo fragment,
    and a post whose [commercialIntent] is false has no Service fragment. *)
Theorem aggregate_emits_fragments_by_condition
    `{CaseTables} (now : jsstring) (post : BlogPost) :
  fragment_types now post
  = [str "BlogPosting"; str "Organization"; str "BreadcrumbList"]
    ++ (if faq_due post then [str "FAQPage"] else [])
    ++ (if howto_due post then [str "HowTo"] else [])
    ++ (if service_due post then [str "Service"] else []) /\
  (In (str "FAQPage") (fragment_types now post) <->
   exists q qs, aeoQuestions post = Some (q :: qs)) /\
  (In (str "HowTo") (fragment_types now post) <->
   isHowTo post = Some true /\
   exists ss, steps post = Some ss /\ (3 <= List.length ss)%nat) /\
  (In (str "Service") (fragment_types now post) <->
   commercialIntent post = Some true) /\
  (forall a b, isHowTo post = Some true -> steps post = Some [a; b] ->
   ~ In (str "HowTo") (fragment_types now post)) /\
  (commercialIntent post = Some false ->
   ~ In (str "Service") (fragment_types now post)).
Proof.
  pose proof (faq_fragment_iff now post) as Hfaq.
  pose proof (howto_fragment_iff now post) as Hhow.
  pose proof (service_fragment_iff now post) as Hsrv.
  split; [apply fragment_types_eq|].
  split; [now rewrite Hfaq, faq_due_iff|].
  split; [now rewrite Hhow, howto_due_iff|].
  split; [now rewrite Hsrv, service_due_iff|].
  split.
  - intros a b Hh Hs. rewrite Hhow, howto_due_iff.
    intros [_ (ss & Hss & Hle)]. rewrite Hs in Hss.
    injection Hss as <-. cbn in Hle. lia.
  - intros Hc. rewrite Hsrv, service_due_iff. congruence.
Qed.

Lemma aggregate_emits_fragments_by_condition_witness :
  let post := Demo.guide [lit "List income"; lit "List costs"] false in
  let types := @fragment_types Demo.ascii_case_tables
                 (lit "2026-01-01T00:00:00.000Z") post in
  ~ In (str "HowTo") types /\ ~ In (str "Service") types.
Proof.
  intros post types.
  pose proof (@aggregate_emits_fragments_by_condition Demo.ascii_case_tables
                (lit "2026-01-01T00:00:00.000Z") post)
    as (_ & _ & _ & _ & Htwo & Hnone).
  split.
  - apply (Htwo (lit "List income") (lit "List costs")); reflexivity.
  - apply Hnone; reflexivity.
Defined.

(** C8.  Two calls of [aggregateSchemas] on the same post, made at the
    times [now1] and [now2], return the same fragments except for the
    [dateModified] of the first one, the BlogPosting: the lists have the
    same length, every fragment after the first is the same in both, and
    the second list is the first list with [dateModified] of its head set to
    the second timestamp. *)
Theorem aggregate_idempotent_up_to_dateModified
    `{CaseTables} (now1 now2 : jsstring) (post : BlogPost) :
  List.length (aggregateSchemas now1 post)
  = List.length (aggregateSchemas now2 post) /\
  tl (aggregateSchemas now1 post) = tl (aggregateSchemas now2 post) /\
  aggregateSchemas now2 post
  = map_head (set_dateModified (JStr now2)) (aggregateSchemas now1 post) /\
  (exists b1 b2 rest,
      aggregateSchemas now1 post = b1 :: rest /\
      aggregateSchemas now2 post = b2 :: rest /\
      type_of b1 = str "BlogPosting" /\
      type_of b2 = str "BlogPosting" /\
      forall v, set_dateModified v b1 = set_dateModified v b2).
Proof.
  unfold aggregateSchemas, push_if.
  destruct (truthy (generateFAQSchema post)),
           (truthy (generateHowToSchema post)),
           (truthy (generateServiceSchema post));
    (split; [reflexivity|split; [reflexivity|split; [reflexivity|]]]);
    eexists _, _, _; repeat split; reflexivity.
Qed.

End SchemaFacts.

(** ** The Generation Client *)

Module GenerationFacts.

Section Facts.
Context {W : Type} `{Platform W} `{CaseTables}.

Lemma given_None (o : option jsstring) :
  given o = None <-> o = None \/ o = Some [].
Proof.
  destruct o as [[|c t]|]; cbn; split; try tauto; try discriminate;
    intros [E|E]; discriminate.
Qed.

Lemma generateTopics_unfold (niche : jsstring) (ctx : option jsstring)
    (count : Z) (s : State W) :
  generateTopics niche ctx count s =
  match retryWithBackoff
          (generateContent (TopicsRequest niche (given ctx) count))
          default_retries default_delay s with
  | (inl _, s') => (inl topics_failure, s')
  | (inr response, s') =>
      match given (text response) with
      | None => (inr [], s')
      | Some json =>
          match JSON_parse_topics json with
          | inl _ => (inl topics_failure, s')
          | inr topics =>
              match mapM with_picsum_cover topics s' with
              | (inl _, s'') => (inl topics_failure, s'')
              | (inr ts, s'') => (inr ts, s'')
              end
          end
      end
  end.
Proof.
  unfold generateTopics, try_catch at 1, bind at 1.
  destruct (retryWithBackoff _ _ _ s) as [[e|response] s']; [reflexivity|].
  destruct (text response) as [[|c json]|]; cbn [given]; try reflexivity.
  unfold bind at 1, of_sum, throw.
  destruct (JSON_parse_topics (c :: json)) as [e|topics]; [reflexivity|].
  destruct (mapM with_picsum_cover topics s') as [[e|ts] s'']; reflexivity.
Qed.

End Facts.

(** C5.  [generateTopics] returns the empty list, and so does not throw,
    when the response of the provider carries no text or the empty text.
    It throws the fixed, user-facing error "Failed to generate topics.
    Please check your API key or try again later.", whatever the original
    error was, when the call through the Retry Policy fails (in particular
    when every call is answered with a transient error: then after four
    calls and sleeps of 2000, 4000 and 8000 ms) and when the text of the
    response does not parse. *)
Theorem generateTopics_empty_text_and_wrapped_errors
    {W : Type} `{Platform W} `{CaseTables}
    (niche : jsstring) (ctx : option jsstring) (count : Z) (s : State W) :
  let request := TopicsRequest niche (given ctx) count in
  let call := retryWithBackoff (generateContent request)
                default_retries default_delay in
  (forall response s',
      call s = (inr response, s') ->
      text response = None \/ text response = Some [] ->
      generateTopics niche ctx count s = (inr [], s')) /\
  (forall e s',
      call s = (inl e, s') ->
      generateTopics niche ctx count s = (inl topics_failure, s')) /\
  (always_transient (generateContent request) ->
   exists s',
     generateTopics niche ctx count s = (inl topics_failure, s') /\
     trace s' = trace s ++ backoff_events 3 2000) /\
  (forall response s' json e,
      call s = (inr response, s') ->
      given (text response) = Some json ->
      JSON_parse_topics json = inl e ->
      generateTopics niche ctx count s = (inl topics_failure, s')).
Proof.
  intros request call. repeat split.
  - intros response s' Hcall Htext. rewrite generateTopics_unfold.
    fold request. fold call. rewrite Hcall.
    apply given_None in Htext. now rewrite Htext.
  - intros e s' Hcall. rewrite generateTopics_unfold.
    fold request. fold call. now rewrite Hcall.
  - intros Hbusy.
    destruct (RetryFacts.all_transient_run Hbusy default_retries
                default_delay s) as (e & s' & Hrun & _ & Htr).
    exists s'. split; [|exact Htr].
    rewrite generateTopics_unfold. fold request. now rewrite Hrun.
  - intros response s' json e Hcall Htext Hparse.
    rewrite generateTopics_unfold. fold request. fold call.
    now rewrite Hcall, Htext, Hparse.
Qed.

Lemma generateTopics_empty_text_and_wrapped_errors_witness :
  let quiet := Demo.platform None None in
  let niche := lit "personal finance" in
  let no_text := Demo.midnight [inr (mkGenResponse None)] [] [] in
  let all_busy := Demo.midnight (repeat (inl Demo.busy) 4) [] [] in
  let garbage :=
    Demo.midnight [inr (mkGenResponse (Some (lit "Sorry, I cannot.")))] [] [] in
  @generateTopics _ quiet niche None 3 (Demo.start no_text)
  = (inr [], mkState (Demo.midnight [] [] []) [EvInvoke]) /\
  @generateTopics _ quiet niche None 3 (Demo.start all_busy)
  = (inl topics_failure,
     mkState (Demo.midnight [] [] []) (backoff_events 3 2000)) /\
  (exists s',
      @generateTopics _ (Demo.jammed None None) niche None 3
        (Demo.start no_text) = (inl topics_failure, s') /\
      trace s' = trace (Demo.start no_text) ++ backoff_events 3 2000) /\
  @generateTopics _ quiet niche None 3 (Demo.start garbage)
  = (inl topics_failure, mkState (Demo.midnight [] [] []) [EvInvoke]).
Proof.
  intros quiet niche no_text all_busy garbage.
  split; [|split; [|split]].
  - apply (proj1 (@generateTopics_empty_text_and_wrapped_errors _ quiet
                    Demo.ascii_case_tables niche None 3 (Demo.start no_text))
             (mkGenResponse None)); [reflexivity | now left].
  - apply (proj1 (proj2 (@generateTopics_empty_text_and_wrapped_errors _ quiet
                    Demo.ascii_case_tables niche None 3 (Demo.start all_busy)))
             Demo.busy); reflexivity.
  - apply (proj1 (proj2 (proj2
             (@generateTopics_empty_text_and_wrapped_errors _
                (Demo.jammed None None) Demo.ascii_case_tables niche None 3
                (Demo.start no_text))))).
    intros w. exists Demo.busy, w. split; reflexivity.
  - apply (proj2 (proj2 (proj2
             (@generateTopics_empty_text_and_wrapped_errors _ quiet
                Demo.ascii_case_tables niche None 3 (Demo.start garbage))))
             (mkGenResponse (Some (lit "Sorry, I cannot.")))
             _ (lit "Sorry, I cannot.") SyntaxError); reflexivity.
Defined.

End GenerationFacts.

(** ** Cover images and the Auto-Publish Orchestrator *)

Module CoverFacts.

Import ListFacts.

Lemma unreserved_not_surrogate (c : N) :
  uri_unreserved c = true -> is_surrogate c = false.
Proof.
  unfold uri_unreserved, is_surrogate, is_high_surrogate, is_low_surrogate,
    is_digit, is_upper, is_lower, in_range. cbn [existsb].
  intros Hu.
  repeat match type of Hu with
         | (_ || _)%bool = true => apply orb_true_iff in Hu; destruct Hu as [Hu|Hu]
         | (_ && _)%bool = true => apply andb_true_iff in Hu; destruct Hu as [? ?]
         end;
    repeat match goal with
           | E : (_ <=? _)%N = true |- _ => apply N.leb_le in E
           | E : (_ =? _)%N = true |- _ => apply N.eqb_eq in E
           end;
    try discriminate;
    apply orb_false_iff; split; apply andb_false_iff;
    ((left; apply N.leb_gt; lia) || (right; apply N.leb_gt; lia)).
Qed.

Lemma option_map_defined {A B} (f : A -> B) (o : option A) :
  option_map f o = None <-> o = None.
Proof. destruct o; cbn; split; congruence. Qed.

(** [encodeURIComponent] throws exactly on the strings that are not
    well-formed UTF-16. *)
Lemma encodeURIComponent_throws_iff (s : jsstring) :
  encodeURIComponent s = None <-> well_formed s = false.
Proof.
  induction s as [|c t IH IH'] using list_ind_pairs.
  - cbn. split; discriminate.
  - cbn [encodeURIComponent well_formed].
    destruct (uri_unreserved c) eqn:Hu.
    + apply unreserved_not_surrogate in Hu.
      apply orb_false_iff in Hu as [-> ->].
      now rewrite option_map_defined.
    + destruct (is_high_surrogate c) eqn:Hh, (is_low_surrogate c) eqn:Hl.
      * exfalso. unfold is_high_surrogate, is_low_surrogate, in_range in *.
        apply andb_true_iff in Hh as [_ Hh], Hl as [Hl _].
        apply N.leb_le in Hh, Hl. lia.
      * destruct t as [|d t']; [tauto|].
        destruct (is_low_surrogate d); cbn [andb]; [|tauto].
        rewrite option_map_defined. exact (IH' d t' eq_refl).
      * tauto.
      * now rewrite option_map_defined.
Qed.

Lemma well_formed_plain_prefix (a b : jsstring) :
  forallb (fun c => negb (is_surrogate c)) a = true ->
  well_formed (a ++ b) = well_formed b.
Proof.
  induction a as [|c a IH]; cbn [forallb app well_formed]; [reflexivity|].
  intros Ha. apply andb_true_iff in Ha as [Hc Ha].
  apply negb_true_iff, orb_false_iff in Hc as [-> ->]. auto.
Qed.

Lemma well_formed_plain_suffix (b a : jsstring) :
  forallb (fun c => negb (is_surrogate c)) a = true ->
  well_formed (b ++ a) = well_formed b.
Proof.
  intros Ha. induction b as [|c t IH IH'] using list_ind_pairs.
  - cbn [app]. rewrite <- (app_nil_r a).
    now rewrite well_formed_plain_prefix.
  - cbn [app well_formed].
    destruct (is_high_surrogate c).
    + destruct t as [|d t'].
      * cbn [app]. destruct a as [|x a']; [reflexivity|].
        cbn [forallb] in Ha. apply andb_true_iff in Ha as [Hx _].
        apply negb_true_iff, orb_false_iff in Hx as [_ ->]. reflexivity.
      * cbn [app]. now rewrite (IH' d t' eq_refl).
    + destruct (is_low_surrogate c); auto.
Qed.

Lemma cover_prompt_well_formed (prompt : jsstring) (raw : bool) :
  well_formed (cover_prompt_text prompt raw)
  = well_formed (substring0 (cover_prompt_limit raw) prompt).
Proof.
  destruct raw; cbn [cover_prompt_text cover_prompt_limit]; [reflexivity|].
  rewrite well_formed_plain_prefix by reflexivity.
  now rewrite well_formed_plain_suffix by reflexivity.
Qed.

Lemma floor_scaled_range (r : Q) (k : Z) :
  (0 <= r)%Q -> (r < 1)%Q -> (0 < k)%Z ->
  (0 <= floor_scaled r k < k)%Z.
Proof.
  intros H0 H1 Hk. unfold floor_scaled.
  assert (Hk' : (0 < inject_Z k)%Q) by (change 0%Q with (inject_Z 0); now rewrite <- Zlt_Qlt).
  split.
  - change 0%Z with (Qfloor 0). apply Qfloor_resp_le.
    apply Qmult_le_0_compat; [exact H0 | now apply Qlt_le_weak].
  - rewrite Zlt_Qlt.
    apply Qle_lt_trans with (r * inject_Z k)%Q; [apply Qfloor_le|].
    rewrite <- (Qmult_1_l (inject_Z k)) at 2.
    now apply Qmult_lt_compat_r.
Qed.

Section Runs.
Context {W : Type} `{Platform W} `{CaseTables}.

Lemma random_below_run (k : Z) (s : State W) :
  random_below k s
  = (inr (floor_scaled (fst (Math_random (world s))) k), after_draw s).
Proof.
  unfold random_below, bind, external, ret, after_draw.
  now destruct (Math_random (world s)).
Qed.

Lemma random_below_range (k : Z) (s : State W) :
  (0 < k)%Z ->
  (0 <= floor_scaled (fst (Math_random (world s))) k < k)%Z.
Proof.
  intros Hk. destruct (Math_random_range (world s)).
  now apply floor_scaled_range.
Qed.

Lemma generateCoverImage_run (prompt : jsstring) (raw : bool) (s : State W) :
  generateCoverImage prompt raw s =
  match encodeURIComponent (cover_prompt_text prompt raw) with
  | None => (inl URIError_malformed, s)
  | Some encoded =>
      (inr (pollinations_prefix ++ encoded ++ pollinations_suffix
              ++ of_Z (floor_scaled (fst (Math_random (world s))) 1000000)),
       after_draw s)
  end.
Proof.
  unfold generateCoverImage, cover_prompt_text, encodeURIComponentM.
  unfold bind at 1.
  destruct raw;
    match goal with
    | |- context [encodeURIComponent ?t] => destruct (encodeURIComponent t)
    end; try reflexivity;
    unfold ret at 1; unfold bind at 1; rewrite random_below_run; reflexivity.
Qed.

Lemma cover_or_placeholder_run (t : jsstring) (s : State W) :
  cover_or_placeholder t s =
  match encodeURIComponent (cover_prompt_text t false) with
  | None =>
      (inr (picsum_placeholder (fst (Date_now (world s)))),
       mkState (snd (Date_now (world s))) (trace s))
  | Some encoded =>
      (inr (pollinations_prefix ++ encoded ++ pollinations_suffix
              ++ of_Z (floor_scaled (fst (Math_random (world s))) 1000000)),
       after_draw s)
  end.
Proof.
  unfold cover_or_placeholder, try_catch. rewrite generateCoverImage_run.
  destruct (encodeURIComponent (cover_prompt_text t false)); [reflexivity|].
  unfold bind, silent, ret, picsum_placeholder.
  now destruct (Date_now (world s)).
Qed.

Lemma assemble_run (rt : GeneratedTopic) (content : PartialPost)
    (image : jsstring) (s : State W) :
  exists id_ms created now s',
    assemble rt content image s
    = (inr (inject_schema now (basePost id_ms created rt content image)), s') /\
    trace s' = trace s.
Proof.
  unfold assemble, bind, silent, ret.
  destruct (Date_now (world s)) as [id_ms w1]. cbn.
  destruct (Date_toLocaleString w1) as [created w2]. cbn.
  destruct (Date_toISOString w2) as [now w3]. cbn.
  now exists id_ms, created, now, (mkState w3 (trace s)).
Qed.

Lemma orchestrator_unfold (niche : jsstring) (s : State W) :
  generateAndPublishAutoPost niche s =
  match generateTopics niche None 3 s with
  | (inl e, s1) => (inl e, s1)
  | (inr [], s1) => (inl no_topics, s1)
  | (inr topics, s1) =>
      match array_at topics
              (floor_scaled (fst (Math_random (world s1)))
                 (Z.of_nat (List.length topics))) with
      | None => (inl TypeError_undefined, after_draw s1)
      | Some rt =>
          match generateFullPost (topic rt) tone None (after_draw s1) with
          | (inl e, s3) => (inl e, s3)
          | (inr content, s3) =>
              match cover_or_placeholder (topic rt) s3 with
              | (inl e, s4) => (inl e, s4)
              | (inr image, s4) => assemble rt content image s4
              end
          end
      end
  end.
Proof.
  unfold generateAndPublishAutoPost. unfold bind at 1.
  destruct (generateTopics niche None 3 s) as [[e|[|t ts]] s1];
    try reflexivity.
  unfold bind at 1. rewrite random_below_run.
  destruct (array_at _ _) as [rt|]; [|reflexivity].
  unfold bind at 1. fold tone.
  destruct (generateFullPost (topic rt) tone None (after_draw s1))
    as [[e|content] s3]; [reflexivity|].
  unfold bind at 1.
  destruct (cover_or_placeholder (topic rt) s3) as [[e|image] s4]; reflexivity.
Qed.

Lemma picked_topic (topics : list GeneratedTopic) (s : State W) :
  topics <> [] ->
  exists rt,
    array_at topics
      (floor_scaled (fst (Math_random (world s)))
         (Z.of_nat (List.length topics))) = Some rt /\
    In rt topics.
Proof.
  intros Hne.
  assert (Hlen : (0 < Z.of_nat (List.length topics))%Z)
    by (destruct topics; [congruence | cbn; lia]).
  pose proof (random_below_range s Hlen) as Hr.
  unfold array_at.
  destruct (Z.ltb_spec (floor_scaled (fst (Math_random (world s)))
                          (Z.of_nat (List.length topics))) 0); [lia|].
  destruct (nth_error topics _) as [rt|] eqn:Hnth.
  - exists rt. split; [reflexivity|]. eapply nth_error_In; eauto.
  - apply nth_error_None in Hnth. lia.
Qed.

End Runs.

(** C10 (amended).  [generateCoverImage] performs no network I/O: all it
    does to the outside is at most one draw of [Math.random].  Whenever the
    part of the prompt it uses (the first 100 code units, or the first 200
    of a raw prompt) is well-formed UTF-16, it returns a pollinations.ai
    URL with width 1000, height 500 and a freshly drawn seed below
    1000000; when that part has a surrogate without its partner,
    [encodeURIComponent] throws a [URIError] and so does
    [generateCoverImage].  Accordingly, the cover image of a post returned
    by [generateAndPublishAutoPost] is the pollinations.ai URL when the
    first 100 code units of the chosen topic are well-formed, and the
    timestamp-seeded picsum placeholder of the [catch] branch when they are
    not. *)
Theorem generateCoverImage_pollinations_unless_malformed
    {W : Type} `{Platform W} `{CaseTables}
    (prompt : jsstring) (raw : bool) (s : State W) :
  let used := substring0 (cover_prompt_limit raw) prompt in
  (exists new,
      trace (snd (generateCoverImage prompt raw s)) = trace s ++ new /\
      no_fetch new = true) /\
  (well_formed used = true ->
   exists encoded seed,
     encodeURIComponent (cover_prompt_text prompt raw) = Some encoded /\
     generateCoverImage prompt raw s
     = (inr (pollinations_prefix ++ encoded ++ pollinations_suffix
               ++ of_Z seed), after_draw s) /\
     (0 <= seed < 1000000)%Z) /\
  (well_formed used = false ->
   generateCoverImage prompt raw s = (inl URIError_malformed, s)) /\
  (forall niche p s',
      generateAndPublishAutoPost niche s = (inr p, s') ->
      exists topics s1 rt content s3,
        generateTopics niche None 3 s = (inr topics, s1) /\
        array_at topics
          (floor_scaled (fst (Math_random (world s1)))
             (Z.of_nat (List.length topics))) = Some rt /\
        In rt topics /\
        generateFullPost (topic rt) tone None (after_draw s1)
        = (inr content, s3) /\
        (well_formed (substring0 100 (topic rt)) = true ->
         exists encoded seed,
           encodeURIComponent (cover_prompt_text (topic rt) false)
           = Some encoded /\
           seed = floor_scaled (fst (Math_random (world s3))) 1000000 /\
           (0 <= seed < 1000000)%Z /\
           coverImage p
           = Some (pollinations_prefix ++ encoded ++ pollinations_suffix
                     ++ of_Z seed)) /\
        (well_formed (substring0 100 (topic rt)) = false ->
         coverImage p
         = Some (picsum_placeholder (fst (Date_now (world s3)))))).
Proof.
  intros used.
  assert (Hwf : forall p r,
             encodeURIComponent (cover_prompt_text p r) = None <->
             well_formed (substring0 (cover_prompt_limit r) p) = false).
  { intros p r. now rewrite encodeURIComponent_throws_iff,
                  cover_prompt_well_formed. }
  split; [|split; [|split]].
  - rewrite generateCoverImage_run.
    destruct (encodeURIComponent _).
    + exists [EvRandom]. split; reflexivity.
    + exists []. split; [cbn; now rewrite app_nil_r | reflexivity].
  - intros Hused. rewrite generateCoverImage_run.
    destruct (encodeURIComponent _) as [encoded|] eqn:Henc.
    + exists encoded, (floor_scaled (fst (Math_random (world s))) 1000000).
      repeat split; try apply random_below_range; lia.
    + apply Hwf in Henc. unfold used in Hused. congruence.
  - intros Hused. rewrite generateCoverImage_run.
    apply Hwf in Hused. now rewrite Hused.
  - intros niche p s'. rewrite orchestrator_unfold.
    destruct (generateTopics niche None 3 s) as [[e|[|t ts]] s1];
      try discriminate.
    destruct (picked_topic (topics := t :: ts) s1) as (rt & Hrt & Hin);
      [discriminate|].
    rewrite Hrt.
    destruct (generateFullPost (topic rt) tone None (after_draw s1))
      as [[e|content] s3] eqn:Hpost; [discriminate|].
    rewrite cover_or_placeholder_run.
    destruct (encodeURIComponent (cover_prompt_text (topic rt) false))
      as [encoded|] eqn:Henc.
    + destruct (assemble_run rt content
                  (pollinations_prefix ++ encoded ++ pollinations_suffix
                     ++ of_Z (floor_scaled (fst (Math_random (world s3)))
                                1000000)) (after_draw s3))
        as (id_ms & created & now & s4 & Hrun & _).
      rewrite Hrun. intros [= <- <-].
      exists (t :: ts), s1, rt, content, s3. split; [reflexivity|].
      split; [exact Hrt|]. split; [exact Hin|]. split; [exact Hpost|]. split.
      * intros _.
        exists encoded, (floor_scaled (fst (Math_random (world s3))) 1000000).
        split; [exact Henc|]. split; [reflexivity|].
        split; [apply random_below_range; lia | reflexivity].
      * intros Hbad. apply (Hwf (topic rt) false) in Hbad. congruence.
    + destruct (assemble_run rt content
                  (picsum_placeholder (fst (Date_now (world s3))))
                  (mkState (snd (Date_now (world s3))) (trace s3)))
        as (id_ms & created & now & s4 & Hrun & _).
      rewrite Hrun. intros [= <- <-].
      exists (t :: ts), s1, rt, content, s3. split; [reflexivity|].
      split; [exact Hrt|]. split; [exact Hin|]. split; [exact Hpost|]. split.
      * intros Hgood. apply (Hwf (topic rt) false) in Henc.
        cbn [cover_prompt_limit] in Henc. congruence.
      * intros _. reflexivity.
Qed.

Lemma generateCoverImage_pollinations_unless_malformed_witness :
  let P := Demo.platform None None in
  let C := Demo.ascii_case_tables in
  let s0 := Demo.start (Demo.midnight [] [] [1 # 2]%Q) in
  let w := Demo.newsroom Demo.long_title
             [Demo.answer_json (Demo.article Demo.long_title)] in
  (exists encoded seed,
      encodeURIComponent (cover_prompt_text (lit "Budget tips") false)
      = Some encoded /\
      @generateCoverImage _ P (lit "Budget tips") false s0
      = (inr (pollinations_prefix ++ encoded ++ pollinations_suffix
                ++ of_Z seed), @after_draw _ P s0) /\
      (0 <= seed < 1000000)%Z) /\
  @generateCoverImage _ P Demo.long_title false s0
  = (inl URIError_malformed, s0) /\
  (forall p s',
      @generateAndPublishAutoPost _ P C (lit "emoji") (Demo.start w)
      = (inr p, s') ->
      exists topics s1 rt content s3,
        @generateTopics _ P (lit "emoji") None 3 (Demo.start w)
        = (inr topics, s1) /\
        array_at topics
          (floor_scaled (fst (@Math_random _ P (world s1)))
             (Z.of_nat (List.length topics))) = Some rt /\
        In rt topics /\
        @generateFullPost _ P (topic rt) tone None (@after_draw _ P s1)
        = (inr content, s3) /\
        (well_formed (substring0 100 (topic rt)) = true ->
         exists encoded seed,
           encodeURIComponent (cover_prompt_text (topic rt) false)
           = Some encoded /\
           seed = floor_scaled (fst (@Math_random _ P (world s3))) 1000000 /\
           (0 <= seed < 1000000)%Z /\
           coverImage p
           = Some (pollinations_prefix ++ encoded ++ pollinations_suffix
                     ++ of_Z seed)) /\
        (well_formed (substring0 100 (topic rt)) = false ->
         coverImage p
         = Some (picsum_placeholder (fst (@Date_now _ P (world s3)))))).
Proof.
  intros P C s0 w. split; [|split].
  - apply (proj1 (proj2
             (@generateCoverImage_pollinations_unless_malformed _ P
                C (lit "Budget tips") false s0))).
    reflexivity.
  - apply (proj1 (proj2 (proj2
             (@generateCoverImage_pollinations_unless_malformed _ P
                C Demo.long_title false s0)))).
    reflexivity.
  - exact (proj2 (proj2 (proj2
             (@generateCoverImage_pollinations_unless_malformed _ P
                C Demo.long_title false (Demo.start w))))
             (lit "emoji")).
Defined.

(** C10, as stated, fails.  The title [Demo.long_title] is well-formed, yet
    [generateCoverImage] throws on it: [substring(0, 100)] cuts the emoji
    at the end in two and [encodeURIComponent] rejects the half that is
    left.  When the provider suggests a topic with this title,
    [generateAndPublishAutoPost] takes the [catch] branch and the cover
    image of the post it returns is the picsum placeholder. *)
Lemma generateCoverImage_throws_on_split_pair :
  let P := Demo.platform None None in
  let C := Demo.ascii_case_tables in
  let w := Demo.newsroom Demo.long_title
             [Demo.answer_json (Demo.article Demo.long_title)] in
  well_formed Demo.long_title = true /\
  fst (@generateCoverImage _ P Demo.long_title false
         (Demo.start (Demo.midnight [] [] [])))
  = inl URIError_malformed /\
  match fst (@generateAndPublishAutoPost _ P C (lit "emoji") (Demo.start w)) with
  | inr post => coverImage post
  | inl _ => None
  end = Some (lit "https://picsum.photos/800/400?random=1767225600000").
Proof.
  intros P C w. split; [reflexivity|]. split; vm_compute; reflexivity.
Qed.

End CoverFacts.

(** ** The Auto-Publish Orchestrator *)

Module OrchestratorFacts.

Import CoverFacts.

(** C6 (amended).  [generateAndPublishAutoPost] throws "Failed to
    auto-generate topics" when [generateTopics] returns no topic, and lets
    the error of [generateTopics] or of [generateFullPost] pass to its
    caller.  Otherwise, that is when [generateTopics] returns topics and
    [generateFullPost] returns an answer for the one picked among them, it
    returns a post in which every optional field the answer leaves out has
    its fixed value (category 'Auto-Generated', read time '3 min read', geo
    targeting 'Global', SEO score 85, no keywords, no questions), whose
    slug is derived from its title, and whose content is the body of the
    answer followed by an empty line and the markup of the Structured-Data
    Aggregator for the post with that body. *)
Theorem auto_post_defaults_slug_and_markup
    {W : Type} `{Platform W} `{CaseTables} (niche : jsstring) (s : State W) :
  (forall s1,
      generateTopics niche None 3 s = (inr [], s1) ->
      generateAndPublishAutoPost niche s = (inl no_topics, s1)) /\
  (forall e s1,
      generateTopics niche None 3 s = (inl e, s1) ->
      generateAndPublishAutoPost niche s = (inl e, s1)) /\
  (forall topics s1,
      generateTopics niche None 3 s = (inr topics, s1) ->
      topics <> [] ->
      exists randomTopic,
        In randomTopic topics /\
        (forall e s3,
            generateFullPost (topic randomTopic) tone None (after_draw s1)
            = (inl e, s3) ->
            generateAndPublishAutoPost niche s = (inl e, s3)) /\
        (forall parsed s3,
            generateFullPost (topic randomTopic) tone None (after_draw s1)
            = (inr parsed, s3) ->
            exists post s4 now,
              generateAndPublishAutoPost niche s = (inr post, s4) /\
              fields_assembled randomTopic parsed post /\
              absent_fields_defaulted parsed post /\
              slug post = slugify (title post) /\
              let body := str_or (pp_content parsed) [] in
              content post
              = body ++ [0x0A; 0x0A]%N
                  ++ getCombinedSchemaHtml now (set_content post body))).
Proof.
  split; [|split].
  - intros s1 Htopics. now rewrite orchestrator_unfold, Htopics.
  - intros e s1 Htopics. now rewrite orchestrator_unfold, Htopics.
  - intros topics s1 Htopics Hne.
    destruct (picked_topic s1 Hne) as (rt & Hrt & Hin).
    exists rt. split; [exact Hin|].
    assert (Hrun : generateAndPublishAutoPost niche s =
                   match generateFullPost (topic rt) tone None (after_draw s1) with
                   | (inl e, s3) => (inl e, s3)
                   | (inr content, s3) =>
                       match cover_or_placeholder (topic rt) s3 with
                       | (inl e, s4) => (inl e, s4)
                       | (inr image, s4) => assemble rt content image s4
                       end
                   end).
    { rewrite orchestrator_unfold, Htopics.
      destruct topics; [congruence|]. now rewrite Hrt. }
    split.
    + intros e s3 Hpost. now rewrite Hrun, Hpost.
    + intros content s3 Hpost. rewrite Hrun, Hpost.
      assert (Hcover : exists image s4,
                 cover_or_placeholder (topic rt) s3 = (inr image, s4)).
      { rewrite cover_or_placeholder_run.
        destruct (encodeURIComponent _); eauto. }
      destruct Hcover as (image & s4 & ->).
      destruct (assemble_run rt content image s4)
        as (id_ms & created & now & s5 & -> & _).
      exists (inject_schema now (basePost id_ms created rt content image)),
        s5, now.
      split; [reflexivity|].
      split; [repeat split|].
      split; [repeat split; cbn; now intros ->|].
      split; reflexivity.
Qed.

Lemma auto_post_defaults_slug_and_markup_witness :
  let P := Demo.platform None None in
  let C := Demo.ascii_case_tables in
  let niche := lit "personal finance" in
  let silent_world := Demo.midnight [inr (mkGenResponse None)] [] [] in
  let w := Demo.newsroom (lit "Save More")
             [Demo.answer_json Demo.bare_article] in
  @generateAndPublishAutoPost _ P C niche (Demo.start silent_world)
  = (inl no_topics, mkState (Demo.midnight [] [] []) [EvInvoke]) /\
  exists randomTopic,
    In randomTopic [set_coverImage (Demo.idea (lit "Save More"))
                      (lit "https://picsum.photos/seed/Save%20Mor500/800/400")] /\
    exists post s4,
      @generateAndPublishAutoPost _ P C niche (Demo.start w)
      = (inr post, s4) /\
      absent_fields_defaulted (as_partial Demo.bare_article) post /\
      slug post = @slugify C (title post) /\
      slug post = lit "save-more".
Proof.
  intros P C niche silent_world w. split.
  - apply (proj1 (@auto_post_defaults_slug_and_markup _ P C niche
                    (Demo.start silent_world))).
    reflexivity.
  - destruct (proj2 (proj2 (@auto_post_defaults_slug_and_markup _ P C niche
                              (Demo.start w)))
                [set_coverImage (Demo.idea (lit "Save More"))
                   (lit "https://picsum.photos/seed/Save%20Mor500/800/400")]
                (mkState (Demo.midnight [Demo.answer_json Demo.bare_article]
                            [] [1 # 4; 3 # 4]%Q)
                         [EvInvoke; EvRandom])
                ltac:(vm_compute; reflexivity) ltac:(discriminate))
      as (rt & Hin & _ & Hpost).
    exists rt. split; [exact Hin|].
    destruct Hin as [<-|[]].
    destruct (Hpost (as_partial Demo.bare_article)
                (mkState (Demo.midnight [] [] [3 # 4]%Q)
                   [EvInvoke; EvRandom; EvRandom; EvInvoke])
                ltac:(vm_compute; reflexivity))
      as (post & s4 & now & Hrun & Hfields & Hdefaults & Hslug & _).
    exists post, s4.
    split; [exact Hrun|]. split; [exact Hdefaults|]. split; [exact Hslug|].
    rewrite Hslug. destruct Hfields as (-> & _). reflexivity.
Defined.

(** C6, as stated, fails: a run in which [generateTopics] returns one topic
    and the provider is unreachable afterwards does not return a post; the
    error of [generateFullPost] comes out of
    [generateAndPublishAutoPost]. *)
Lemma auto_post_throws_with_a_topic_in_hand :
  let P := Demo.platform None None in
  let C := Demo.ascii_case_tables in
  let niche := lit "personal finance" in
  let w := Demo.newsroom (lit "Save More") [] in
  (exists t s1,
      @generateTopics _ P niche None 3 (Demo.start w) = (inr [t], s1)) /\
  fst (@generateAndPublishAutoPost _ P C niche (Demo.start w))
  = inl post_failure.
Proof.
  intros P C niche w. split; [|reflexivity].
  do 2 eexists. reflexivity.
Qed.

End OrchestratorFacts.

(** ** The Image Acquisition Pipeline *)

Module PipelineFacts.

Import CoverFacts.

Section Facts.
Context {W : Type} `{Platform W} `{CaseTables}.

Lemma attempt_unconfigured (topic : jsstring) (raw : bool)
    (name : option jsstring) (s : State W) :
  configured = false ->
  attempt topic raw name s =
  match encodeURIComponent (cover_prompt_text topic raw) with
  | None => (inl URIError_malformed, s)
  | Some _ => (inr config_missing, after_draw s)
  end.
Proof.
  unfold configured, attempt. intros Hc. unfold bind at 1.
  rewrite generateCoverImage_run.
  destruct (encodeURIComponent _); [|reflexivity].
  destruct (given env_REMOTE_STORAGE_API_KEY);
    [destruct (given env_REMOTE_STORAGE_API_URL); [discriminate|]|];
    reflexivity.
Qed.

(** What [attempt] returns is either the configuration failure, when the
    storage service is not configured, or a success. *)
Lemma attempt_returns (topic : jsstring) (raw : bool) (name : option jsstring)
    (s s' : State W) (r : StoreResult) :
  attempt topic raw name s = (inr r, s') ->
  (configured = false /\ r = config_missing) \/ success r = true.
Proof.
  destruct configured eqn:Hc.
  - unfold configured in Hc. unfold attempt. unfold bind at 1.
    destruct (generateCoverImage topic raw s) as [[e|imageUrl] s1];
      [discriminate|].
    destruct (given env_REMOTE_STORAGE_API_KEY) as [apiKey|]; [|discriminate].
    destruct (given env_REMOTE_STORAGE_API_URL) as [apiUrl|]; [|discriminate].
    unfold bind, external, silent, of_sum, throw, ret.
    repeat match goal with
           | |- context [match ?x with _ => _ end] => destruct x
           | |- context [if ?b then _ else _] => destruct b
           end;
      try discriminate; intros [= <- _]; now right.
  - intros Hrun. rewrite attempt_unconfigured in Hrun by exact Hc.
    destruct (encodeURIComponent _); [|discriminate].
    injection Hrun as <- _. now left.
Qed.

Lemma fallback_run (topic : jsstring) (last : option jsstring) (s : State W) :
  fallback topic last s =
  match encodeURIComponent (fallback_keywords topic) with
  | Some encoded =>
      (inr (mkResult true
              (Some (fallback_prefix ++ encoded ++ lit "?lock="
                       ++ of_Z (floor_scaled (fst (Math_random (world s))) 1000)))
              (Some (fallback_note last))),
       after_draw s)
  | None =>
      (inr (mkResult false None
              (Some (str_or last (lit "Failed to generate or store image")))),
       s)
  end.
Proof.
  unfold fallback, try_catch, encodeURIComponentM. unfold bind at 1.
  destruct (encodeURIComponent (fallback_keywords topic)); [|reflexivity].
  unfold ret at 1. unfold bind at 1. now rewrite random_below_run.
Qed.

Lemma rounds_unfold (n : nat) (i : Z) (last : option jsstring)
    (topic : jsstring) (raw : bool) (name : option jsstring) (s : State W) :
  rounds_from (S n) i last topic raw name s =
  match attempt topic raw name s with
  | (inr r, s') => (inr r, s')
  | (inl e, s') =>
      rounds_from n (i + 1) (err_message e) topic raw name
        (if (i <? maxRetries)%Z then slept 1000 s' else s')
  end.
Proof.
  cbn [rounds_from]. unfold try_catch.
  destruct (attempt topic raw name s) as [[e|r] s']; [|reflexivity].
  unfold bind, sleep, emit, ret, slept.
  destruct (i <? maxRetries)%Z; [reflexivity|].
  now destruct s'.
Qed.

Lemma rounds_return (n : nat) :
  forall (i : Z) (last : option jsstring) (topic : jsstring) (raw : bool)
         (name : option jsstring) (s : State W),
  exists r s',
    rounds_from n i last topic raw name s = (inr r, s') /\
    (success r = false ->
     configured = false \/ well_formed (fallback_keywords topic) = false).
Proof.
  induction n as [|n IH]; intros i last topic raw name s.
  - cbn [rounds_from]. rewrite fallback_run.
    destruct (encodeURIComponent (fallback_keywords topic)) eqn:Henc.
    + do 2 eexists. split; [reflexivity|]. discriminate.
    + do 2 eexists. split; [reflexivity|]. intros _. right.
      now apply encodeURIComponent_throws_iff.
  - rewrite rounds_unfold.
    destruct (attempt topic raw name s) as [[e|r] s'] eqn:Hrun.
    + apply IH.
    + exists r, s'. split; [reflexivity|]. intros Hr.
      apply attempt_returns in Hrun as [[Hc _]|Hs]; [now left | congruence].
Qed.

End Facts.

(** C3 (amended).  [generateAndStoreCoverImage] always returns a result.
    When its three attempts (the first and [maxRetries = 2] more, with a
    sleep of one second after the first and after the second) all fail and
    the first three words of the topic are well-formed UTF-16, the result
    has [success = true], the URL of the stock-photo service built from
    those three words, and the non-empty note "AI generation failed (...),
    using relevant fallback." around the message of the last failure.  A
    result with [success = false] is returned only when the API key or the
    API URL of the storage service is absent or empty, or when the fallback
    URL cannot be built.  When the key or the URL is absent or empty and
    the prompt is well-formed, the structured failure "Remote storage
    configuration missing" is returned in the first round, after the URL of
    the image has been built with its one random draw and before anything
    is fetched, uploaded or waited for. *)
Theorem store_falls_back_or_reports_configuration
    {W : Type} `{Platform W} `{CaseTables}
    (topic : jsstring) (raw : bool) (name : option jsstring) (s : State W) :
  (forall e1 s1 e2 s2 e3 s3,
      attempt topic raw name s = (inl e1, s1) ->
      attempt topic raw name (slept 1000 s1) = (inl e2, s2) ->
      attempt topic raw name (slept 1000 s2) = (inl e3, s3) ->
      well_formed (fallback_keywords topic) = true ->
      exists encoded lock,
        encodeURIComponent (fallback_keywords topic) = Some encoded /\
        (0 <= lock < 1000)%Z /\
        generateAndStoreCoverImage topic raw name s
        = (inr (mkResult true
                  (Some (fallback_prefix ++ encoded ++ lit "?lock="
                           ++ of_Z lock))
                  (Some (fallback_note (err_message e3)))),
           after_draw s3) /\
        fallback_note (err_message e3) <> []) /\
  (exists r s',
      generateAndStoreCoverImage topic raw name s = (inr r, s') /\
      (success r = false ->
       configured = false \/ well_formed (fallback_keywords topic) = false)) /\
  (configured = false ->
   well_formed (substring0 (cover_prompt_limit raw) topic) = true ->
   generateAndStoreCoverImage topic raw name s
   = (inr config_missing, after_draw s)).
Proof.
  unfold generateAndStoreCoverImage.
  change (Z.to_nat (maxRetries + 1)) with 3%nat.
  split; [|split].
  - intros e1 s1 e2 s2 e3 s3 H1 H2 H3 Hwf.
    destruct (encodeURIComponent (fallback_keywords topic)) as [encoded|]
      eqn:Henc; [|apply encodeURIComponent_throws_iff in Henc; congruence].
    exists encoded, (floor_scaled (fst (Math_random (world s3))) 1000).
    split; [reflexivity|]. split; [apply random_below_range; lia|]. split.
    + rewrite rounds_unfold, H1.
      change (0 <? maxRetries)%Z with true. cbn iota.
      rewrite rounds_unfold, H2.
      change (0 + 1 <? maxRetries)%Z with true. cbn iota.
      rewrite rounds_unfold, H3.
      change (0 + 1 + 1 <? maxRetries)%Z with false. cbn iota.
      cbn [rounds_from].
      rewrite fallback_run, Henc.
      reflexivity.
    + unfold fallback_note. discriminate.
  - apply rounds_return.
  - intros Hc Hwf. rewrite rounds_unfold, attempt_unconfigured by exact Hc.
    destruct (encodeURIComponent (cover_prompt_text topic raw)) eqn:Henc;
      [reflexivity|].
    apply encodeURIComponent_throws_iff in Henc.
    rewrite cover_prompt_well_formed in Henc. congruence.
Qed.

Lemma store_falls_back_or_reports_configuration_witness :
  let C := Demo.ascii_case_tables in
  let set_up := Demo.platform (Some (lit "secret"))
                              (Some (lit "https://files.example.org/api.php")) in
  let bare := Demo.platform None None in
  let topic := lit "Ten quick budget tips" in
  let too_small := new_Error (lit "Received invalid or too small image data") in
  (exists encoded lock s',
      encodeURIComponent (fallback_keywords topic) = Some encoded /\
      (0 <= lock < 1000)%Z /\
      @generateAndStoreCoverImage _ set_up C topic false None
        (Demo.start Demo.bad_day)
      = (inr (mkResult true
                (Some (fallback_prefix ++ encoded ++ lit "?lock=" ++ of_Z lock))
                (Some (fallback_note (err_message too_small)))),
         s')) /\
  @generateAndStoreCoverImage _ bare C topic false None (Demo.start Demo.bad_day)
  = (inr config_missing, @after_draw _ bare (Demo.start Demo.bad_day)).
Proof.
  intros C set_up bare topic too_small. split.
  - pose (s1 := snd (@attempt _ set_up C topic false None
                       (Demo.start Demo.bad_day))).
    pose (s2 := snd (@attempt _ set_up C topic false None (@slept _ 1000 s1))).
    pose (s3 := snd (@attempt _ set_up C topic false None (@slept _ 1000 s2))).
    destruct (proj1 (@store_falls_back_or_reports_configuration _ set_up C
                       topic false None (Demo.start Demo.bad_day))
                Demo.offline s1
                (new_Error (lit "AI Provider responded with 503")) s2
                too_small s3)
      as (encoded & lock & Henc & Hrange & Hrun & _);
      [vm_compute; reflexivity .. |].
    exists encoded, lock, (@after_draw _ set_up s3). split; [exact Henc|].
    split; [exact Hrange|]. exact Hrun.
  - apply (proj2 (proj2 (@store_falls_back_or_reports_configuration _ bare C
                           topic false None (Demo.start Demo.bad_day))));
      reflexivity.
Defined.

(** C3, as stated, fails.  With the API key set and the API URL missing,
    the storage configuration is not entirely absent, and yet the result is
    the structured failure; and the failure does not come before
    generation is attempted: the trace of the run holds the random draw
    that [generateCoverImage] makes for the seed of the image URL. *)
Lemma store_reports_failure_with_key_set_after_generation :
  let C := Demo.ascii_case_tables in
  let half := Demo.platform (Some (lit "secret")) None in
  let run := @generateAndStoreCoverImage _ half C (lit "cats") false None
               (Demo.start Demo.bad_day) in
  @env_REMOTE_STORAGE_API_KEY _ half = Some (lit "secret") /\
  fst run = inr (mkResult false None
                   (Some (lit "Remote storage configuration missing"))) /\
  trace (snd run) = [EvRandom].
Proof.
  intros C half run. split; [reflexivity|]. split; reflexivity.
Qed.

End PipelineFacts.

(** ** JSON texts read back *)

Module JsonFacts.

Import ListFacts.

Local Open Scope N_scope.

Ltac Zify.zify_post_hook ::= Z.to_euclidean_division_equations.

Lemma hex_value_digit (d : N) :
  d < 16 -> hex_value (hex_digit_lower d) = Some d.
Proof.
  intros Hd.
  assert (Hcases : In d [0; 1; 2; 3; 4; 5; 6; 7; 8; 9; 10; 11; 12; 13; 14; 15])
    by (cbn; lia).
  cbn in Hcases.
  repeat (destruct Hcases as [<-|Hcases]; [reflexivity|]). contradiction.
Qed.

Lemma hex4_escape (c : N) :
  c < 65536 ->
  hex4 (hex_digit_lower (c / 4096)) (hex_digit_lower ((c / 256) mod 16))
       (hex_digit_lower ((c / 16) mod 16)) (hex_digit_lower (c mod 16))
  = Some c.
Proof.
  intros Hc. unfold hex4. rewrite !hex_value_digit by lia. f_equal. lia.
Qed.

Lemma parse_string_escape (c : N) (x : jsstring) :
  c < 65536 ->
  parse_string (unicode_escape c ++ x) = prepend c (parse_string x).
Proof.
  intros Hc. unfold unicode_escape. cbn [app parse_string].
  change (0x5C =? 0x22) with false. change (0x5C =? 0x5C) with true.
  cbn match.
  change (0x75 =? 0x22) with false. change (0x75 =? 0x5C) with false.
  change (0x75 =? 0x2F) with false. change (0x75 =? 0x62) with false.
  change (0x75 =? 0x66) with false. change (0x75 =? 0x6E) with false.
  change (0x75 =? 0x72) with false. change (0x75 =? 0x74) with false.
  change (0x75 =? 0x75) with true. cbn match.
  rewrite hex4_escape by exact Hc. reflexivity.
Qed.

Lemma parse_string_raw (c : N) (x : jsstring) :
  0x20 <= c -> c <> 0x22 -> c <> 0x5C ->
  parse_string (c :: x) = prepend c (parse_string x).
Proof.
  intros Hlo Hq Hb. cbn [parse_string].
  destruct (N.eqb_spec c 0x22); [contradiction|].
  destruct (N.eqb_spec c 0x5C); [contradiction|].
  destruct (N.ltb_spec c 0x20); [lia|]. reflexivity.
Qed.

Lemma parse_string_quote_unit (c : N) (x : jsstring) :
  is_high_surrogate c = false -> is_low_surrogate c = false ->
  parse_string (quote_unit c ++ x) = prepend c (parse_string x).
Proof.
  intros _ _. unfold quote_unit.
  repeat match goal with
         | |- context [if ?a =? ?b then _ else _] =>
             destruct (N.eqb_spec a b) as [->|?]; [reflexivity|]
         end.
  destruct (N.ltb_spec c 0x20).
  - apply parse_string_escape. lia.
  - now apply parse_string_raw.
Qed.

Lemma surrogate_bounds (c : N) :
  is_high_surrogate c = true \/ is_low_surrogate c = true ->
  0xD800 <= c <= 0xDFFF.
Proof.
  unfold is_high_surrogate, is_low_surrogate, in_range.
  intros [Hc|Hc]; apply andb_true_iff in Hc as [Hlo Hhi];
    apply N.leb_le in Hlo, Hhi; lia.
Qed.

(** Reading back what [quote] has written. *)
Lemma parse_string_quote_units (s rest : jsstring) :
  parse_string (quote_units s ++ 0x22 :: rest) = Some (s, rest).
Proof.
  induction s as [|c t IH IH'] using list_ind_pairs; [reflexivity|].
  cbn [quote_units].
  destruct (is_high_surrogate c) eqn:Hh.
  - pose proof (surrogate_bounds c (or_introl Hh)) as Hc.
    destruct t as [|d t'].
    + rewrite parse_string_escape by lia. reflexivity.
    + destruct (is_low_surrogate d) eqn:Hd.
      * pose proof (surrogate_bounds d (or_intror Hd)) as Hd'.
        cbn [app]. rewrite parse_string_raw by lia.
        rewrite parse_string_raw by lia.
        now rewrite (IH' d t' eq_refl).
      * rewrite <- app_assoc, parse_string_escape by lia. now rewrite IH.
  - destruct (is_low_surrogate c) eqn:Hl.
    + pose proof (surrogate_bounds c (or_intror Hl)) as Hc.
      rewrite <- app_assoc, parse_string_escape by lia. now rewrite IH.
    + rewrite <- app_assoc, parse_string_quote_unit by assumption.
      now rewrite IH.
Qed.

Local Close Scope N_scope.

(** Induction on values, with the hypothesis for every element of an array
    and every property value of an object. *)
Lemma JsVal_nested_ind (P : JsVal -> Prop) :
  P JUndefined -> P JNull -> (forall b, P (JBool b)) ->
  (forall n, P (JNum n)) -> (forall s, P (JStr s)) ->
  (forall items, Forall P items -> P (JArr items)) ->
  (forall fields, Forall (fun kv => P (snd kv)) fields -> P (JObj fields)) ->
  forall v, P v.
Proof.
  intros Hu Hn Hb Hz Hs Ha Ho.
  fix IH 1.
  intros [| |b|n|s|items|fields];
    [exact Hu | exact Hn | apply Hb | apply Hz | apply Hs | | ].
  - apply Ha.
    exact ((fix all (l : list JsVal) : Forall P l :=
              match l with
              | [] => Forall_nil P
              | x :: l' => Forall_cons x (IH x) (all l')
              end) items).
  - apply Ho.
    exact ((fix all (l : list (jsstring * JsVal))
              : Forall (fun kv => P (snd kv)) l :=
              match l with
              | [] => Forall_nil _
              | kv :: l' => Forall_cons kv (IH (snd kv)) (all l')
              end) fields).
Qed.

Lemma is_json_arr (items : list JsVal) :
  is_json (JArr items) = forallb is_json items.
Proof. induction items as [|x l IH]; cbn in *; congruence. Qed.

Lemma is_json_obj (fields : list (jsstring * JsVal)) :
  is_json (JObj fields) = distinct_json_fields fields.
Proof.
  induction fields as [|[k x] l IH]; [reflexivity|].
  cbn [distinct_json_fields]. rewrite <- IH. reflexivity.
Qed.

Lemma serialize_arr (items : list JsVal) :
  serialize [] [] (JArr items)
  = Some (bracket [] [] 0x5B%N 0x5D%N (map compact items)).
Proof. reflexivity. Qed.

Lemma serialize_json (v : JsVal) :
  is_json v = true -> serialize [] [] v = Some (compact v).
Proof.
  unfold compact, JSON_stringify.
  destruct v as [| |[|]| | | |]; try discriminate; reflexivity.
Qed.

Lemma serialize_obj (fields : list (jsstring * JsVal)) :
  forallb (fun kv => is_json (snd kv)) fields = true ->
  serialize [] [] (JObj fields)
  = Some (bracket [] [] 0x7B%N 0x7D%N (map member fields)).
Proof.
  intros Hj. cbn [serialize]. do 2 f_equal.
  induction fields as [|[k x] l IH]; [reflexivity|].
  cbn [forallb snd] in Hj. apply andb_true_iff in Hj as [Hx Hl].
  cbn [map member app]. rewrite <- (IH Hl).
  change ([] ++ []) with (@nil N).
  now rewrite (serialize_json x Hx).
Qed.

Lemma distinct_fields_json (fields : list (jsstring * JsVal)) :
  distinct_json_fields fields = true ->
  forallb (fun kv => is_json (snd kv)) fields = true.
Proof.
  induction fields as [|[k x] l IH]; [reflexivity|].
  cbn [distinct_json_fields forallb snd]. intros Hd.
  apply andb_true_iff in Hd as [Hd Hl]. apply andb_true_iff in Hd as [Hx _].
  rewrite Hx. cbn. now apply IH.
Qed.

Lemma parse_digits_step (k : N) (acc : Z) (t : jsstring) :
  (k < 10)%N ->
  parse_digits acc ((0x30 + k)%N :: t) = parse_digits (acc * 10 + Z.of_N k) t.
Proof.
  intros Hk. cbn [parse_digits].
  unfold is_digit, in_range.
  destruct (N.leb_spec 0x30 (0x30 + k)); [|lia].
  destruct (N.leb_spec (0x30 + k) 0x39); [|lia].
  cbn [andb]. do 2 f_equal. lia.
Qed.

Ltac digit k IH :=
  match goal with
  | |- parse_digits ?a (lit (NilEmpty.string_of_uint (_ ?d)) ++ ?rest) = _ =>
      change (lit (NilEmpty.string_of_uint (_ d)) ++ rest)
        with ((0x30 + k)%N :: (lit (NilEmpty.string_of_uint d) ++ rest));
      rewrite parse_digits_step by (cbv; reflexivity);
      cbn [Pos.of_uint_acc];
      match goal with
      | |- parse_digits ?b _ = (Z.pos (Pos.of_uint_acc _ ?p), _) =>
          replace b with (Z.pos p) by lia
      end;
      now apply IH
  end.

Lemma parse_digits_uint (d : Decimal.uint) : forall (acc : positive) (rest : jsstring),
  not_digit_next rest = true ->
  parse_digits (Z.pos acc) (lit (NilEmpty.string_of_uint d) ++ rest)
  = (Z.pos (Pos.of_uint_acc d acc), rest).
Proof.
  induction d; intros acc rest Hrest.
  - cbn. destruct rest as [|c t]; [reflexivity|]. cbn in Hrest.
    cbn. apply negb_true_iff in Hrest. now rewrite Hrest.
  - digit 0%N IHd.
  - digit 1%N IHd.
  - digit 2%N IHd.
  - digit 3%N IHd.
  - digit 4%N IHd.
  - digit 5%N IHd.
  - digit 6%N IHd.
  - digit 7%N IHd.
  - digit 8%N IHd.
  - digit 9%N IHd.
Qed.

Lemma to_uint_leading (p : positive) :
  exists k d, (1 <= k < 10)%N /\ 
    lit (NilEmpty.string_of_uint (Pos.to_uint p)) = (0x30 + k)%N :: lit (NilEmpty.string_of_uint d) /\
    Pos.of_uint_acc d (N.succ_pos (N.pred k)) = p.
Proof.
  pose proof (DecimalPos.Unsigned.of_to p) as Hof.
  pose proof (DecimalPos.Unsigned.to_of (Pos.to_uint p)) as Hnorm.
  rewrite Hof in Hnorm. cbn [N.to_uint] in Hnorm.
  destruct (Pos.to_uint p) as [|d|d|d|d|d|d|d|d|d|d] eqn:E.
  - discriminate.
  - exfalso. unfold Decimal.unorm in Hnorm. 
    destruct (Decimal.nzhead (Decimal.D0 d)) eqn:Hz; try discriminate.
    + injection Hnorm as Hd. subst d. exact (DecimalPos.Unsigned.to_uint_nonzero p E).
    + apply (DecimalFacts.nzhead_nonzero _ _ Hz).
  - exists 1%N, d. split; [lia|]. split; [reflexivity|]. cbn in Hof. now injection Hof.
  - exists 2%N, d. split; [lia|]. split; [reflexivity|]. cbn in Hof. now injection Hof.
  - exists 3%N, d. split; [lia|]. split; [reflexivity|]. cbn in Hof. now injection Hof.
  - exists 4%N, d. split; [lia|]. split; [reflexivity|]. cbn in Hof. now injection Hof.
  - exists 5%N, d. split; [lia|]. split; [reflexivity|]. cbn in Hof. now injection Hof.
  - exists 6%N, d. split; [lia|]. split; [reflexivity|]. cbn in Hof. now injection Hof.
  - exists 7%N, d. split; [lia|]. split; [reflexivity|]. cbn in Hof. now injection Hof.
  - exists 8%N, d. split; [lia|]. split; [reflexivity|]. cbn in Hof. now injection Hof.
  - exists 9%N, d. split; [lia|]. split; [reflexivity|]. cbn in Hof. now injection Hof.
Qed.

Lemma parse_int_pos (p : positive) (rest : jsstring) :
  delimited rest = true ->
  parse_int (of_Z (Z.pos p) ++ rest) = Some (Z.pos p, rest).
Proof.
  intros Hrest.
  assert (Hnd : not_digit_next rest = true).
  { destruct rest as [|c t]; [reflexivity|]. cbn in *.
    repeat (apply orb_true_iff in Hrest as [Hrest|Hrest]);
      apply N.eqb_eq in Hrest; subst c; reflexivity. }
  unfold of_Z. cbn [Z.to_int NilZero.string_of_int].
  destruct (to_uint_leading p) as (k & d & Hk & Htext & Hval).
  assert (Hnz : NilZero.string_of_uint (Pos.to_uint p)
                = NilEmpty.string_of_uint (Pos.to_uint p)).
  { destruct (Pos.to_uint p) eqn:E; try reflexivity.
    now apply DecimalPos.Unsigned.to_uint_nonnil in E. }
  assert (Hdig : is_digit (0x30 + k) = true).
  { unfold is_digit, in_range. apply andb_true_iff.
    split; apply N.leb_le; lia. }
  rewrite Hnz, Htext, <- app_comm_cons. unfold parse_int. rewrite Hdig.
  destruct (N.eqb_spec (0x30 + k) 0x30); [lia|].
  replace (Z.of_N (0x30 + k - 0x30)) with (Z.pos (N.succ_pos (N.pred k))).
  2:{ pose proof (N.succ_pos_spec (N.pred k)) as Hs.
      apply (f_equal Z.of_N) in Hs. cbn [Z.of_N] in Hs. lia. }
  rewrite parse_digits_uint by exact Hnd. rewrite Hval.
  destruct rest as [|c t]; [reflexivity|].
  cbn in Hrest.
  repeat (apply orb_true_iff in Hrest as [Hrest|Hrest]);
    apply N.eqb_eq in Hrest; subst c; reflexivity.
Qed.

Lemma parse_int_zero (rest : jsstring) :
  delimited rest = true ->
  parse_int (of_Z 0 ++ rest) = Some (0%Z, rest).
Proof.
  intros Hrest. cbn.
  destruct rest as [|c t]; [reflexivity|].
  cbn in Hrest.
  repeat (apply orb_true_iff in Hrest as [Hrest|Hrest]);
    apply N.eqb_eq in Hrest; subst c; reflexivity.
Qed.

Lemma parse_number (n : Z) (rest : jsstring) (fuel : nat) :
  delimited rest = true ->
  parse_value (S fuel) (of_Z n ++ rest) = Some (JNum n, rest).
Proof.
  intros Hrest. destruct n as [|p|p].
  - pose proof (parse_int_zero rest Hrest) as Hz.
    change (of_Z 0 ++ rest) with (0x30%N :: rest) in *.
    cbn [parse_value skip_ws]. change (is_json_space 0x30) with false.
    cbn iota. 
    change (0x30 =? 0x22)%N with false. change (0x30 =? 0x5B)%N with false.
    change (0x30 =? 0x7B)%N with false. change (0x30 =? 0x74)%N with false.
    change (0x30 =? 0x66)%N with false. change (0x30 =? 0x6E)%N with false.
    change (0x30 =? 0x2D)%N with false. cbn iota. now rewrite Hz.
  - pose proof (parse_int_pos p rest Hrest) as Hp.
    destruct (to_uint_leading p) as (k & d & Hk & Htext & _).
    assert (Hnz : NilZero.string_of_uint (Pos.to_uint p)
                  = NilEmpty.string_of_uint (Pos.to_uint p)).
    { destruct (Pos.to_uint p) eqn:E; try reflexivity.
      now apply DecimalPos.Unsigned.to_uint_nonnil in E. }
    assert (Htxt : of_Z (Z.pos p) = (0x30 + k)%N :: lit (NilEmpty.string_of_uint d)).
    { unfold of_Z. cbn [Z.to_int NilZero.string_of_int]. now rewrite Hnz. }
    rewrite Htxt in *. rewrite <- app_comm_cons in *.
    cbn [parse_value skip_ws].
    assert (Hc : forall x, (x < 0x30)%N \/ (0x39 < x)%N -> ((0x30 + k =? x)%N = false))
      by (intros x Hx; apply N.eqb_neq; lia).
    unfold is_json_space.
    rewrite (Hc 32%N), (Hc 9%N), (Hc 10%N), (Hc 13%N) by lia. cbn [orb].
    rewrite (Hc 34%N), (Hc 91%N), (Hc 123%N), (Hc 116%N), (Hc 102%N),
      (Hc 110%N), (Hc 45%N) by lia.
    now rewrite Hp.
  - pose proof (parse_int_pos p rest Hrest) as Hp.
    assert (Htxt : of_Z (Z.neg p) = 0x2D%N :: of_Z (Z.pos p)).
    { reflexivity. }
    rewrite Htxt, <- app_comm_cons.
    cbn [parse_value skip_ws]. change (is_json_space 0x2D) with false.
    cbn iota.
    change (0x2D =? 0x22)%N with false. change (0x2D =? 0x5B)%N with false.
    change (0x2D =? 0x7B)%N with false. change (0x2D =? 0x74)%N with false.
    change (0x2D =? 0x66)%N with false. change (0x2D =? 0x6E)%N with false.
    change (0x2D =? 0x2D)%N with true. cbn iota. now rewrite Hp.
Qed.

Lemma join_comma (t : jsstring) (ts : list jsstring) :
  join [0x2C%N] (t :: ts) = t ++ flat_map (cons 0x2C%N) ts.
Proof.
  revert t; induction ts as [|u ts IH]; intros t.
  - cbn. now rewrite app_nil_r.
  - change (join [0x2C%N] (t :: u :: ts))
      with (t ++ [0x2C%N] ++ join [0x2C%N] (u :: ts)).
    rewrite IH. reflexivity.
Qed.

Lemma size_arr (items : list JsVal) : size (JArr items) = 2 + sizes items.
Proof. reflexivity. Qed.

Lemma size_obj (fields : list (jsstring * JsVal)) :
  size (JObj fields) = 2 + member_sizes fields.
Proof. reflexivity. Qed.

Lemma skip_ws_plain (c : N) (t : jsstring) :
  is_json_space c = false -> skip_ws (c :: t) = c :: t.
Proof. intros Hc. cbn. now rewrite Hc. Qed.

Lemma size_pos (v : JsVal) : 1 <= size v.
Proof. destruct v; cbn; lia. Qed.

Lemma parse_elements_back (xs : list JsVal) :
  Forall reads_back xs -> forallb is_json xs = true ->
  forall fuel acc rest,
    S (sizes xs) <= fuel ->
    parse_elements fuel acc
      (flat_map (cons 0x2C%N) (map compact xs) ++ 0x5D%N :: rest)
    = Some (JArr (rev acc ++ xs), rest).
Proof.
  induction 1 as [|x xs Hx _ IH]; intros Hj fuel acc rest Hfuel.
  - destruct fuel as [|fuel]; [lia|]. cbn. now rewrite app_nil_r.
  - cbn [forallb] in Hj. apply andb_true_iff in Hj as [Hjx Hjxs].
    destruct (Hx Hjx) as (Hparse & _ & _).
    destruct fuel as [|fuel]; [lia|]. cbn [sizes fold_right] in Hfuel.
    cbn [map flat_map]. rewrite <- app_assoc. cbn [app parse_elements].
    rewrite skip_ws_plain by reflexivity.
    change (0x2C =? 0x5D)%N with false. change (0x2C =? 0x2C)%N with true.
    cbn iota.
    rewrite Hparse.
    + rewrite IH; [|exact Hjxs|].
      * cbn [rev]. now rewrite <- app_assoc.
      * fold (sizes xs) in Hfuel. pose proof (size_pos x). lia.
    + fold (sizes xs) in Hfuel. lia.
    + clear IH Hfuel. destruct xs; reflexivity.
Qed.

Lemma eqb_spec (a b : jsstring) : reflect (a = b) (JsString.eqb a b).
Proof.
  revert b; induction a as [|x a IH]; intros [|y b]; cbn;
    try (constructor; congruence).
  destruct (N.eqb_spec x y) as [->|Hne]; cbn.
  - destruct (IH b) as [->|Hne]; constructor; congruence.
  - constructor; congruence.
Qed.

Lemma obj_set_fresh (k : jsstring) (v : JsVal) (acc : list (jsstring * JsVal)) :
  has_field k acc = false -> obj_set k v acc = acc ++ [(k, v)].
Proof.
  induction acc as [|[k' v'] acc IH]; [reflexivity|].
  cbn [has_field existsb fst obj_set app]. intros Hf.
  apply orb_false_iff in Hf as [Hk Hf]. rewrite Hk.
  f_equal. now apply IH.
Qed.

Lemma has_field_app (k : jsstring) (a b : list (jsstring * JsVal)) :
  has_field k (a ++ b) = has_field k a || has_field k b.
Proof. unfold has_field. apply existsb_app. Qed.

Lemma parse_member_back (fields : list (jsstring * JsVal)) :
  Forall (fun kv => reads_back (snd kv)) fields ->
  forall k x fuel acc rest,
    reads_back x ->
    distinct_json_fields ((k, x) :: fields) = true ->
    forallb (fun kv => negb (has_field (fst kv) acc)) ((k, x) :: fields) = true ->
    member_sizes ((k, x) :: fields) <= fuel ->
    parse_member fuel acc
      (member (k, x) ++ flat_map (cons 0x2C%N) (map member fields)
         ++ 0x7D%N :: rest)
    = Some (JObj (acc ++ (k, x) :: fields), rest).
Proof.
  induction 1 as [|[k' x'] fields Hx' _ IH];
    intros k x fuel acc rest Hx Hd Hfresh Hfuel;
    cbn [distinct_json_fields] in Hd;
    apply andb_true_iff in Hd as [Hd Hrest];
    apply andb_true_iff in Hd as [Hjx Hk];
    cbn [forallb fst] in Hfresh;
    apply andb_true_iff in Hfresh as [Hkacc Hfresh];
    apply negb_true_iff in Hkacc;
    destruct (Hx Hjx) as (Hparse & _ & _);
    (destruct fuel as [|fuel]; [cbn in Hfuel; lia|]);
    unfold member at 1; cbn [fst snd]; unfold quote;
    rewrite <- !app_assoc; cbn [app parse_member];
    rewrite skip_ws_plain by reflexivity;
    change (0x22 =? 0x22)%N with true; cbn iota; rewrite <- app_assoc; cbn [app];
    rewrite parse_string_quote_units;
    rewrite skip_ws_plain by reflexivity;
    change (0x3A =? 0x3A)%N with true; cbn iota.
  - cbn [map flat_map app]. rewrite Hparse; [|cbn in Hfuel; lia|reflexivity].
    rewrite skip_ws_plain by reflexivity.
    change (0x7D =? 0x7D)%N with true. cbn iota.
    now rewrite obj_set_fresh.
  - cbn [map flat_map]. rewrite <- app_assoc. cbn [app].
    rewrite Hparse; [|cbn in Hfuel; lia|reflexivity].
    rewrite skip_ws_plain by reflexivity.
    change (0x2C =? 0x7D)%N with false. change (0x2C =? 0x2C)%N with true.
    cbn iota. rewrite obj_set_fresh by exact Hkacc.
    rewrite (IH k' x' fuel (acc ++ [(k, x)]) rest).
    + now rewrite <- app_assoc.
    + exact Hx'.
    + exact Hrest.
    + cbn [forallb fst] in *. 
      apply andb_true_iff in Hfresh as [Hk'acc Hfresh].
      apply negb_true_iff in Hk, Hk'acc.
      cbn [has_field existsb fst] in Hk. apply orb_false_iff in Hk as [Hkk' Hk].
      apply andb_true_iff. split.
      * rewrite has_field_app, Hk'acc. cbn [has_field existsb fst orb].
        rewrite orb_false_r.
        apply negb_true_iff.
        destruct (eqb_spec k' k) as [->|Hne]; [|reflexivity].
        destruct (eqb_spec k k); congruence.
      * apply forallb_forall. intros kv Hin.
        rewrite forallb_forall in Hfresh. specialize (Hfresh kv Hin).
        apply negb_true_iff in Hfresh. apply negb_true_iff.
        rewrite has_field_app, Hfresh. cbn [has_field existsb fst orb].
        rewrite orb_false_r.
        destruct (eqb_spec (fst kv) k) as [E|Hne]; [|reflexivity].
        exfalso. unfold has_field in Hk.
        assert (Hex : existsb (fun kv0 => JsString.eqb k (fst kv0)) fields = true).
        { apply existsb_exists. exists kv. split; [exact Hin|].
          rewrite E. now destruct (eqb_spec k k). }
        congruence.
    + cbn [member_sizes fold_right snd] in *. lia.
Qed.

Lemma length_flat_commas (ts : list jsstring) :
  total_length ts <= List.length (flat_map (cons 0x2C%N) ts).
Proof.
  induction ts as [|t ts IH]; [reflexivity|].
  cbn [total_length fold_right flat_map]. rewrite length_app.
  cbn [List.length]. unfold total_length in IH. lia.
Qed.

Lemma bracket_text (o c : N) (t : jsstring) (ts : list jsstring) :
  bracket [] [] o c (t :: ts)
  = o :: t ++ flat_map (cons 0x2C%N) ts ++ [c].
Proof.
  unfold bracket. rewrite join_comma. now rewrite <- app_assoc.
Qed.

Lemma length_bracket (o c : N) (ts : list jsstring) :
  2 + total_length ts <= List.length (bracket [] [] o c ts).
Proof.
  destruct ts as [|t ts]; [reflexivity|]. rewrite bracket_text.
  pose proof (length_flat_commas ts) as Hl.
  cbn [List.length total_length fold_right]. rewrite !length_app.
  cbn [List.length]. unfold total_length in Hl. lia.
Qed.

Lemma sizes_le_length (xs : list JsVal) :
  Forall reads_back xs -> forallb is_json xs = true ->
  sizes xs <= total_length (map compact xs).
Proof.
  induction 1 as [|x xs Hx _ IH]; [reflexivity|].
  cbn [forallb]. intros Hj. apply andb_true_iff in Hj as [Hjx Hjxs].
  destruct (Hx Hjx) as (_ & _ & Hlen). specialize (IH Hjxs).
  cbn [map].
  change (sizes (x :: xs)) with (size x + sizes xs).
  change (total_length (compact x :: map compact xs))
    with (List.length (compact x) + total_length (map compact xs)).
  lia.
Qed.

Lemma member_sizes_le_length (fields : list (jsstring * JsVal)) :
  Forall (fun kv => reads_back (snd kv)) fields ->
  forallb (fun kv => is_json (snd kv)) fields = true ->
  member_sizes fields <= total_length (map member fields).
Proof.
  induction 1 as [|[k x] fields Hx _ IH]; [reflexivity|].
  cbn [forallb snd]. intros Hj. apply andb_true_iff in Hj as [Hjx Hjxs].
  destruct (Hx Hjx) as (_ & _ & Hlen). specialize (IH Hjxs).
  cbn [map].
  change (member_sizes ((k, x) :: fields))
    with (S (size x) + member_sizes fields).
  change (total_length (member (k, x) :: map member fields))
    with (List.length (member (k, x)) + total_length (map member fields)).
  assert (Hm : S (size x) <= List.length (member (k, x))).
  { unfold member. cbn [fst snd]. rewrite !length_app.
    cbn [List.length]. cbn [snd] in Hlen. lia. }
  lia.
Qed.

Theorem all_read_back (v : JsVal) : reads_back v.
Proof.
  induction v as [| |b|n|s|items IH|fields IH] using JsVal_nested_ind;
    intros Hj.
  - discriminate.
  - split; [|split].
    + intros [|fuel] rest Hfuel Hrest; [cbn in Hfuel; lia|]. reflexivity.
    + now exists 0x6E%N, (lit "ull").
    + cbn. lia.
  - split; [|split].
    + intros [|fuel] rest Hfuel Hrest; [cbn in Hfuel; lia|].
      destruct b; reflexivity.
    + destruct b; [now exists 0x74%N, (lit "rue") | now exists 0x66%N, (lit "alse")].
    + destruct b; cbn; lia.
  - split; [|split].
    + intros [|fuel] rest Hfuel Hrest; [cbn in Hfuel; lia|].
      now apply parse_number.
    + change (compact (JNum n)) with (of_Z n).
      destruct n as [|p|p].
      * now exists 0x30%N, [].
      * destruct (to_uint_leading p) as (k & d & Hk & Htext & _).
        assert (Hnz : NilZero.string_of_uint (Pos.to_uint p)
                      = NilEmpty.string_of_uint (Pos.to_uint p)).
        { destruct (Pos.to_uint p) eqn:E; try reflexivity.
          now apply DecimalPos.Unsigned.to_uint_nonnil in E. }
        exists (0x30 + k)%N, (lit (NilEmpty.string_of_uint d)).
        split; [|split].
        -- unfold of_Z. cbn [Z.to_int NilZero.string_of_int]. now rewrite Hnz.
        -- unfold is_json_space.
           repeat (apply orb_false_iff; split); apply N.eqb_neq; lia.
        -- apply N.eqb_neq; lia.
      * now exists 0x2D%N, (of_Z (Z.pos p)).
    + change (compact (JNum n)) with (of_Z n).
      destruct n as [|p|p]; [cbn; lia| |cbn; lia].
      destruct (to_uint_leading p) as (k & d & Hk & Htext & _).
      assert (Hnz : NilZero.string_of_uint (Pos.to_uint p)
                    = NilEmpty.string_of_uint (Pos.to_uint p)).
      { destruct (Pos.to_uint p) eqn:E; try reflexivity.
        now apply DecimalPos.Unsigned.to_uint_nonnil in E. }
      unfold of_Z. cbn [Z.to_int NilZero.string_of_int]. rewrite Hnz, Htext.
      cbn. lia.
  - split; [|split].
    + intros [|fuel] rest Hfuel Hrest; [cbn in Hfuel; lia|].
      change (compact (JStr s)) with (quote s). unfold quote.
      cbn [app parse_value]. rewrite skip_ws_plain by reflexivity.
      change (0x22 =? 0x22)%N with true. cbn iota.
      rewrite <- app_assoc. cbn [app].
      now rewrite parse_string_quote_units.
    + now exists 0x22%N, (quote_units s ++ [0x22%N]).
    + cbn. lia.
  - rewrite is_json_arr in Hj.
    change (compact (JArr items))
      with (bracket [] [] 0x5B%N 0x5D%N (map compact items)).
    split; [|split].
    + intros [|fuel] rest Hfuel Hrest; [cbn in Hfuel; lia|].
      rewrite size_arr in Hfuel.
      destruct items as [|x xs]; [reflexivity|].
      cbn [map]. rewrite bracket_text.
      cbn [forallb] in Hj. apply andb_true_iff in Hj as [Hjx Hjxs].
      apply Forall_cons_iff in IH as [Hx Hxs].
      destruct (Hx Hjx) as (Hparse & (c & t' & Htext & Hc & Hc') & _).
      cbn [app parse_value]. rewrite skip_ws_plain by reflexivity.
      change (0x5B =? 0x22)%N with false. change (0x5B =? 0x5B)%N with true.
      cbn iota. rewrite <- !app_assoc. cbn [app].
      rewrite Htext at 1. rewrite <- app_comm_cons.
      rewrite skip_ws_plain by exact Hc. rewrite Hc'.
      cbn [sizes fold_right] in Hfuel. fold (sizes xs) in Hfuel.
      rewrite Hparse; [|lia|clear; destruct xs; reflexivity].
      rewrite parse_elements_back; [reflexivity|exact Hxs|exact Hjxs|lia].
    + destruct items as [|x xs]; [now exists 0x5B%N, [0x5D%N]|].
      cbn [map]. rewrite bracket_text. eexists _, _. split; [reflexivity|].
      split; reflexivity.
    + rewrite size_arr.
      etransitivity; [|apply length_bracket].
      apply Nat.add_le_mono_l. now apply sizes_le_length.
  - rewrite is_json_obj in Hj.
    pose proof (distinct_fields_json fields Hj) as Hjs.
    assert (Htext : compact (JObj fields)
                    = bracket [] [] 0x7B%N 0x7D%N (map member fields)).
    { unfold compact, JSON_stringify. now rewrite serialize_obj. }
    rewrite Htext.
    split; [|split].
    + intros [|fuel] rest Hfuel Hrest; [cbn in Hfuel; lia|].
      rewrite size_obj in Hfuel.
      destruct fields as [|[k x] fields]; [reflexivity|].
      cbn [map]. rewrite bracket_text.
      apply Forall_cons_iff in IH as [Hx Hxs]. cbn [snd] in Hx.
      cbn [app parse_value]. rewrite skip_ws_plain by reflexivity.
      change (0x7B =? 0x22)%N with false. change (0x7B =? 0x5B)%N with false.
      change (0x7B =? 0x7B)%N with true. cbn iota.
      rewrite <- !app_assoc. cbn [app].
      assert (Hm : member (k, x)
                   = 0x22%N :: (quote_units k ++ [0x22%N]) ++ [0x3A%N]
                       ++ compact x) by reflexivity.
      rewrite Hm at 1. rewrite <- app_comm_cons.
      rewrite skip_ws_plain by reflexivity.
      change (0x22 =? 0x7D)%N with false. cbn iota.
      rewrite (@parse_member_back fields Hxs k x fuel [] rest Hx Hj);
        [reflexivity| |lia].
      clear. induction ((k, x) :: fields); [reflexivity|]. cbn. exact IHl.
    + destruct fields as [|[k x] fields]; [now exists 0x7B%N, [0x7D%N]|].
      cbn [map]. rewrite bracket_text. eexists _, _. split; [reflexivity|].
      split; reflexivity.
    + rewrite size_obj.
      etransitivity; [|apply length_bracket].
      apply Nat.add_le_mono_l. now apply member_sizes_le_length.
Qed.

(** [JSON.parse(JSON.stringify(v))] is [v]. *)
Theorem JSON_parse_stringify (v : JsVal) :
  is_json v = true ->
  exists t, JSON_stringify v = Some t /\ JSON_parse t = inr v.
Proof.
  intros Hj. exists (compact v). split.
  - unfold JSON_stringify. now apply serialize_json.
  - destruct (all_read_back v Hj) as (Hparse & _ & Hlen).
    unfold JSON_parse.
    rewrite <- (List.app_nil_r (compact v)) at 2.
    rewrite Hparse; [reflexivity|lia|reflexivity].
Qed.

End JsonFacts.

(** ** The persistence contract *)

Module RouteFacts.

Import ListFacts JsonFacts.

Lemma eqb_refl (k : jsstring) : JsString.eqb k k = true.
Proof. now destruct (eqb_spec k k). Qed.

Lemma obj_get_obj_set (name k : jsstring) (v : JsVal)
    (r : list (jsstring * JsVal)) :
  obj_get name (obj_set k v r)
  = if JsString.eqb name k then v else obj_get name r.
Proof.
  induction r as [|[k' v'] r IH]; cbn [obj_set obj_get].
  - now destruct (JsString.eqb name k).
  - destruct (eqb_spec k k') as [<-|Hkk']; cbn [obj_get].
    + now destruct (JsString.eqb name k).
    + destruct (eqb_spec name k') as [->|Hnk'].
      * destruct (eqb_spec k' k); congruence.
      * exact IH.
Qed.

Section Facts.
Variable parse_date : JsVal -> Z.
Variable aeo_column_is_json : bool.

Local Abbreviation kept := (Persistence.kept aeo_column_is_json).
Local Abbreviation keeps := (Persistence.keeps aeo_column_is_json).

Lemma obj_get_set_columns (name : jsstring) (cols : list (jsstring * JsVal)) :
  forall row,
    obj_get name (set_columns cols row)
    = last_value name cols (obj_get name row).
Proof.
  unfold set_columns, last_value.
  induction cols as [|[k v] cols IH]; intros row; [reflexivity|].
  cbn [fold_left fst snd]. rewrite IH, obj_get_obj_set. reflexivity.
Qed.

Lemma stringified_json (v : JsVal) :
  is_json v = true -> stringified v = text_of v.
Proof.
  intros Hj. unfold stringified, JSON_stringify. now rewrite serialize_json.
Qed.

Lemma JSON_parse_compact (v : JsVal) :
  is_json v = true -> JSON_parse (compact v) = inr v.
Proof.
  intros Hj. destruct (JSON_parse_stringify v Hj) as (t & Ht & Hp).
  unfold compact. now rewrite Ht.
Qed.

Lemma keeps_plain (name : jsstring) (v : JsVal) :
  JsString.eqb name (lit "aeoQuestions") = false -> keeps (name, v).
Proof. intros Hn. unfold Persistence.keeps, keep, kept. cbn [fst snd]. now rewrite Hn. Qed.

Lemma keeps_json (name : jsstring) (v : JsVal) :
  is_json v = true -> keeps (name, stringified v).
Proof.
  intros Hj. unfold Persistence.keeps, keep, kept. cbn [fst snd].
  destruct (_ && _); [|reflexivity].
  rewrite stringified_json by exact Hj. unfold text_of, stored_json.
  now rewrite JSON_parse_compact.
Qed.

Lemma map_sum_keep (cols : list (jsstring * JsVal)) :
  Forall keeps cols ->
  map_sum (keep aeo_column_is_json) cols = inr (map kept cols).
Proof.
  induction 1 as [|c cols Hc _ IH]; [reflexivity|].
  cbn [map_sum map]. unfold Persistence.keeps in Hc. now rewrite Hc, IH.
Qed.

Lemma kept_json_column (name : jsstring) (v : JsVal) :
  is_json v = true -> is_compound v = true ->
  parse_if_string (snd (kept (name, stringified v))) = inr v.
Proof.
  intros Hj Hc. unfold Persistence.kept, parse_if_string. cbn [fst snd].
  rewrite stringified_json by exact Hj. unfold text_of.
  destruct (_ && _).
  - unfold stored_json. rewrite JSON_parse_compact by exact Hj.
    destruct v; try discriminate; reflexivity.
  - cbn [stored]. now apply JSON_parse_compact.
Qed.

Lemma update_values_keep (fields : list (jsstring * JsVal)) :
  is_json (field fields "aeoQuestions") = true ->
  Forall keeps (update_values fields).
Proof.
  intros Hj. unfold update_values.
  repeat (apply Forall_cons; [first [apply keeps_plain; reflexivity | now apply keeps_json]|]).
  apply Forall_nil.
Qed.

Lemma map_sum_all {A B} (f : A -> JsError + B) (l : list A) :
  (forall x, In x l -> exists y, f x = inr y) ->
  exists ys, map_sum f l = inr ys /\
             forall x y, In x l -> f x = inr y -> In y ys.
Proof.
  induction l as [|a l IH]; intros Hall.
  - exists []. split; [reflexivity|]. intros x y [].
  - destruct (Hall a (or_introl eq_refl)) as (b & Hb).
    destruct IH as (ys & Hys & Hin); [intros x Hx; apply Hall; now right|].
    exists (b :: ys). cbn [map_sum]. rewrite Hb, Hys. split; [reflexivity|].
    intros x y [<-|Hx] Hy.
    + left. congruence.
    + right. eauto.
Qed.

Lemma in_insert_by_date (r row : Row) (sorted : list Row) :
  In r (insert_by_date row sorted) <-> r = row \/ In r sorted.
Proof.
  induction sorted as [|r0 rest IH]; cbn [insert_by_date].
  - cbn. intuition congruence.
  - destruct (_ <? _)%Z; cbn [In]; [intuition congruence|].
    rewrite IH. intuition congruence.
Qed.

Lemma in_newest_first (r : Row) (rows : list Row) :
  In r (newest_first rows) <-> In r rows.
Proof.
  unfold newest_first. induction rows as [|row rows IH]; [reflexivity|].
  cbn [fold_right In]. rewrite in_insert_by_date, IH. intuition congruence.
Qed.

Lemma GET_readable (st : Store) :
  readable st ->
  exists posts, GET st = ok (JArr posts) /\
                forall row o, In row st -> decode_row row = inr o -> In o posts.
Proof.
  intros Hr. unfold GET.
  destruct (map_sum_all decode_row (newest_first st)) as (posts & Hposts & Hin).
  - intros row Hrow. apply Hr. now apply in_newest_first.
  - exists posts. rewrite Hposts. split; [reflexivity|].
    intros row o Hrow. apply Hin. now apply in_newest_first.
Qed.

Lemma compact_truthy (v : JsVal) :
  is_json v = true -> truthy (JStr (compact v)) = true.
Proof.
  intros Hj. destruct (all_read_back v Hj) as (_ & (c & t & -> & _) & _).
  reflexivity.
Qed.

(** A row whose three JSON cells hold the texts of [kw], [aq] and [sp]
    decodes to a post with these three values and with booleans for the
    two flags. *)
Lemma decode_saved_row (row : Row) (kw aq sp : JsVal) :
  is_json kw = true -> obj_get (lit "keywords") row = JStr (compact kw) ->
  parse_if_string (obj_get (lit "aeoQuestions") row) = inr aq ->
  is_json sp = true -> obj_get (lit "steps") row = JStr (compact sp) ->
  exists o,
    decode_row row = inr (JObj o) /\
    obj_get (lit "id") o = obj_get (lit "id") row /\
    obj_get (lit "keywords") o = kw /\
    obj_get (lit "aeoQuestions") o = aq /\
    obj_get (lit "steps") o = sp /\
    obj_get (lit "commercialIntent") o
    = Boolean (obj_get (lit "commercialIntent") row) /\
    obj_get (lit "isHowTo") o = Boolean (obj_get (lit "isHowTo") row).
Proof.
  intros Hjkw Hkw Haq Hjsp Hsp. unfold decode_row, parse_or_empty.
  rewrite Hkw, Hsp, Haq, !compact_truthy by assumption.
  unfold JSON_parse_any. rewrite !JSON_parse_compact by assumption.
  eexists. split; [reflexivity|].
  repeat split; rewrite !obj_get_obj_set; reflexivity.
Qed.

Lemma fst_kept (c : jsstring * JsVal) : fst (kept c) = fst c.
Proof. reflexivity. Qed.

Ltac decide_names :=
  repeat match goal with
         | |- context [JsString.eqb (lit ?a) (lit ?b)] =>
             let r := eval vm_compute in (JsString.eqb (lit a) (lit b)) in
             change (JsString.eqb (lit a) (lit b)) with r
         end.

Ltac last_column :=
  unfold last_value, update_values, insert_values;
  cbn [map fold_left]; rewrite ?fst_kept; cbn [fst];
  decide_names; cbn iota.

Lemma updated_columns (fields : list (jsstring * JsVal)) (row : Row) :
  let r := set_columns (map kept (update_values fields)) row in
  obj_get (lit "id") r = obj_get (lit "id") row /\
  obj_get (lit "keywords") r
  = snd (kept (lit "keywords", stringified (field fields "keywords"))) /\
  obj_get (lit "aeoQuestions") r
  = snd (kept (lit "aeoQuestions",
               stringified (field fields "aeoQuestions"))) /\
  obj_get (lit "steps") r
  = snd (kept (lit "steps",
               stringified (js_or (field fields "steps") empty_array))) /\
  obj_get (lit "commercialIntent") r
  = one_or_zero (field fields "commercialIntent") /\
  obj_get (lit "isHowTo") r = one_or_zero (field fields "isHowTo").
Proof.
  cbv zeta. rewrite !obj_get_set_columns.
  repeat split; last_column; reflexivity.
Qed.

Lemma inserted_columns (fields : list (jsstring * JsVal)) :
  let r := map kept (insert_values parse_date fields) in
  obj_get (lit "id") r = stored (field fields "id") /\
  obj_get (lit "keywords") r
  = snd (kept (lit "keywords", stringified (field fields "keywords"))) /\
  obj_get (lit "aeoQuestions") r
  = snd (kept (lit "aeoQuestions",
               stringified (field fields "aeoQuestions"))) /\
  obj_get (lit "steps") r
  = snd (kept (lit "steps",
               stringified (js_or (field fields "steps") empty_array))) /\
  obj_get (lit "commercialIntent") r
  = one_or_zero (field fields "commercialIntent") /\
  obj_get (lit "isHowTo") r = one_or_zero (field fields "isHowTo").
Proof.
  cbv zeta. unfold insert_values, update_values, Persistence.kept.
  cbn [map obj_get fst snd]. decide_names. cbn [andb].
  repeat split; reflexivity.
Qed.

Lemma kept_text (name : string) (v : JsVal) :
  JsString.eqb (lit name) (lit "aeoQuestions") = false ->
  is_json v = true ->
  snd (kept (lit name, stringified v)) = JStr (compact v).
Proof.
  intros Hn Hj. unfold Persistence.kept. cbn [fst snd]. rewrite Hn. cbn [andb].
  now rewrite stringified_json.
Qed.

(** A row with the columns that saving [fields] writes decodes to a post
    with the values of [fields]. *)
Lemma decode_written_row (fields : list (jsstring * JsVal)) (row : Row) :
  let kw := field fields "keywords" in
  let aq := field fields "aeoQuestions" in
  let sp := js_or (field fields "steps") empty_array in
  is_json kw = true ->
  is_json aq = true -> is_compound aq = true ->
  is_json sp = true ->
  obj_get (lit "keywords") row
  = snd (kept (lit "keywords", stringified kw)) ->
  obj_get (lit "aeoQuestions") row
  = snd (kept (lit "aeoQuestions", stringified aq)) ->
  obj_get (lit "steps") row = snd (kept (lit "steps", stringified sp)) ->
  obj_get (lit "commercialIntent") row
  = one_or_zero (field fields "commercialIntent") ->
  obj_get (lit "isHowTo") row = one_or_zero (field fields "isHowTo") ->
  exists o,
    decode_row row = inr (JObj o) /\
    obj_get (lit "id") o = obj_get (lit "id") row /\
    obj_get (lit "keywords") o = kw /\
    obj_get (lit "aeoQuestions") o = aq /\
    obj_get (lit "steps") o = sp /\
    obj_get (lit "commercialIntent") o
    = JBool (truthy (field fields "commercialIntent")) /\
    obj_get (lit "isHowTo") o = JBool (truthy (field fields "isHowTo")).
Proof.
  intros kw aq sp Hkw Haq Haqc Hsp Rkw Raq Rsp Rc Rh.
  rewrite kept_text in Rkw, Rsp by (assumption || reflexivity).
  destruct (@decode_saved_row row kw aq sp Hkw Rkw) as (o & Ho & Hid & Hk & Ha & Hs & Hc & Hh);
    [rewrite Raq; apply kept_json_column; assumption | exact Hsp | exact Rsp |].
  exists o. rewrite Hc, Hh, Rc, Rh.
  repeat split; try assumption;
    unfold Boolean, one_or_zero; now destruct (truthy (field fields _)).
Qed.

(** C7.  A post saved with [POST] and listed again with [GET] comes back
    with its [keywords], [aeoQuestions] and [steps] as they were, arrays
    and objects again and not their JSON texts, and with its
    [commercialIntent] and [isHowTo] as booleans, true exactly when the
    posted flag was truthy, while the row keeps the flags as the integers
    1 and 0 and the lists as texts.  This holds for every store whose rows
    can be read, which saving preserves, for a post that is new and for one
    that replaces a row with the same id, and whether the column of
    [aeoQuestions] is a text or a JSON column; absent [steps] come back as
    the empty array. *)
Theorem saved_post_is_listed_with_its_fields
    (st : Store) (fields : list (jsstring * JsVal)) (k : jsstring) :
  let kw := field fields "keywords" in
  let aq := field fields "aeoQuestions" in
  let sp := js_or (field fields "steps") empty_array in
  readable st ->
  key_of (field fields "id") = Some k ->
  is_json kw = true ->
  is_json aq = true -> is_compound aq = true ->
  is_json sp = true ->
  exists st' row posts o,
    POST parse_date aeo_column_is_json (JObj fields) st = (ok saved, st') /\
    readable st' /\
    In row st' /\ has_key k row = true /\
    obj_get (lit "commercialIntent") row
    = JNum (if truthy (field fields "commercialIntent") then 1 else 0) /\
    obj_get (lit "isHowTo") row
    = JNum (if truthy (field fields "isHowTo") then 1 else 0) /\
    obj_get (lit "keywords") row = JStr (compact kw) /\
    obj_get (lit "steps") row = JStr (compact sp) /\
    GET st' = ok (JArr posts) /\
    In (JObj o) posts /\
    key_of (obj_get (lit "id") o) = Some k /\
    obj_get (lit "keywords") o = kw /\
    obj_get (lit "aeoQuestions") o = aq /\
    obj_get (lit "steps") o = sp /\
    obj_get (lit "commercialIntent") o
    = JBool (truthy (field fields "commercialIntent")) /\
    obj_get (lit "isHowTo") o = JBool (truthy (field fields "isHowTo")).
Proof.
  intros kw aq sp Hread Hid Hkw Haq Haqc Hsp.
  pose proof (@map_sum_keep _ (update_values_keep fields Haq)) as Hupd.
  assert (Hins : map_sum (keep aeo_column_is_json) (insert_values parse_date fields)
                 = inr (map kept (insert_values parse_date fields))).
  { apply map_sum_keep. unfold insert_values.
    do 2 (apply Forall_cons; [apply keeps_plain; reflexivity|]).
    now apply update_values_keep. }
  unfold POST, get_prop, upsert. fold (field fields "id"). rewrite Hid.
  destruct (existsb (has_key k) st) eqn:Hex.
  - rewrite Hupd.
    apply existsb_exists in Hex as (row0 & Hrow0 & Hkey0).
    set (cols := map kept (update_values fields)).
    set (st' := map (fun row => if has_key k row then set_columns cols row
                                else row) st).
    destruct (updated_columns fields row0) as (Uid & Ukw & Uaq & Usp & Uc & Uh).
    fold cols in Uid, Ukw, Uaq, Usp, Uc, Uh.
    assert (Hread' : readable st').
    { intros r Hr. apply in_map_iff in Hr as (r0 & <- & Hr0).
      destruct (has_key k r0); [|now apply Hread].
      destruct (updated_columns fields r0) as (_ & Vkw & Vaq & Vsp & Vc & Vh).
      destruct (@decode_written_row fields (set_columns cols r0)
                  Hkw Haq Haqc Hsp Vkw Vaq Vsp Vc Vh) as (o & Ho & _).
      eauto. }
    destruct (@decode_written_row fields (set_columns cols row0)
                Hkw Haq Haqc Hsp Ukw Uaq Usp Uc Uh)
      as (o & Ho & Oid & Okw & Oaq & Osp & Oc & Oh).
    destruct (@GET_readable _ Hread') as (posts & Hget & Hposts).
    assert (Hin : In (set_columns cols row0) st').
    { apply in_map_iff. exists row0. now rewrite Hkey0. }
    exists st', (set_columns cols row0), posts, o.
    split; [reflexivity|]. split; [exact Hread'|]. split; [exact Hin|].
    split; [unfold has_key in *; now rewrite Uid|].
    split; [exact Uc|]. split; [exact Uh|].
    split; [rewrite Ukw; now apply kept_text|].
    split; [rewrite Usp; now apply kept_text|].
    split; [exact Hget|]. split; [now apply (Hposts _ _ Hin)|].
    split; [rewrite Oid, Uid; unfold has_key in Hkey0;
            destruct (key_of (obj_get (lit "id") row0)) as [k0|];
            [destruct (eqb_spec k k0); congruence | discriminate]|].
    repeat split; assumption.
  - rewrite Hins.
    set (row := map kept (insert_values parse_date fields)).
    destruct (inserted_columns fields) as (Uid & Ukw & Uaq & Usp & Uc & Uh).
    fold row in Uid, Ukw, Uaq, Usp, Uc, Uh.
    destruct (@decode_written_row fields row
                Hkw Haq Haqc Hsp Ukw Uaq Usp Uc Uh)
      as (o & Ho & Oid & Okw & Oaq & Osp & Oc & Oh).
    assert (Hread' : readable (st ++ [row])).
    { intros r Hr. apply in_app_iff in Hr as [Hr|[<-|[]]];
        [now apply Hread | eauto]. }
    destruct (@GET_readable _ Hread') as (posts & Hget & Hposts).
    assert (Hin : In row (st ++ [row])) by (apply in_app_iff; right; now left).
    assert (Hkey : key_of (obj_get (lit "id") row) = Some k).
    { rewrite Uid. destruct (field fields "id"); try discriminate; exact Hid. }
    exists (st ++ [row]), row, posts, o.
    split; [reflexivity|]. split; [exact Hread'|]. split; [exact Hin|].
    split; [unfold has_key; rewrite Hkey; apply eqb_refl|].
    split; [exact Uc|]. split; [exact Uh|].
    split; [rewrite Ukw; now apply kept_text|].
    split; [rewrite Usp; now apply kept_text|].
    split; [exact Hget|]. split; [now apply (Hposts _ _ Hin)|].
    split; [now rewrite Oid|].
    repeat split; assumption.
Qed.

End Facts.

Lemma saved_post_is_listed_with_its_fields_witness :
  let post := Demo.guide [lit "List income"; lit "List costs"; lit "Compare"] true in
  let fields := Demo.properties post in
  exists st' row posts o,
    POST Demo.epoch false (JObj fields) [] = (ok saved, st') /\
    readable st' /\
    In row st' /\ has_key (id post) row = true /\
    obj_get (lit "commercialIntent") row
    = JNum (if truthy (field fields "commercialIntent") then 1 else 0) /\
    obj_get (lit "isHowTo") row
    = JNum (if truthy (field fields "isHowTo") then 1 else 0) /\
    obj_get (lit "keywords") row = JStr (compact (field fields "keywords")) /\
    obj_get (lit "steps") row
    = JStr (compact (js_or (field fields "steps") empty_array)) /\
    GET st' = ok (JArr posts) /\
    In (JObj o) posts /\
    key_of (obj_get (lit "id") o) = Some (id post) /\
    obj_get (lit "keywords") o = of_strings (keywords post) /\
    obj_get (lit "aeoQuestions") o = field fields "aeoQuestions" /\
    obj_get (lit "steps") o
    = of_strings [lit "List income"; lit "List costs"; lit "Compare"] /\
    obj_get (lit "commercialIntent") o = JBool true /\
    obj_get (lit "isHowTo") o = JBool true.
Proof.
  intros post fields.
  apply (@saved_post_is_listed_with_its_fields Demo.epoch false [] fields
           (id post)); try reflexivity.
  intros row [].
Defined.

End RouteFacts.
(** ** The Retry Policy: runs of every kind *)

Module RecoveryFacts.

Import RetryFacts.

Section Facts.
Context {W T : Type}.
Implicit Types (fn : W -> (JsError + T) * W) (s : State W).

Lemma run_after_transients fn (k : nat) :
  forall (retries : nat) (delay : Z) s (r : JsError + T) (w' : W),
    transient_then fn k (world s) r w' ->
    (k <= retries)%nat ->
    final (retries - k) r ->
    retryWithBackoff fn retries delay s
    = (r, mkState w' (trace s ++ backoff_events k delay)).
Proof.
  induction k as [|k IH]; intros retries delay s r w' Hk Hle Hfin.
  - cbn in Hk. rewrite retry_unfold, Hk. cbn.
    rewrite Nat.sub_0_r in Hfin.
    destruct r as [e|v]; [|reflexivity].
    destruct retries as [|n]; [reflexivity|].
    destruct Hfin as [->|Hn]; [reflexivity | discriminate].
  - destruct Hk as (e & w1 & Hfn & He & Hk).
    destruct retries as [|n]; [lia|].
    rewrite retry_unfold, Hfn. cbn zeta. cbn [fst snd world trace].
    rewrite He.
    rewrite (IH n (delay * 2)%Z
               (mkState w1 ((trace s ++ [EvInvoke]) ++ [EvSleep delay])) r w' Hk);
      [|lia|exact Hfin].
    cbn [trace]. rewrite backoff_events_S, <- !app_assoc. reflexivity.
Qed.

Lemma every_run fn (retries : nat) :
  forall (delay : Z) s,
  exists k r w',
    (k <= retries)%nat /\
    transient_then fn k (world s) r w' /\
    final (retries - k) r /\
    retryWithBackoff fn retries delay s
    = (r, mkState w' (trace s ++ backoff_events k delay)).
Proof.
  induction retries as [|n IH]; intros delay s.
  - destruct (fn (world s)) as [r w'] eqn:Hfn.
    exists 0%nat, r, w'. split; [lia|]. split; [exact Hfn|].
    assert (Hfin : final (T := T) (0 - 0) r) by (destruct r; cbn; auto).
    split; [exact Hfin|].
    now apply (@run_after_transients fn 0).
  - destruct (fn (world s)) as [[e|v] w1] eqn:Hfn.
    + destruct (isTransient e) eqn:He.
      * destruct (IH (delay * 2)%Z
                    (mkState w1 ((trace s ++ [EvInvoke]) ++ [EvSleep delay])))
          as (k & r & w' & Hle & Hk & Hfin & _).
        cbn [world] in Hk.
        assert (Hk' : transient_then fn (S k) (world s) r w')
          by (exists e, w1; auto).
        exists (S k), r, w'. split; [lia|]. split; [exact Hk'|].
        split; [exact Hfin|].
        apply run_after_transients; [exact Hk' | lia | exact Hfin].
      * exists 0%nat, (inl e), w1. split; [lia|]. split; [exact Hfn|].
        assert (Hfin : final (T := T) (S n - 0) (inl e)) by (now left).
        split; [exact Hfin|].
        apply (@run_after_transients fn 0); [exact Hfn | lia | exact Hfin].
    + exists 0%nat, (inr v), w1. split; [lia|]. split; [exact Hfn|].
      split; [exact I|].
      apply (@run_after_transients fn 0); [exact Hfn | lia | exact I].
Qed.

Lemma total_schedule (delay : Z) (k : nat) :
  total (map (fun n => delay * 2 ^ Z.of_nat n)%Z (seq 0 k))
  = (delay * (2 ^ Z.of_nat k - 1))%Z.
Proof.
  induction k as [|k IH]; [cbn; lia|].
  rewrite seq_S, map_app. cbn [map Nat.add].
  unfold total in *. rewrite fold_right_app. cbn [fold_right].
  rewrite Z.add_0_r.
  assert (Hshift : forall (l : list Z) (a : Z),
             fold_right Z.add a l = (fold_right Z.add 0 l + a)%Z).
  { induction l as [|x l IHl]; intros a; cbn; [lia|]. rewrite IHl. lia. }
  rewrite Hshift, IH, Nat2Z.inj_succ, Z.pow_succ_r by lia. lia.
Qed.

End Facts.

End RecoveryFacts.

Module RecoveryTheorems.
Import RetryFacts RecoveryFacts.

(** X1.  If the first [k] calls of the wrapped operation fail with transient
    errors and the next one returns a value, and [k] is at most [retries],
    then [retryWithBackoff] returns that value, having made [k + 1] calls
    with sleeps of [delay], [delay * 2], ..., [delay * 2^(k-1)] between
    them. *)
Theorem retry_recovers_after_transient_failures
    {W T : Type} (fn : W -> (JsError + T) * W)
    (retries : nat) (delay : Z) (s : State W) (k : nat) (v : T) (w' : W) :
  transient_then fn k (world s) (inr v) w' ->
  (k <= retries)%nat ->
  retryWithBackoff fn retries delay s
  = (inr v, mkState w' (trace s ++ backoff_events k delay)) /\
  invocations (backoff_events k delay) = S k /\
  sleeps (backoff_events k delay)
  = map (fun n => delay * 2 ^ Z.of_nat n)%Z (seq 0 k).
Proof.
  intros Hk Hle. split; [|split].
  - apply run_after_transients; [exact Hk | exact Hle | exact I].
  - apply invocations_backoff.
  - apply sleeps_backoff.
Qed.

Lemma retry_recovers_after_transient_failures_witness :
  retryWithBackoff (Demo.flaky 2) 3 2000 (Demo.start 0%nat)
  = (inr 42%Z,
     mkState 3%nat
       ([] ++ [EvInvoke; EvSleep 2000; EvInvoke; EvSleep 4000; EvInvoke])).
Proof.
  refine (proj1 (@retry_recovers_after_transient_failures _ _ (Demo.flaky 2)
                   3 2000 (Demo.start 0%nat) 2 42%Z 3%nat _ _)).
  - exists Demo.busy, 1%nat. split; [reflexivity|]. split; [reflexivity|].
    exists Demo.busy, 2%nat. split; [reflexivity|]. split; reflexivity.
  - lia.
Defined.

(** X2.  If the first [k] calls of the wrapped operation fail with transient
    errors and the next one fails with an error that is not transient, and
    [k] is at most [retries], then [retryWithBackoff] throws that error as
    it is, right after the call that raised it: the retries that are left
    are not used and no sleep follows. *)
Theorem retry_stops_at_first_permanent_error
    {W T : Type} (fn : W -> (JsError + T) * W)
    (retries : nat) (delay : Z) (s : State W) (k : nat) (e : JsError) (w' : W) :
  transient_then fn k (world s) (inl e) w' ->
  isTransient e = false ->
  (k <= retries)%nat ->
  retryWithBackoff fn retries delay s
  = (inl e, mkState w' (trace s ++ backoff_events k delay)) /\
  invocations (backoff_events k delay) = S k /\
  sleeps (backoff_events k delay)
  = map (fun n => delay * 2 ^ Z.of_nat n)%Z (seq 0 k).
Proof.
  intros Hk He Hle. split; [|split].
  - apply run_after_transients; [exact Hk | exact Hle | now left].
  - apply invocations_backoff.
  - apply sleeps_backoff.
Qed.

Lemma retry_stops_at_first_permanent_error_witness :
  retryWithBackoff (RecoveryDemo.busy_then_denied 1) 3 2000 (Demo.start 0%nat)
  = (inl Demo.denied,
     mkState 2%nat ([] ++ [EvInvoke; EvSleep 2000; EvInvoke])).
Proof.
  refine (proj1 (@retry_stops_at_first_permanent_error _ _
                   (RecoveryDemo.busy_then_denied 1) 3 2000 (Demo.start 0%nat)
                   1 Demo.denied 2%nat _ _ _)).
  - exists Demo.busy, 1%nat. split; [reflexivity|]. split; reflexivity.
  - reflexivity.
  - lia.
Defined.

(** X3.  Whatever the wrapped operation does, a run of [retryWithBackoff]
    consists of some number [k] of calls that fail with transient errors,
    [k] at most [retries], each followed by its sleep, and of one last call
    whose outcome, value or error, is the outcome of the run.  So the
    operation is never called more than [retries + 1] times, the sleeps are
    the first [k] of [delay], [delay * 2], [delay * 4], ..., and the time
    slept is at most [delay * (2^retries - 1)]: 14 seconds with the
    defaults. *)
Theorem retry_run_stays_within_schedule
    {W T : Type} (fn : W -> (JsError + T) * W)
    (retries : nat) (delay : Z) (s : State W) :
  exists k r w' new,
    retryWithBackoff fn retries delay s = (r, mkState w' (trace s ++ new)) /\
    transient_then fn k (world s) r w' /\
    new = backoff_events k delay /\
    (k <= retries)%nat /\
    (invocations new <= retries + 1)%nat /\
    sleeps new = map (fun n => delay * 2 ^ Z.of_nat n)%Z (seq 0 k) /\
    (0 <= delay ->
     total (sleeps new) <= delay * (2 ^ Z.of_nat retries - 1))%Z /\
    (retries = default_retries -> delay = default_delay ->
     total (sleeps new) <= 14000)%Z.
Proof.
  destruct (every_run fn retries delay s) as (k & r & w' & Hle & Hk & _ & Hrun).
  exists k, r, w', (backoff_events k delay).
  assert (Hbound : (0 <= delay ->
            total (sleeps (backoff_events k delay))
            <= delay * (2 ^ Z.of_nat retries - 1))%Z).
  { intros Hd. rewrite sleeps_backoff, total_schedule.
    apply Z.mul_le_mono_nonneg_l; [exact Hd|].
    apply Z.sub_le_mono_r, Z.pow_le_mono_r; lia. }
  repeat split; try assumption.
  - rewrite invocations_backoff. lia.
  - apply sleeps_backoff.
  - intros -> ->. now apply Hbound.
Qed.

Lemma retry_run_stays_within_schedule_witness :
  exists k r w' new,
    retryWithBackoff (Demo.flaky 2) 3 2000 (Demo.start 0%nat)
    = (r, mkState w' (trace (Demo.start 0%nat) ++ new)) /\
    transient_then (Demo.flaky 2) k (world (Demo.start 0%nat)) r w' /\
    new = backoff_events k 2000 /\
    (k <= 3)%nat /\
    (invocations new <= 3 + 1)%nat /\
    sleeps new = map (fun n => 2000 * 2 ^ Z.of_nat n)%Z (seq 0 k) /\
    (0 <= 2000 -> total (sleeps new) <= 2000 * (2 ^ Z.of_nat 3 - 1))%Z /\
    (3%nat = default_retries -> 2000%Z = default_delay ->
     total (sleeps new) <= 14000)%Z.
Proof.
  exact (retry_run_stays_within_schedule (Demo.flaky 2) 3 2000
           (Demo.start 0%nat)).
Defined.

End RecoveryTheorems.

(** ** The Generation Client, the server actions and the earlier service *)

Module AnswerFacts.

Import RetryFacts CoverFacts GenerationFacts.

Section Facts.
Context {W : Type} `{Platform W} `{CaseTables}.

Lemma answers_call (request : GenRequest) (s : State W)
    (response : GenResponse) (s' : State W) :
  answers request s response s' ->
  call request s = (inr response, s').
Proof.
  intros [Hfn Htr]. unfold call. rewrite retry_unfold, Hfn. cbn.
  destruct s' as [w' tr']. cbn in Htr |- *. now rewrite Htr.
Qed.

Lemma with_picsum_cover_run (t : GeneratedTopic) (s : State W) :
  with_picsum_cover t s =
  match encodeURIComponent (topic t) with
  | None => (inl URIError_malformed, s)
  | Some encoded =>
      (inr (set_coverImage t
              (picsum_cover encoded
                 (floor_scaled (fst (Math_random (world s))) 1000))),
       after_draw s)
  end.
Proof.
  unfold with_picsum_cover, encodeURIComponentM. unfold bind at 1.
  destruct (encodeURIComponent (topic t)); [|reflexivity].
  unfold ret at 1. unfold bind at 1. now rewrite random_below_run.
Qed.

Lemma mapM_covers (topics : list GeneratedTopic) :
  forall s : State W,
    titles_well_formed topics = true ->
    exists result s',
      mapM with_picsum_cover topics s = (inr result, s') /\
      Forall2 covered topics result /\
      trace s' = trace s ++ repeat EvRandom (List.length topics).
Proof.
  induction topics as [|t topics IH]; intros s Hwf.
  - exists [], s. cbn. rewrite app_nil_r. auto.
  - cbn [titles_well_formed forallb] in Hwf.
    apply andb_true_iff in Hwf as [Ht Hwf].
    destruct (encodeURIComponent (topic t)) as [encoded|] eqn:Henc;
      [|apply encodeURIComponent_throws_iff in Henc; congruence].
    destruct (IH (after_draw s) Hwf) as (result & s' & Hrun & Hall & Htr).
    exists (set_coverImage t
              (picsum_cover encoded
                 (floor_scaled (fst (Math_random (world s))) 1000))
              :: result), s'.
    split; [|split].
    + cbn [mapM]. unfold bind at 1. rewrite with_picsum_cover_run, Henc.
      unfold bind at 1. now rewrite Hrun.
    + constructor; [|exact Hall].
      exists encoded, (floor_scaled (fst (Math_random (world s))) 1000).
      split; [exact Henc|]. split; [apply random_below_range; lia | reflexivity].
    + rewrite Htr. cbn [after_draw trace List.length repeat].
      now rewrite <- app_assoc.
Qed.

Lemma mapM_throws (topics : list GeneratedTopic) :
  forall s : State W,
    titles_well_formed topics = false ->
    exists e s', mapM with_picsum_cover topics s = (inl e, s').
Proof.
  induction topics as [|t topics IH]; intros s Hwf; [discriminate|].
  cbn [titles_well_formed forallb] in Hwf. cbn [mapM]. unfold bind at 1.
  rewrite with_picsum_cover_run.
  destruct (encodeURIComponent (topic t)) as [encoded|] eqn:Henc; [|eauto].
  assert (Ht : well_formed (topic t) = true).
  { destruct (well_formed (topic t)) eqn:E; [reflexivity|].
    apply encodeURIComponent_throws_iff in E. congruence. }
  rewrite Ht in Hwf. cbn [andb] in Hwf.
  destruct (IH (after_draw s) Hwf) as (e & s' & Hrun).
  unfold bind at 1. rewrite Hrun. eauto.
Qed.

Lemma generateFullPost_unfold (topic tone : jsstring) (ctx : option jsstring)
    (s : State W) :
  generateFullPost topic tone ctx s =
  match call (FullPostRequest topic tone (given ctx)) s with
  | (inl _, s') => (inl post_failure, s')
  | (inr response, s') =>
      match given (text response) with
      | None => (inl post_failure, s')
      | Some json =>
          match JSON_parse_post json with
          | inl _ => (inl post_failure, s')
          | inr p => (inr p, s')
          end
      end
  end.
Proof.
  unfold generateFullPost, call, try_catch at 1, bind at 1.
  destruct (retryWithBackoff _ _ _ s) as [[e|response] s']; [reflexivity|].
  destruct (text response) as [[|c json]|]; reflexivity.
Qed.

Lemma generateTrainingModule_unfold `{Training.Reader}
    (topic : jsstring) (s : State W) :
  Training.generateTrainingModule topic s =
  match call (TrainingRequest topic) s with
  | (inl _, s') => (inl Training.training_failure, s')
  | (inr response, s') =>
      match given (text response) with
      | None => (inl Training.training_failure, s')
      | Some json =>
          match Training.JSON_parse_module json with
          | inl _ => (inl Training.training_failure, s')
          | inr v => (inr v, s')
          end
      end
  end.
Proof.
  unfold Training.generateTrainingModule, call, try_catch at 1, bind at 1.
  destruct (retryWithBackoff _ _ _ s) as [[e|response] s']; [reflexivity|].
  destruct (text response) as [[|c json]|]; reflexivity.
Qed.

Lemma generateFullPost_throws (topic tone : jsstring) (ctx : option jsstring)
    (s : State W) (e : JsError) (s' : State W) :
  generateFullPost topic tone ctx s = (inl e, s') -> e = post_failure.
Proof.
  rewrite generateFullPost_unfold.
  repeat match goal with
         | |- context [match ?x with _ => _ end] => destruct x
         end; congruence.
Qed.

End Facts.

End AnswerFacts.

Module GenerationTheorems.

Import RetryFacts CoverFacts GenerationFacts AnswerFacts JsonFacts.

(** X4.  When the provider's answer parses into a list of topics,
    [generateTopics] returns these topics in the same number and order,
    each with its cover replaced by a picsum URL (seeded with the first ten
    code units of the encoded title and a number below 1000) and with all
    other fields as they were, after one draw of [Math.random] for each
    topic, provided every title is well-formed UTF-16.  If one title is
    not, the whole call fails with the fixed error and no topic is
    returned. *)
Theorem generateTopics_returns_every_topic_with_a_cover
    {W : Type} `{Platform W}
    (niche : jsstring) (ctx : option jsstring) (count : Z) (s : State W)
    (response : GenResponse) (s1 : State W) (json : jsstring)
    (topics : list GeneratedTopic) :
  call (TopicsRequest niche (given ctx) count) s = (inr response, s1) ->
  given (text response) = Some json ->
  JSON_parse_topics json = inr topics ->
  (titles_well_formed topics = true ->
   exists result s2,
     generateTopics niche ctx count s = (inr result, s2) /\
     Forall2 covered topics result /\
     List.length result = List.length topics /\
     trace s2 = trace s1 ++ repeat EvRandom (List.length topics)) /\
  (titles_well_formed topics = false ->
   exists s2, generateTopics niche ctx count s = (inl topics_failure, s2)).
Proof.
  intros Hcall Htext Hparse. unfold call in Hcall. split.
  - intros Hwf.
    destruct (mapM_covers topics s1 Hwf) as (result & s2 & Hrun & Hall & Htr).
    exists result, s2. rewrite generateTopics_unfold, Hcall, Htext, Hparse, Hrun.
    repeat split; try assumption.
    symmetry. eapply Forall2_length; eauto.
  - intros Hwf.
    destruct (mapM_throws topics s1 Hwf) as (e & s2 & Hrun).
    exists s2. now rewrite generateTopics_unfold, Hcall, Htext, Hparse, Hrun.
Qed.

Lemma generateTopics_returns_every_topic_with_a_cover_witness :
  let quiet := Demo.platform None None in
  let s := Demo.start (Demo.newsroom (lit "Save More") []) in
  exists result s2,
    @generateTopics _ quiet (lit "personal finance") None 3 s = (inr result, s2) /\
    Forall2 covered [Demo.idea (lit "Save More")] result /\
    List.length result = 1%nat /\
    trace s2 = [EvInvoke] ++ [EvRandom].
Proof.
  intros quiet s.
  refine (proj1 (@generateTopics_returns_every_topic_with_a_cover _ quiet
                   (lit "personal finance") None 3 s
                   (mkGenResponse
                      (JSON_stringify (JArr [of_topic (Demo.idea (lit "Save More"))])))
                   (mkState (Demo.midnight [] [] [1 # 2; 1 # 4; 3 # 4]%Q) [EvInvoke])
                   (compact (JArr [of_topic (Demo.idea (lit "Save More"))]))
                   [Demo.idea (lit "Save More")] _ _ _) _);
    vm_compute; reflexivity.
Defined.

(** X5.  [generateFullPost] returns what the text of the provider's answer
    parses into, and throws one error only, the fixed "Failed to generate
    blog post. The AI model is currently overloaded. ...": when the answer
    has no text or the empty text (where [generateTopics] returns the empty
    list), when the text does not parse, and when the call through the
    Retry Policy fails, which for a provider that is overloaded at every
    call happens after four calls and sleeps of 2000, 4000 and 8000 ms. *)
Theorem generateFullPost_returns_the_answer_or_one_error
    {W : Type} `{Platform W}
    (topic tone : jsstring) (ctx : option jsstring) (s : State W) :
  let request := FullPostRequest topic tone (given ctx) in
  (forall response s',
      call request s = (inr response, s') ->
      text response = None \/ text response = Some [] ->
      generateFullPost topic tone ctx s = (inl post_failure, s')) /\
  (forall response s' json,
      call request s = (inr response, s') ->
      given (text response) = Some json ->
      generateFullPost topic tone ctx s
      = (match JSON_parse_post json with
         | inr parsed => inr parsed
         | inl _ => inl post_failure
         end, s')) /\
  (forall e s',
      call request s = (inl e, s') ->
      generateFullPost topic tone ctx s = (inl post_failure, s')) /\
  (forall e s',
      generateFullPost topic tone ctx s = (inl e, s') -> e = post_failure) /\
  (always_transient (generateContent request) ->
   exists s',
     generateFullPost topic tone ctx s = (inl post_failure, s') /\
     trace s' = trace s ++ backoff_events 3 2000).
Proof.
  intros request. repeat split.
  - intros response s' Hcall Htext. rewrite generateFullPost_unfold.
    fold request. rewrite Hcall. apply given_None in Htext. now rewrite Htext.
  - intros response s' json Hcall Htext. rewrite generateFullPost_unfold.
    fold request. rewrite Hcall, Htext.
    now destruct (JSON_parse_post json).
  - intros e s' Hcall. rewrite generateFullPost_unfold.
    fold request. now rewrite Hcall.
  - intros e s'. apply generateFullPost_throws.
  - intros Hbusy.
    destruct (all_transient_run Hbusy default_retries default_delay s)
      as (e & s' & Hrun & _ & Htr).
    exists s'. split; [|exact Htr].
    rewrite generateFullPost_unfold. fold request. unfold call.
    now rewrite Hrun.
Qed.

Lemma generateFullPost_returns_the_answer_or_one_error_witness :
  let quiet := Demo.platform None None in
  let no_text := Demo.midnight [inr (mkGenResponse (Some []))] [] [] in
  let written := Demo.midnight [Demo.answer_json Demo.bare_article] [] [] in
  @generateFullPost _ quiet (lit "Save More") tone None (Demo.start no_text)
  = (inl post_failure, mkState (Demo.midnight [] [] []) [EvInvoke]) /\
  @generateFullPost _ quiet (lit "Save More") tone None (Demo.start written)
  = (inr (as_partial Demo.bare_article),
     mkState (Demo.midnight [] [] []) [EvInvoke]) /\
  (exists s',
      @generateFullPost _ (Demo.jammed None None) (lit "Save More") tone None
        (Demo.start no_text) = (inl post_failure, s') /\
      trace s' = [] ++ backoff_events 3 2000).
Proof.
  intros quiet no_text written.
  split; [|split].
  - apply (proj1 (@generateFullPost_returns_the_answer_or_one_error _ quiet
                    (lit "Save More") tone None
                    (Demo.start no_text))
             (mkGenResponse (Some []))); [reflexivity | now right].
  - apply (proj1 (proj2 (@generateFullPost_returns_the_answer_or_one_error _
                    quiet (lit "Save More") tone None
                    (Demo.start written)))
             (mkGenResponse (JSON_stringify Demo.bare_article))
             (mkState (Demo.midnight [] [] []) [EvInvoke])
             (compact Demo.bare_article)); reflexivity.
  - apply (proj2 (proj2 (proj2 (proj2
             (@generateFullPost_returns_the_answer_or_one_error _
                (Demo.jammed None None)
                (lit "Save More") tone None (Demo.start no_text)))))).
    intros w. exists Demo.busy, w. split; reflexivity.
Defined.

(** X6.  [generateTrainingModule] returns what [JSON.parse] makes of the
    text of the provider's answer, whatever it is: the properties of a
    training module are not checked.  The function throws one error only,
    the fixed "Failed to generate training module. ...": when the answer
    has no text or the empty text, when [JSON.parse] rejects the text, and
    when the call through the Retry Policy fails, which for a provider
    that is overloaded at every call happens after four calls and sleeps
    of 2000, 4000 and 8000 ms. *)
Theorem generateTrainingModule_returns_the_parsed_answer
    {W : Type} `{Platform W} `{Training.Reader}
    (topic : jsstring) (s : State W) :
  let request := TrainingRequest topic in
  (forall response s' json,
      call request s = (inr response, s') ->
      given (text response) = Some json ->
      Training.generateTrainingModule topic s
      = (match Training.JSON_parse_module json with
         | inr v => inr v
         | inl _ => inl Training.training_failure
         end, s')) /\
  (forall response s',
      call request s = (inr response, s') ->
      text response = None \/ text response = Some [] ->
      Training.generateTrainingModule topic s
      = (inl Training.training_failure, s')) /\
  (forall e s',
      call request s = (inl e, s') ->
      Training.generateTrainingModule topic s
      = (inl Training.training_failure, s')) /\
  (forall e s',
      Training.generateTrainingModule topic s = (inl e, s') ->
      e = Training.training_failure) /\
  (always_transient (generateContent request) ->
   exists s',
     Training.generateTrainingModule topic s
     = (inl Training.training_failure, s') /\
     trace s' = trace s ++ backoff_events 3 2000).
Proof.
  intros request. repeat split.
  - intros response s' json Hcall Htext.
    rewrite generateTrainingModule_unfold. fold request. rewrite Hcall, Htext.
    now destruct (Training.JSON_parse_module json).
  - intros response s' Hcall Htext.
    rewrite generateTrainingModule_unfold. fold request. rewrite Hcall.
    apply given_None in Htext. now rewrite Htext.
  - intros e s' Hcall. rewrite generateTrainingModule_unfold.
    fold request. now rewrite Hcall.
  - intros e s'. rewrite generateTrainingModule_unfold.
    repeat match goal with
           | |- context [match ?x with _ => _ end] => destruct x
           end; congruence.
  - intros Hbusy.
    destruct (all_transient_run Hbusy default_retries default_delay s)
      as (e & s' & Hrun & _ & Htr).
    exists s'. split; [|exact Htr].
    rewrite generateTrainingModule_unfold. fold request. unfold call.
    now rewrite Hrun.
Qed.

Lemma generateTrainingModule_returns_the_parsed_answer_witness :
  let P := Demo.platform None None in
  let R := Classroom.reader in
  let s := Demo.start (Demo.midnight [Demo.answer_json Classroom.lesson] [] []) in
  let no_text := Demo.midnight [inr (mkGenResponse (Some []))] [] [] in
  @Training.generateTrainingModule _ P R (lit "Giving feedback") s
  = (inr Classroom.lesson, mkState (Demo.midnight [] [] []) [EvInvoke]) /\
  @Training.generateTrainingModule _ P R (lit "Giving feedback")
    (Demo.start no_text)
  = (inl Training.training_failure,
     mkState (Demo.midnight [] [] []) [EvInvoke]) /\
  (exists s',
      @Training.generateTrainingModule _ (Demo.jammed None None) R
        (lit "Giving feedback") (Demo.start no_text)
      = (inl Training.training_failure, s') /\
      trace s' = [] ++ backoff_events 3 2000).
Proof.
  intros P R s no_text. split; [|split].
  - apply (proj1 (@generateTrainingModule_returns_the_parsed_answer _ P R
                    (lit "Giving feedback") s)
             (mkGenResponse (JSON_stringify Classroom.lesson))
             (mkState (Demo.midnight [] [] []) [EvInvoke])
             (compact Classroom.lesson));
      reflexivity.
  - apply (proj1 (proj2 (@generateTrainingModule_returns_the_parsed_answer _ P
                           R (lit "Giving feedback") (Demo.start no_text)))
             (mkGenResponse (Some []))); [reflexivity | now right].
  - apply (proj2 (proj2 (proj2 (proj2
             (@generateTrainingModule_returns_the_parsed_answer _
                (Demo.jammed None None) R
                (lit "Giving feedback") (Demo.start no_text)))))).
    intros w. exists Demo.busy, w. split; reflexivity.
Defined.

End GenerationTheorems.

Module ActionTheorems.

Import RetryFacts CoverFacts GenerationFacts AnswerFacts JsonFacts.

(** X8.  The server action [generateCoverImage] never throws and fetches
    nothing.  It returns the pollinations.ai URL of the service, after one
    draw of [Math.random], when the first 100 code units of the topic are
    well-formed UTF-16, and otherwise the picsum placeholder seeded with
    [Date.now()], without any draw. *)
Theorem action_cover_image_always_returns_a_url
    {W : Type} `{Platform W} `{CaseTables} (topic : jsstring) (s : State W) :
  exists url s',
    Actions.generateCoverImage topic s = (inr url, s') /\
    (well_formed (substring0 100 topic) = true ->
     exists encoded seed,
       encodeURIComponent (cover_prompt_text topic false) = Some encoded /\
       url = pollinations_prefix ++ encoded ++ pollinations_suffix ++ of_Z seed /\
       (0 <= seed < 1000000)%Z /\
       s' = after_draw s) /\
    (well_formed (substring0 100 topic) = false ->
     url = picsum_placeholder (fst (Date_now (world s))) /\
     trace s' = trace s) /\
    (exists new, trace s' = trace s ++ new /\ no_fetch new = true).
Proof.
  change (Actions.generateCoverImage topic s)
    with (cover_or_placeholder topic s).
  rewrite cover_or_placeholder_run.
  pose proof (cover_prompt_well_formed topic false) as Hwf.
  cbn [cover_prompt_limit] in Hwf.
  destruct (encodeURIComponent (cover_prompt_text topic false)) as [encoded|]
    eqn:Henc.
  - do 2 eexists. split; [reflexivity|]. split; [|split].
    + intros _. exists encoded, (floor_scaled (fst (Math_random (world s))) 1000000).
      repeat split; try reflexivity; apply random_below_range; lia.
    + intros Hbad. rewrite <- Hwf in Hbad.
      apply encodeURIComponent_throws_iff in Hbad. congruence.
    + exists [EvRandom]. split; reflexivity.
  - do 2 eexists. split; [reflexivity|]. split; [|split].
    + intros Hgood. rewrite <- Hwf in Hgood.
      apply encodeURIComponent_throws_iff in Henc. congruence.
    + intros _. split; reflexivity.
    + exists []. cbn [trace]. rewrite app_nil_r. split; reflexivity.
Qed.

Lemma action_cover_image_always_returns_a_url_witness :
  let P := Demo.platform None None in
  let C := Demo.ascii_case_tables in
  let s0 := Demo.start (Demo.midnight [] [] [1 # 2]%Q) in
  exists url s',
    @Actions.generateCoverImage _ P Demo.long_title s0 = (inr url, s') /\
    url = lit "https://picsum.photos/800/400?random=1767225600000" /\
    trace s' = [].
Proof.
  intros P C s0.
  destruct (@action_cover_image_always_returns_a_url _ P C Demo.long_title s0)
    as (url & s' & Hrun & _ & Hbad & _).
  exists url, s'. split; [exact Hrun|].
  apply Hbad. reflexivity.
Defined.

(** X9.  On an answer of the provider that has no text or the empty text
    the server actions differ: [generateTopics] returns the empty list,
    while [generateFullPost] throws "Failed to generate full post.",
    [generateTrainingModule] throws "Failed to generate training module."
    and [generateAndPublishAutoPost], which asks for three topics, throws
    "Failed to auto-publish post.".  In all four cases the provider has
    been called once and nothing else has happened: no retry, no sleep, no
    draw. *)
Theorem actions_on_an_empty_answer
    {W : Type} `{Platform W} `{CaseTables} `{Training.Reader}
    (request : GenRequest) (s : State W) (response : GenResponse)
    (s' : State W) :
  answers request s response s' ->
  text response = None \/ text response = Some [] ->
  (forall niche ctx count,
      request = TopicsRequest niche (given ctx) count ->
      Actions.generateTopics niche ctx count s = (inr [], s')) /\
  (forall topic tone ctx,
      request = FullPostRequest topic tone (given ctx) ->
      Actions.generateFullPost topic tone ctx s
      = (inl Actions.post_error, s')) /\
  (forall topic,
      request = TrainingRequest topic ->
      Actions.generateTrainingModule topic s
      = (inl Actions.training_error, s')) /\
  (forall niche,
      request = TopicsRequest niche None 3 ->
      Actions.generateAndPublishAutoPost niche s
      = (inl Actions.publish_error, s')).
Proof.
  intros Hans Htext. apply answers_call in Hans. apply given_None in Htext.
  repeat split.
  - intros niche ctx count ->.
    unfold Actions.generateTopics, try_catch.
    rewrite generateTopics_unfold. unfold call in Hans.
    now rewrite Hans, Htext.
  - intros topic tone ctx ->.
    unfold Actions.generateFullPost, try_catch.
    now rewrite generateFullPost_unfold, Hans, Htext.
  - intros topic ->.
    unfold Actions.generateTrainingModule, try_catch.
    now rewrite generateTrainingModule_unfold, Hans, Htext.
  - intros niche ->.
    unfold Actions.generateAndPublishAutoPost, try_catch.
    rewrite orchestrator_unfold, generateTopics_unfold. cbn [given].
    unfold call in Hans. now rewrite Hans, Htext.
Qed.

Lemma actions_on_an_empty_answer_witness :
  let P := Demo.platform None None in
  let C := Demo.ascii_case_tables in
  let R := Classroom.reader in
  let s := Demo.start (Demo.midnight [inr (mkGenResponse (Some []))] [] []) in
  let s' := mkState (Demo.midnight [] [] []) [EvInvoke] in
  @Actions.generateTopics _ P (lit "personal finance") None 3 s = (inr [], s') /\
  @Actions.generateFullPost _ P (lit "Save More") tone None s
  = (inl Actions.post_error, s') /\
  @Actions.generateTrainingModule _ P R (lit "Feedback") s
  = (inl Actions.training_error, s') /\
  @Actions.generateAndPublishAutoPost _ P C (lit "personal finance") s
  = (inl Actions.publish_error, s').
Proof.
  intros P C R s s'.
  split; [|split; [|split]].
  - apply (proj1 (@actions_on_an_empty_answer _ P C R
                    (TopicsRequest (lit "personal finance") None 3) s
                    (mkGenResponse (Some [])) s'
                    (conj eq_refl eq_refl) (or_intror eq_refl))).
    reflexivity.
  - apply (proj1 (proj2 (@actions_on_an_empty_answer _ P C R
                    (FullPostRequest (lit "Save More") tone None) s
                    (mkGenResponse (Some [])) s'
                    (conj eq_refl eq_refl) (or_intror eq_refl)))
             (lit "Save More") tone None).
    reflexivity.
  - apply (proj1 (proj2 (proj2 (@actions_on_an_empty_answer _ P C R
                    (TrainingRequest (lit "Feedback")) s
                    (mkGenResponse (Some [])) s'
                    (conj eq_refl eq_refl) (or_intror eq_refl))))).
    reflexivity.
  - apply (proj2 (proj2 (proj2 (@actions_on_an_empty_answer _ P C R
                    (TopicsRequest (lit "personal finance") None 3) s
                    (mkGenResponse (Some [])) s'
                    (conj eq_refl eq_refl) (or_intror eq_refl))))).
    reflexivity.
Defined.

End ActionTheorems.

Module LegacyTheorems.

Import CoverFacts.

(** X28.  The [generateCoverImage] of the earlier service never throws,
    whatever the topic, which it does not use: after one draw of
    [Math.random] it returns a picsum URL whose seed is a number below
    100000.  The [catch] branch around its call in the earlier
    [generateAndPublishAutoPost] is therefore never taken, and the time is
    not read. *)
Theorem earlier_cover_image_is_a_seeded_picsum_url
    {W : Type} `{Platform W} (topic : jsstring) (s : State W) :
  exists seed,
    (0 <= seed < 100000)%Z /\
    Legacy.generateCoverImage topic s
    = (inr (lit "https://picsum.photos/seed/" ++ of_Z seed ++ lit "/800/400"),
       after_draw s) /\
    Legacy.cover_or_placeholder topic s = Legacy.generateCoverImage topic s.
Proof.
  exists (floor_scaled (fst (Math_random (world s))) 100000).
  split; [apply random_below_range; lia|].
  assert (Hrun : Legacy.generateCoverImage topic s
                 = (inr (lit "https://picsum.photos/seed/"
                           ++ of_Z (floor_scaled (fst (Math_random (world s)))
                                      100000)
                           ++ lit "/800/400"), after_draw s)).
  { unfold Legacy.generateCoverImage. unfold bind at 1.
    now rewrite random_below_run. }
  split; [exact Hrun|].
  unfold Legacy.cover_or_placeholder, try_catch. now rewrite Hrun.
Qed.

End LegacyTheorems.

(** ** The Image Acquisition Pipeline: requests and bounds *)

Module RoundFacts.

Import CoverFacts PipelineFacts.

Section Facts.
Context {W : Type} `{Platform W} `{CaseTables}.

Lemma is_download_image_request (encoded : jsstring) (seed : Z) :
  is_download
    (image_request
       (pollinations_prefix ++ encoded ++ pollinations_suffix ++ of_Z seed)).
Proof.
  repeat split.
Qed.

Lemma attempt_events (topic : jsstring) (raw : bool) (name : option jsstring)
    (s s' : State W) (r : JsError + StoreResult) :
  attempt topic raw name s = (r, s') ->
  exists new, trace s' = trace s ++ new /\ round_events new.
Proof.
  unfold attempt. unfold bind at 1. rewrite generateCoverImage_run.
  destruct (encodeURIComponent (cover_prompt_text topic raw)) as [encoded|].
  2:{ intros [= _ <-]. exists []. rewrite app_nil_r. split; [reflexivity|constructor]. }
  set (imageUrl := pollinations_prefix ++ encoded ++ pollinations_suffix ++ _).
  assert (Hd : is_download (image_request imageUrl))
    by apply is_download_image_request.
  destruct (given env_REMOTE_STORAGE_API_KEY) as [apiKey|] eqn:Hkey.
  2:{ intros [= _ <-]. exists [EvRandom]. split; [reflexivity|constructor]. }
  destruct (given env_REMOTE_STORAGE_API_URL) as [apiUrl|] eqn:Hurl.
  2:{ intros [= _ <-]. exists [EvRandom]. split; [reflexivity|constructor]. }
  unfold bind at 1. unfold external at 1. cbn [world trace after_draw].
  destruct (fetch (image_request imageUrl) _) as [[e|response] w1].
  { intros [= _ <-]. exists [EvRandom; EvFetch (image_request imageUrl)].
    cbn [trace]. rewrite <- app_assoc. split; [reflexivity|now constructor]. }
  assert (Hstop : forall (x : JsError + StoreResult) w,
             (x, mkState w ((trace s ++ [EvRandom])
                              ++ [EvFetch (image_request imageUrl)])) = (r, s') ->
             exists new, trace s' = trace s ++ new /\ round_events new).
  { intros x w [= _ <-]. exists [EvRandom; EvFetch (image_request imageUrl)].
    cbn [trace]. rewrite <- app_assoc. split; [reflexivity|now constructor]. }
  destruct (resp_ok response); cbn [negb]; [|apply Hstop].
  unfold bind at 1, of_sum at 1.
  destruct (resp_arrayBuffer response) as [e|bytes]; [apply Hstop|].
  destruct (Nat.ltb_spec (List.length bytes) 1000) as [Hlt|Hge]; [apply Hstop|].
  unfold bind at 1.
  assert (Hname : exists fname w2,
             (match given name with
              | Some n => ret n
              | None => now <- silent Date_now ;; ret (default_filename topic now)
              end) (mkState w1 ((trace s ++ [EvRandom])
                                  ++ [EvFetch (image_request imageUrl)]))
             = (inr fname, mkState w2 ((trace s ++ [EvRandom])
                                  ++ [EvFetch (image_request imageUrl)]))).
  { destruct (given name); [do 2 eexists; reflexivity|].
    unfold bind, silent, ret. cbn [world trace].
    destruct (Date_now w1). do 2 eexists; reflexivity. }
  destruct Hname as (fname & w2 & ->).
  unfold bind at 1, of_sum at 1.
  destruct (URL_with_params apiUrl _) as [e|uploadUrl] eqn:Hup; [apply Hstop|].
  unfold bind at 1. unfold external at 1. cbn [world trace].
  set (upload := upload_request uploadUrl apiKey fname bytes).
  assert (Hu : is_upload upload).
  { split; [reflexivity|]. split.
    - exists apiKey, apiUrl. repeat split; assumption.
    - eexists. repeat split. exact Hge. }
  assert (Hend : forall (x : JsError + StoreResult) w,
             (x, mkState w (((trace s ++ [EvRandom])
                               ++ [EvFetch (image_request imageUrl)])
                              ++ [EvFetch upload])) = (r, s') ->
             exists new, trace s' = trace s ++ new /\ round_events new).
  { intros x w [= _ <-].
    exists [EvRandom; EvFetch (image_request imageUrl); EvFetch upload].
    cbn [trace]. rewrite <- !app_assoc. split; [reflexivity|now constructor]. }
  destruct (fetch upload w2) as [[e|uploadResponse] w3]; [apply Hend|].
  destruct (resp_ok uploadResponse); cbn [negb].
  - unfold bind at 1, of_sum at 1.
    destruct (resp_json uploadResponse) as [e|data]; [apply Hend|].
    destruct (up_success data); apply Hend.
  - unfold bind at 1, of_sum at 1.
    destruct (resp_text uploadResponse) as [e|errorText]; apply Hend.
Qed.

End Facts.

End RoundFacts.

Module RunFacts.

Import CoverFacts PipelineFacts RoundFacts.

Section Facts.
Context {W : Type} `{Platform W} `{CaseTables}.

Lemma round_within (new : list Event) :
  round_events new ->
  (List.length (fetches new) <= 2)%nat /\
  (randoms new <= 1)%nat /\
  sleeps new = [] /\
  invocations new = 0%nat /\
  Forall (fun r => is_download r \/ is_upload r) (fetches new).
Proof.
  destruct 1; cbn; repeat split; auto.
Qed.

Lemma randoms_app (a b : list Event) :
  randoms (a ++ b) = (randoms a + randoms b)%nat.
Proof. unfold randoms. now rewrite filter_app, length_app. Qed.

Lemma invocations_app (a b : list Event) :
  invocations (a ++ b) = (invocations a + invocations b)%nat.
Proof. unfold invocations. now rewrite filter_app, length_app. Qed.

Lemma fetches_app (a b : list Event) :
  fetches (a ++ b) = fetches a ++ fetches b.
Proof. apply flat_map_app. Qed.

Lemma sleeps_app (a b : list Event) : sleeps (a ++ b) = sleeps a ++ sleeps b.
Proof. apply flat_map_app. Qed.

Lemma rounds_within (n : nat) :
  forall (i : Z) (last : option jsstring) (topic : jsstring) (raw : bool)
         (name : option jsstring) (s : State W),
    (i + Z.of_nat n = maxRetries + 1)%Z ->
    exists new,
      trace (snd (rounds_from n i last topic raw name s)) = trace s ++ new /\
      within n new.
Proof.
  induction n as [|n IH]; intros i last topic raw name s Hi.
  - cbn [rounds_from]. rewrite fallback_run.
    destruct (encodeURIComponent (fallback_keywords topic)).
    + exists [EvRandom]. split; [reflexivity|].
      repeat split; cbn; auto. exists 0%nat. auto.
    + exists []. cbn [snd]. rewrite app_nil_r. split; [reflexivity|].
      repeat split; cbn; auto. exists 0%nat. auto.
  - rewrite rounds_unfold.
    destruct (attempt topic raw name s) as [[e|r] s1] eqn:Hrun;
      apply attempt_events in Hrun as (new1 & Htr1 & Hround);
      apply round_within in Hround as (Hf1 & Hr1 & Hs1 & Hi1 & Hok1).
    2:{ exists new1. split; [exact Htr1|].
        repeat split; try lia; try assumption.
        exists 0%nat. split; [lia | exact Hs1]. }
    set (s2 := if (i <? maxRetries)%Z then slept 1000 s1 else s1).
    destruct (IH (i + 1)%Z (err_message e) topic raw name s2)
      as (new2 & Htr2 & Hf2 & Hr2 & (k & Hk & Hs2) & Hi2 & Hok2); [lia|].
    unfold maxRetries in *.
    destruct (Z.ltb_spec i 2) as [Hlt|Hge]; subst s2.
    + exists (new1 ++ [EvSleep 1000] ++ new2). split.
      * rewrite Htr2. cbn [slept trace]. rewrite Htr1, <- !app_assoc. reflexivity.
      * unfold within.
        rewrite !fetches_app, !randoms_app, !sleeps_app, !invocations_app,
          !length_app, Hs1, Hs2, Hi1, Hi2.
        cbn [fetches sleeps flat_map app randoms invocations filter
             List.length].
        repeat split; try lia.
        -- exists (S k). split; [lia | reflexivity].
        -- apply Forall_app. split; assumption.
    + exists (new1 ++ new2). split.
      * rewrite Htr2, Htr1, <- app_assoc. reflexivity.
      * unfold within.
        rewrite !fetches_app, !randoms_app, !sleeps_app, !invocations_app,
          !length_app, Hs1, Hs2, Hi1, Hi2.
        cbn [app].
        repeat split; try lia.
        -- exists k. split; [lia | reflexivity].
        -- apply Forall_app. split; assumption.
Qed.

End Facts.

End RunFacts.

Module PipelineTheorems.

Import CoverFacts PipelineFacts RoundFacts RunFacts.

(** X10.  When the storage service is configured, the prompt is
    well-formed, the image provider answers the download with a body of at
    least 1000 bytes and the storage service accepts the upload,
    [generateAndStoreCoverImage] returns the URL the storage service
    reports, with [success = true] and no error note, in its first round:
    after one draw of [Math.random], the download and the upload, without
    any sleep.  The file is uploaded under the name supplied by the caller
    or, when there is none, under the default name made from the topic and
    the time. *)
Theorem store_returns_the_url_of_the_upload
    {W : Type} `{Platform W} `{CaseTables}
    (topic : jsstring) (raw : bool) (name : option jsstring) (s : State W)
    (apiKey apiUrl encoded : jsstring) (response : Response) (bytes : list N)
    (w1 : W) (uploadUrl : jsstring) (uploadResponse : Response)
    (data : UploadReply) (w3 : W) :
  let seed := floor_scaled (fst (Math_random (world s))) 1000000 in
  let download :=
    image_request
      (pollinations_prefix ++ encoded ++ pollinations_suffix ++ of_Z seed) in
  let filename := fst (chosen_filename topic name w1) in
  let upload := upload_request uploadUrl apiKey filename bytes in
  given env_REMOTE_STORAGE_API_KEY = Some apiKey ->
  given env_REMOTE_STORAGE_API_URL = Some apiUrl ->
  encodeURIComponent (cover_prompt_text topic raw) = Some encoded ->
  fetch download (snd (Math_random (world s))) = (inr response, w1) ->
  resp_ok response = true ->
  resp_arrayBuffer response = inr bytes ->
  (1000 <= List.length bytes)%nat ->
  URL_with_params apiUrl
    [(lit "action", lit "upload"); (lit "api_key", apiKey)] = inr uploadUrl ->
  fetch upload (snd (chosen_filename topic name w1))
  = (inr uploadResponse, w3) ->
  resp_ok uploadResponse = true ->
  resp_json uploadResponse = inr data ->
  up_success data = true ->
  generateAndStoreCoverImage topic raw name s
  = (inr (mkResult true (up_url data) None),
     mkState w3 (trace s ++ [EvRandom; EvFetch download; EvFetch upload])).
Proof.
  intros seed download filename upload Hkey Hurl Henc Hget Hok Hbytes Hlen
    Hup Hput Hok' Hjson Hsuccess.
  unfold generateAndStoreCoverImage.
  change (Z.to_nat (maxRetries + 1)) with 3%nat.
  rewrite rounds_unfold.
  assert (Hrun : attempt topic raw name s
                 = (inr (mkResult true (up_url data) None),
                    mkState w3 (trace s ++ [EvRandom; EvFetch download;
                                            EvFetch upload]))).
  { unfold attempt. unfold bind at 1. rewrite generateCoverImage_run, Henc.
    fold seed. rewrite Hkey, Hurl.
    unfold bind at 1. unfold external at 1. cbn [world trace after_draw].
    fold download. rewrite Hget, Hok. cbn [negb].
    unfold bind at 1, of_sum at 1. rewrite Hbytes.
    destruct (Nat.ltb_spec (List.length bytes) 1000) as [Hlt|_]; [lia|].
    unfold bind at 1.
    assert (Hname :
              (match given name with
               | Some n => ret n
               | None => now <- silent Date_now ;; ret (default_filename topic now)
               end) (mkState w1 ((trace s ++ [EvRandom]) ++ [EvFetch download]))
              = (inr filename,
                 mkState (snd (chosen_filename topic name w1))
                         ((trace s ++ [EvRandom]) ++ [EvFetch download]))).
    { subst filename. unfold chosen_filename.
      destruct (given name); [reflexivity|].
      unfold bind, silent, ret. cbn [world trace].
      now destruct (Date_now w1). }
    rewrite Hname.
    unfold bind at 1, of_sum at 1. rewrite Hup.
    unfold bind at 1. unfold external at 1. cbn [world trace].
    fold upload. rewrite Hput, Hok'. cbn [negb].
    unfold bind at 1, of_sum at 1. rewrite Hjson, Hsuccess.
    unfold ret. now rewrite <- !app_assoc. }
  now rewrite Hrun.
Qed.

Lemma store_returns_the_url_of_the_upload_witness :
  @generateAndStoreCoverImage _ Studio.equipped Demo.ascii_case_tables
    (lit "Save More") false (Some (lit "save-more.jpg"))
    (Demo.start Studio.good_day)
  = (inr (mkResult true (Some (lit "https://files.example.org/save-more.jpg"))
                   None),
     mkState (Demo.midnight [] [] [])
       ([] ++
        [EvRandom;
         EvFetch (image_request
                    (lit "https://image.pollinations.ai/prompt/High-quality%20cinematic%20blog%20header%20image%20for%3A%20Save%20More%2C%20vivid%20colors%2C%20detailed%2C%20professional%20photography?width=1000&height=500&nologo=true&seed=500000"));
         EvFetch (upload_request
                    (lit "https://files.example.org/api.php?action=upload&api_key=k-123")
                    Studio.key (lit "save-more.jpg") (repeat 0xFF%N 1000))])).
Proof.
  apply (@store_returns_the_url_of_the_upload _ Studio.equipped
           Demo.ascii_case_tables (lit "Save More") false
           (Some (lit "save-more.jpg")) (Demo.start Studio.good_day)
           Studio.key Studio.service
           (lit "High-quality%20cinematic%20blog%20header%20image%20for%3A%20Save%20More%2C%20vivid%20colors%2C%20detailed%2C%20professional%20photography")
           Studio.picture (repeat 0xFF%N 1000)
           (Demo.midnight []
              [inr (Studio.stored_at (lit "https://files.example.org/save-more.jpg"))]
              [])
           (lit "https://files.example.org/api.php?action=upload&api_key=k-123")
           (Studio.stored_at (lit "https://files.example.org/save-more.jpg"))
           (mkUploadReply true
              (Some (lit "https://files.example.org/save-more.jpg")) None)
           (Demo.midnight [] [] []));
    reflexivity.
Defined.

(** X11.  Whatever the image provider and the storage service do, a run of
    [generateAndStoreCoverImage] sends at most six requests (a download
    and an upload in each of its three rounds), draws at most four random
    numbers, never calls the model provider, and sleeps at most twice, one
    second each time: there is no sleep after the third round.  Every
    request it sends is either a download from the image provider or an
    upload to the storage service.  A download is a GET to a
    pollinations.ai URL with the [User-Agent] header and nothing else: the
    key of the storage service is not sent to the image provider.  An
    upload is a POST to the configured URL of the storage service with the
    configured key, and its body is a JPEG file of at least 1000 bytes: a
    body that is smaller is never uploaded. *)
Theorem store_run_is_bounded_and_sends_downloads_and_uploads_only
    {W : Type} `{Platform W} `{CaseTables}
    (topic : jsstring) (raw : bool) (name : option jsstring) (s : State W) :
  exists new,
    trace (snd (generateAndStoreCoverImage topic raw name s)) = trace s ++ new /\
    (List.length (fetches new) <= 6)%nat /\
    (randoms new <= 4)%nat /\
    invocations new = 0%nat /\
    (sleeps new = [] \/ sleeps new = [1000%Z] \/ sleeps new = [1000%Z; 1000%Z]) /\
    Forall (fun r => is_download r \/ is_upload r) (fetches new).
Proof.
  destruct (@rounds_within _ _ _ 3 0%Z (Some []) topic raw name s eq_refl)
    as (new & Htr & Hf & Hr & (k & Hk & Hs) & Hi & Hok).
  exists new. split; [exact Htr|].
  repeat split; try assumption.
  rewrite Hs. cbn in Hk.
  destruct k as [|[|[|k]]]; cbn; auto; lia.
Qed.

End PipelineTheorems.

(** ** Slugs and file names *)

Module ShapeFacts.

Lemma drop_while_split (p : N -> bool) (s : jsstring) :
  exists a, s = a ++ drop_while p s /\ forallb p a = true.
Proof.
  induction s as [|c s (a & Ha & Hp)]; [now exists []|].
  cbn [drop_while]. destruct (p c) eqn:Hc.
  - exists (c :: a). cbn [app forallb]. rewrite Hc, Hp. now rewrite <- Ha.
  - now exists [].
Qed.

Lemma drop_while_first (p : N -> bool) (s : jsstring) :
  match drop_while p s with
  | c :: _ => p c = false
  | [] => True
  end.
Proof.
  induction s as [|c s IH]; [exact I|].
  cbn [drop_while]. destruct (p c) eqn:Hc; [exact IH | exact Hc].
Qed.

Lemma forallb_rev {A} (p : A -> bool) (l : list A) :
  forallb p (rev l) = forallb p l.
Proof.
  induction l as [|x l IH]; [reflexivity|].
  cbn [rev forallb]. rewrite forallb_app, IH. cbn. now rewrite andb_true_r, andb_comm.
Qed.

Lemma drop_while_end_split (p : N -> bool) (s : jsstring) :
  exists b, s = drop_while_end p s ++ b /\ forallb p b = true.
Proof.
  unfold drop_while_end.
  destruct (drop_while_split p (rev s)) as (a & Ha & Hp).
  exists (rev a). split; [|now rewrite forallb_rev].
  rewrite <- rev_app_distr, <- Ha. now rewrite rev_involutive.
Qed.

Lemma drop_while_end_last (p : N -> bool) (s : jsstring) :
  match rev (drop_while_end p s) with
  | c :: _ => p c = false
  | [] => True
  end.
Proof.
  unfold drop_while_end. rewrite rev_involutive. apply drop_while_first.
Qed.

Lemma drop_while_all (p : N -> bool) (a s : jsstring) :
  forallb p a = true -> drop_while p (a ++ s) = drop_while p s.
Proof.
  induction a as [|c a IH]; [reflexivity|].
  cbn [forallb app drop_while]. intros Ha.
  apply andb_true_iff in Ha as [-> Ha]. auto.
Qed.

Lemma drop_while_end_all (p : N -> bool) (s b : jsstring) :
  forallb p b = true -> drop_while_end p (s ++ b) = drop_while_end p s.
Proof.
  intros Hb. unfold drop_while_end. rewrite rev_app_distr.
  rewrite drop_while_all; [reflexivity | now rewrite forallb_rev].
Qed.

Lemma drop_while_nil (p : N -> bool) (s : jsstring) :
  forallb p s = true -> drop_while p s = [].
Proof.
  intros Hs. rewrite <- (app_nil_r s). now rewrite drop_while_all.
Qed.

Lemma drop_while_app_stop (p : N -> bool) (s b : jsstring) :
  drop_while p s <> [] -> drop_while p (s ++ b) = drop_while p s ++ b.
Proof.
  induction s as [|c s IH]; [intros Hn; now contradiction Hn|].
  cbn [app drop_while]. destruct (p c); auto.
Qed.

(** Trimming is the same with and without code units of the trimmed class
    at either end. *)
Lemma trim_both_all (p : N -> bool) (a s b : jsstring) :
  forallb p a = true -> forallb p b = true ->
  drop_while_end p (drop_while p (a ++ s ++ b))
  = drop_while_end p (drop_while p s).
Proof.
  intros Ha Hb. rewrite drop_while_all by exact Ha.
  destruct (drop_while p s) as [|c t] eqn:Hs.
  - assert (Hall : forallb p s = true).
    { destruct (drop_while_split p s) as (a' & Ha' & Hp').
      rewrite Hs, app_nil_r in Ha'. now subst a'. }
    rewrite drop_while_nil; [reflexivity|].
    rewrite forallb_app. now rewrite Hall, Hb.
  - rewrite drop_while_app_stop by (rewrite Hs; discriminate).
    rewrite Hs. now apply drop_while_end_all.
Qed.

End ShapeFacts.

Module RunsOfDashes.

Import ShapeFacts.

Lemma single_dashes_cons (c d : N) (t : jsstring) :
  single_dashes (c :: d :: t)
  = negb (is_dash c && is_dash d) && single_dashes (d :: t).
Proof. reflexivity. Qed.

Section Replace.
Variable set : N -> bool.
Hypothesis dash_in_set : forall c, is_dash c = true -> set c = true.

Local Abbreviation R := (replace_runs set [0x2D%N]).

Lemma replace_runs_chars (s : jsstring) :
  forall b,
    Forall (fun c => is_dash c = true \/ (set c = false /\ In c s)) (R b s).
Proof.
  induction s as [|c s IH]; intros b; [constructor|].
  cbn [replace_runs]. destruct (set c) eqn:Hc.
  - apply Forall_app. split.
    + destruct b; repeat constructor.
    + eapply Forall_impl; [|apply IH]. cbn. intros x [Hx|[Hx Hin]]; auto.
  - constructor; [right; split; [exact Hc | now left]|].
    eapply Forall_impl; [|apply IH]. cbn. intros x [Hx|[Hx Hin]]; auto.
Qed.

Lemma replace_runs_single (s : jsstring) :
  forall b,
    single_dashes (R b s) = true /\
    (b = true -> no_dash_first (R b s) = true).
Proof.
  induction s as [|c s IH]; intros b; [split; reflexivity|].
  cbn [replace_runs]. destruct (set c) eqn:Hc.
  - destruct (IH true) as [Hs Hf]. specialize (Hf eq_refl).
    destruct b; cbn [app]; [split; auto|].
    split; [|discriminate].
    destruct (R true s) as [|x t] eqn:E; [reflexivity|].
    rewrite single_dashes_cons. cbn [no_dash_first] in Hf.
    apply negb_true_iff in Hf. now rewrite Hf, andb_false_r, Hs.
  - destruct (IH false) as [Hs _].
    assert (Hd : is_dash c = false).
    { destruct (is_dash c) eqn:E; [|reflexivity].
      apply dash_in_set in E. congruence. }
    split.
    + destruct (R false s) as [|x t] eqn:E; [reflexivity|].
      rewrite single_dashes_cons. now rewrite Hd, Hs.
    + intros _. cbn [no_dash_first]. now rewrite Hd.
Qed.

Lemma replace_runs_all (a : jsstring) :
  forallb set a = true -> R true a = [].
Proof.
  induction a as [|c a IH]; [reflexivity|].
  cbn [forallb replace_runs]. intros Ha.
  apply andb_true_iff in Ha as [-> Ha]. now apply IH.
Qed.

Lemma replace_runs_absorb (a y : jsstring) :
  forallb set a = true -> R true (a ++ y) = R true y.
Proof.
  induction a as [|c a IH]; [reflexivity|].
  cbn [forallb app replace_runs]. intros Ha.
  apply andb_true_iff in Ha as [-> Ha]. now apply IH.
Qed.

Lemma replace_runs_flag (y : jsstring) :
  drop_while is_dash (R false y) = drop_while is_dash (R true y).
Proof.
  destruct y as [|c y]; [reflexivity|].
  cbn [replace_runs]. now destruct (set c).
Qed.

Lemma replace_runs_lead (a y : jsstring) (b b' : bool) :
  forallb set a = true ->
  drop_while is_dash (R b (a ++ y)) = drop_while is_dash (R b' y).
Proof.
  intros Ha.
  assert (Hy : forall b0, drop_while is_dash (R b0 y)
                          = drop_while is_dash (R true y))
    by (intros [|]; [reflexivity | apply replace_runs_flag]).
  rewrite (Hy b').
  destruct a as [|c a]; [apply Hy|].
  cbn [forallb] in Ha. apply andb_true_iff in Ha as [Hc Ha].
  cbn [app replace_runs]. rewrite Hc, replace_runs_absorb by exact Ha.
  now destruct b.
Qed.

Lemma replace_runs_trail (y b0 : jsstring) :
  forallb set b0 = true ->
  forall b, exists t,
    R b (y ++ b0) = R b y ++ t /\ forallb is_dash t = true.
Proof.
  intros Hb. induction y as [|c y IH]; intros b.
  - cbn [app replace_runs]. destruct b0 as [|c b0]; [now exists []|].
    cbn [forallb] in Hb. apply andb_true_iff in Hb as [Hc Hb].
    cbn [replace_runs]. rewrite Hc, replace_runs_all by exact Hb.
    destruct b; [now exists [] | now exists [0x2D%N]].
  - cbn [app replace_runs]. destruct (set c).
    + destruct (IH true) as (t & -> & Ht). exists t.
      now rewrite app_assoc.
    + destruct (IH false) as (t & -> & Ht). now exists t.
Qed.

(** Separators at either end of a string do not show in its trimmed
    replacement. *)
Lemma trim_replace_runs_ends (a y b0 : jsstring) :
  forallb set a = true -> forallb set b0 = true ->
  trim_dashes (R false (a ++ y ++ b0)) = trim_dashes (R false y).
Proof.
  intros Ha Hb. unfold trim_dashes.
  rewrite (@replace_runs_lead a (y ++ b0) false false Ha).
  destruct (@replace_runs_trail y b0 Hb false) as (t & -> & Ht).
  now apply (@trim_both_all is_dash [] (R false y) t).
Qed.

End Replace.

End RunsOfDashes.

Module SlugFacts.

Import ShapeFacts RunsOfDashes.

Lemma single_dashes_app (a b : jsstring) :
  single_dashes (a ++ b) = true ->
  single_dashes a = true /\ single_dashes b = true.
Proof.
  induction a as [|c a IH]; [now split|].
  destruct a as [|d a].
  - cbn [app]. destruct b as [|x b]; [now split|].
    rewrite single_dashes_cons. intros Hs.
    apply andb_true_iff in Hs as [_ Hs]. now split.
  - cbn [app]. rewrite !single_dashes_cons. intros Hs.
    apply andb_true_iff in Hs as [Hcd Hs].
    destruct (IH Hs) as [Ha Hb]. now rewrite Hcd, Ha.
Qed.

Lemma dash_is_separator (c : N) : is_dash c = true -> is_separator c = true.
Proof. unfold is_separator. intros ->. now rewrite !orb_true_r. Qed.

Lemma kept_letter_or_digit (c : N) :
  is_kept c = true -> is_separator c = false -> is_alnum c = true.
Proof.
  unfold is_kept, is_separator, is_word, is_alnum.
  destruct (is_space c), (is_dash c), (c =? 0x5F)%N; cbn;
    rewrite ?orb_false_r, ?orb_true_r; congruence.
Qed.

Lemma slug_char_unreserved (c : N) :
  is_alnum c || is_dash c = true -> uri_unreserved c = true.
Proof.
  unfold is_alnum, uri_unreserved, is_dash. cbn [existsb].
  destruct (is_digit c), (is_upper c), (is_lower c); cbn; try reflexivity.
  rewrite N.eqb_sym. now intros ->.
Qed.

Lemma encode_unreserved (s : jsstring) :
  forallb uri_unreserved s = true -> encodeURIComponent s = Some s.
Proof.
  induction s as [|c s IH]; [reflexivity|].
  cbn [forallb encodeURIComponent]. intros Hs.
  apply andb_true_iff in Hs as [-> Hs]. now rewrite IH.
Qed.

(** Both ends of a trimmed string, and what is between them. *)
Lemma trim_dashes_split (x : jsstring) :
  exists a b, x = a ++ trim_dashes x ++ b.
Proof.
  unfold trim_dashes.
  destruct (drop_while_split is_dash x) as (a & Ha & _).
  destruct (drop_while_end_split is_dash (drop_while is_dash x)) as (b & Hb & _).
  exists a, b. now rewrite <- Hb.
Qed.

Lemma trim_dashes_ends (x : jsstring) :
  no_dash_first (trim_dashes x) = true /\
  no_dash_first (rev (trim_dashes x)) = true.
Proof.
  unfold trim_dashes. split.
  - pose proof (drop_while_first is_dash x) as Hf.
    destruct (drop_while_end_split is_dash (drop_while is_dash x))
      as (b & Hb & _).
    destruct (drop_while_end is_dash (drop_while is_dash x)) as [|c t];
      [reflexivity|].
    rewrite Hb in Hf. cbn in Hf |- *. now rewrite Hf.
  - pose proof (drop_while_end_last is_dash (drop_while is_dash x)) as Hl.
    destruct (rev _) as [|c t]; [reflexivity|]. cbn. now rewrite Hl.
Qed.

Lemma forallb_filter_kept {A} (p q : A -> bool) (l : list A) :
  forallb p l = true -> forallb p (filter q l) = true.
Proof.
  induction l as [|x l IH]; [reflexivity|].
  cbn [forallb filter]. intros Hl. apply andb_true_iff in Hl as [Hx Hl].
  destruct (q x); cbn [forallb]; [rewrite Hx|]; auto.
Qed.

Section Slugs.
Context `{CaseTables}.

Lemma slugify_eq (t : jsstring) :
  slugify t
  = trim_dashes (replace_runs is_separator [0x2D%N] false
                   (cleaned (toLowerCase t))).
Proof. reflexivity. Qed.

Lemma editor_slugify_eq (t : jsstring) :
  Editor.slugify t
  = trim_dashes (replace_runs is_separator [0x2D%N] false
                   (cleaned (Editor.trim (toLowerCase t)))).
Proof. reflexivity. Qed.

Lemma space_is_separator (a : jsstring) :
  forallb is_space a = true -> forallb is_separator (cleaned a) = true.
Proof.
  intros Ha. unfold cleaned, remove_all. apply forallb_filter_kept.
  rewrite forallb_forall in *. intros c Hc. unfold is_separator.
  now rewrite (Ha c Hc).
Qed.

Lemma slug_chars (t : jsstring) :
  Forall (fun c => is_dash c = true
                   \/ (is_alnum c = true /\ In c (toLowerCase t)))
         (slugify t).
Proof.
  rewrite slugify_eq.
  pose proof (@replace_runs_chars is_separator (cleaned (toLowerCase t)) false)
    as Hall.
  destruct (trim_dashes_split
              (replace_runs is_separator [0x2D%N] false (cleaned (toLowerCase t))))
    as (a & b & Hx).
  rewrite Hx in Hall.
  apply Forall_app in Hall as [_ Hall]. apply Forall_app in Hall as [Hall _].
  eapply Forall_impl; [|exact Hall]. cbn.
  intros c [Hc|[Hc Hin]]; [now left | right].
  unfold cleaned, remove_all in Hin. apply filter_In in Hin as [Hin Hk].
  apply negb_true_iff, negb_false_iff in Hk.
  split; [now apply kept_letter_or_digit | exact Hin].
Qed.

End Slugs.

End SlugFacts.

Module SlugTheorems.

Import ShapeFacts RunsOfDashes SlugFacts.

(** X13.  The slug of [generateAndPublishAutoPost], whatever the title and
    whatever the case tables of the runtime, consists of ASCII letters and
    digits that occur in the lower-cased title and of dashes, has no dash
    at its beginning or at its end and no two dashes in a row.  So it is
    left as it is by [encodeURIComponent]: it can be put into a URL path
    without escaping; and a title without any letter or digit of ASCII
    gives the empty slug. *)
Theorem slug_is_letters_digits_and_single_dashes
    `{CaseTables} (t : jsstring) :
  is_slug (slugify t) = true /\
  Forall (fun c => is_dash c = true \/ In c (toLowerCase t)) (slugify t) /\
  encodeURIComponent (slugify t) = Some (slugify t) /\
  (forallb (fun c => negb (is_alnum c)) (toLowerCase t) = true ->
   slugify t = []).
Proof.
  pose proof (slug_chars t) as Hchars.
  assert (Hall : forallb (fun c => is_alnum c || is_dash c) (slugify t) = true).
  { apply forallb_forall. intros c Hc.
    rewrite Forall_forall in Hchars.
    destruct (Hchars c Hc) as [->|[-> _]]; [apply orb_true_r | reflexivity]. }
  split; [|split; [|split]].
  - unfold is_slug. rewrite Hall. cbn [andb].
    rewrite slugify_eq.
    destruct (trim_dashes_ends
                (replace_runs is_separator [0x2D%N] false (cleaned (toLowerCase t))))
      as [-> ->]. cbn [andb].
    destruct (@replace_runs_single is_separator dash_is_separator
                (cleaned (toLowerCase t)) false) as [Hs _].
    destruct (trim_dashes_split
                (replace_runs is_separator [0x2D%N] false (cleaned (toLowerCase t))))
      as (a & b & Hx).
    rewrite Hx in Hs.
    apply single_dashes_app in Hs as [_ Hs].
    now apply single_dashes_app in Hs as [Hs _].
  - eapply Forall_impl; [|exact Hchars]. cbn. intros c [Hc|[_ Hc]]; auto.
  - apply encode_unreserved, forallb_forall. intros c Hc.
    rewrite forallb_forall in Hall. apply slug_char_unreserved. auto.
  - intros Hnone.
    destruct (slugify t) as [|c s] eqn:E; [reflexivity|exfalso].
    pose proof (trim_dashes_ends
                  (replace_runs is_separator [0x2D%N] false
                     (cleaned (toLowerCase t)))) as [Hfirst _].
    rewrite <- slugify_eq, E in Hfirst. cbn in Hfirst.
    apply Forall_inv in Hchars. destruct Hchars as [Hd|[Ha Hin]].
    + now rewrite Hd in Hfirst.
    + rewrite forallb_forall in Hnone. specialize (Hnone c Hin).
      now rewrite Ha in Hnone.
Qed.

Lemma slug_is_letters_digits_and_single_dashes_witness :
  @slugify Demo.ascii_case_tables (lit "?!") = [].
Proof.
  apply (proj2 (proj2 (proj2
           (@slug_is_letters_digits_and_single_dashes Demo.ascii_case_tables
              (lit "?!"))))).
  reflexivity.
Defined.

(** X14.  The [slugify] of the post editor, which trims white space from
    the lower-cased text before it removes and replaces characters, and
    the expression that [generateAndPublishAutoPost] uses for the slug,
    which does not, give the same slug for every title: the white space
    that [trim] removes would become dashes that the last replacement
    removes. *)
Theorem editor_and_auto_post_slugs_agree `{CaseTables} (t : jsstring) :
  Editor.slugify t = slugify t.
Proof.
  rewrite editor_slugify_eq, slugify_eq. unfold Editor.trim.
  set (u := toLowerCase t).
  destruct (drop_while_split is_space u) as (a & Ha & Hsa).
  destruct (drop_while_end_split is_space (drop_while is_space u))
    as (b & Hb & Hsb).
  set (m := drop_while_end is_space (drop_while is_space u)) in *.
  assert (Hu : u = a ++ m ++ b) by (rewrite <- Hb; exact Ha).
  clearbody m u. rewrite Hu.
  unfold cleaned, remove_all. rewrite !filter_app.
  symmetry.
  apply trim_replace_runs_ends; now apply space_is_separator.
Qed.

End SlugTheorems.

Module FilenameFacts.

Import ShapeFacts RunsOfDashes SlugFacts.

Lemma dash_not_lower_or_digit (c : N) :
  is_dash c = true -> not_lower_or_digit c = true.
Proof.
  unfold is_dash, not_lower_or_digit. intros Hc. apply N.eqb_eq in Hc.
  now subst c.
Qed.

Lemma trim_one_dash_split (x : jsstring) :
  exists a b, x = a ++ trim_one_dash x ++ b.
Proof.
  unfold trim_one_dash.
  set (s1 := match x with
             | c :: t => if is_dash c then t else x
             | [] => []
             end).
  assert (H1 : exists a, x = a ++ s1).
  { subst s1. destruct x as [|c t]; [now exists []|].
    destruct (is_dash c); [now exists [c] | now exists []]. }
  destruct H1 as (a & Ha).
  destruct (rev s1) as [|c t] eqn:Hr.
  - exists x, []. now rewrite app_nil_r.
  - assert (Hs : s1 = rev t ++ [c]).
    { rewrite <- (rev_involutive s1), Hr. reflexivity. }
    destruct (is_dash c).
    + exists a, [c]. now rewrite <- Hs.
    + exists a, []. now rewrite app_nil_r.
Qed.

Lemma trim_one_dash_first (x : jsstring) :
  single_dashes x = true -> no_dash_first (trim_one_dash x) = true.
Proof.
  intros Hx. unfold trim_one_dash.
  set (s1 := match x with
             | c :: t => if is_dash c then t else x
             | [] => []
             end).
  assert (H1 : no_dash_first s1 = true).
  { subst s1. destruct x as [|c t]; [reflexivity|].
    destruct (is_dash c) eqn:Hc; [|cbn; now rewrite Hc].
    destruct t as [|d t]; [reflexivity|].
    rewrite single_dashes_cons, Hc in Hx. cbn [andb] in Hx.
    apply andb_true_iff in Hx as [Hd _]. exact Hd. }
  destruct (rev s1) as [|c t] eqn:Hr; [reflexivity|].
  destruct (is_dash c); [|exact H1].
  assert (Hs : s1 = rev t ++ [c]).
  { rewrite <- (rev_involutive s1), Hr. reflexivity. }
  rewrite Hs in H1. now destruct (rev t).
Qed.

Lemma firstn_split (n : nat) (x : jsstring) :
  exists b, x = firstn n x ++ b.
Proof. exists (skipn n x). symmetry. apply firstn_skipn. Qed.

Lemma no_dash_first_firstn (n : nat) (x : jsstring) :
  no_dash_first x = true -> no_dash_first (firstn n x) = true.
Proof. destruct n, x; auto. Qed.

Lemma replace_all_one_dash (u : jsstring) :
  forallb not_lower_or_digit u = true ->
  trim_one_dash (replace_runs not_lower_or_digit [0x2D%N] false u) = [].
Proof.
  destruct u as [|c u]; [reflexivity|].
  cbn [forallb replace_runs]. intros Hu.
  apply andb_true_iff in Hu as [-> Hu].
  now rewrite replace_runs_all.
Qed.

End FilenameFacts.

Module FilenameTheorems.

Import ShapeFacts RunsOfDashes SlugFacts FilenameFacts.

(** X12.  The file name that [generateAndStoreCoverImage] makes when the
    caller supplies none is the slug of the topic, or [ai-image] when that
    slug is empty, followed by a dash, the time in seconds and [.jpg].
    Whatever the topic, the slug has at most 50 code units, all of them
    lower-case ASCII letters, digits or dashes, it does not begin with a
    dash and has no two dashes in a row; for a topic without any
    lower-case letter or digit after lower-casing it is empty. *)
Theorem default_filename_is_plain_ascii
    `{CaseTables} (topic : jsstring) (now_ms : Z) :
  let slug := filename_slug topic in
  default_filename topic now_ms
  = (match slug with [] => lit "ai-image" | _ => slug end)
      ++ lit "-" ++ of_Z (now_ms / 1000) ++ lit ".jpg" /\
  forallb (fun c => is_lower c || is_digit c || is_dash c) slug = true /\
  (List.length slug <= 50)%nat /\
  no_dash_first slug = true /\
  single_dashes slug = true /\
  (forallb (fun c => negb (is_lower c || is_digit c)) (toLowerCase topic)
   = true -> slug = []).
Proof.
  intros slug.
  set (x := replace_runs not_lower_or_digit [0x2D%N] false (toLowerCase topic)).
  assert (Hslug : slug = firstn 50 (trim_one_dash x)) by reflexivity.
  destruct (@replace_runs_single not_lower_or_digit dash_not_lower_or_digit
              (toLowerCase topic) false) as [Hsingle _].
  fold x in Hsingle.
  pose proof (@replace_runs_chars not_lower_or_digit (toLowerCase topic) false)
    as Hchars.
  fold x in Hchars.
  destruct (trim_one_dash_split x) as (a & b & Hx).
  destruct (firstn_split 50 (trim_one_dash x)) as (b' & Hb').
  rewrite <- Hslug in Hb'.
  split; [|split; [|split; [|split; [|split]]]].
  - unfold default_filename. fold (filename_slug topic). fold slug.
    now destruct slug.
  - rewrite Hx, Hb' in Hchars.
    apply Forall_app in Hchars as [_ Hchars].
    apply Forall_app in Hchars as [Hchars _].
    apply Forall_app in Hchars as [Hchars _].
    apply forallb_forall. intros c Hc.
    rewrite Forall_forall in Hchars.
    destruct (Hchars c Hc) as [->|[Hn _]]; [apply orb_true_r|].
    unfold not_lower_or_digit in Hn. apply negb_false_iff in Hn.
    now rewrite Hn.
  - rewrite Hslug. apply firstn_le_length.
  - rewrite Hslug. apply no_dash_first_firstn. now apply trim_one_dash_first.
  - rewrite Hx, Hb' in Hsingle.
    apply single_dashes_app in Hsingle as [_ Hsingle].
    apply single_dashes_app in Hsingle as [Hsingle _].
    now apply single_dashes_app in Hsingle as [Hsingle _].
  - intros Hnone. rewrite Hslug. subst x.
    now rewrite replace_all_one_dash.
Qed.

Lemma default_filename_is_plain_ascii_witness :
  @filename_slug Demo.ascii_case_tables (lit "?!") = [] /\
  @default_filename Demo.ascii_case_tables (lit "?!") 1767225600000
  = lit "ai-image-1767225600.jpg".
Proof.
  pose proof (@default_filename_is_plain_ascii Demo.ascii_case_tables
                (lit "?!") 1767225600000) as (Hname & _ & _ & _ & _ & Hempty).
  specialize (Hempty eq_refl). split; [exact Hempty|].
  rewrite Hname, Hempty. reflexivity.
Defined.

End FilenameTheorems.

(** ** The persistence contract: rows and listings *)

Module ListingFacts.

Import JsonFacts RouteFacts.

Lemma map_sum_length {A B} (f : A -> JsError + B) (l : list A) :
  forall ys, map_sum f l = inr ys -> List.length ys = List.length l.
Proof.
  induction l as [|x l IH]; intros ys; cbn [map_sum].
  - now intros [= <-].
  - destruct (f x) as [e|y]; [discriminate|].
    destruct (map_sum f l) as [e|ys']; [discriminate|].
    intros [= <-]. cbn. now rewrite (IH ys').
Qed.

Lemma map_sum_each {A B} (f : A -> JsError + B) (l : list A) :
  forall ys, map_sum f l = inr ys -> Forall2 (fun x y => f x = inr y) l ys.
Proof.
  induction l as [|x l IH]; intros ys; cbn [map_sum].
  - intros [= <-]. constructor.
  - destruct (f x) as [e|y] eqn:Hx; [discriminate|].
    destruct (map_sum f l) as [e|ys']; [discriminate|].
    intros [= <-]. constructor; auto.
Qed.

Lemma map_sum_fails {A B} (f : A -> JsError + B) (l : list A) (x : A)
    (e : JsError) :
  In x l -> f x = inl e -> exists e', map_sum f l = inl e'.
Proof.
  induction l as [|a l IH]; intros Hin Hx; [destruct Hin|].
  cbn [map_sum]. destruct Hin as [->|Hin].
  - rewrite Hx. eauto.
  - destruct (f a); [eauto|].
    destruct (IH Hin Hx) as (e' & ->). eauto.
Qed.

Lemma length_insert_by_date (row : Row) (sorted : list Row) :
  List.length (insert_by_date row sorted) = S (List.length sorted).
Proof.
  induction sorted as [|r rest IH]; [reflexivity|].
  cbn [insert_by_date]. destruct (_ <? _)%Z; cbn; auto.
Qed.

Lemma length_newest_first (rows : list Row) :
  List.length (newest_first rows) = List.length rows.
Proof.
  unfold newest_first. induction rows as [|r rows IH]; [reflexivity|].
  cbn [fold_right]. now rewrite length_insert_by_date, IH.
Qed.

Lemma insert_by_date_sorted (row : Row) (sorted : list Row) :
  newest_to_oldest sorted -> newest_to_oldest (insert_by_date row sorted).
Proof.
  induction sorted as [|r rest IH]; intros Hs.
  - cbn. split; [intros r' []|exact I].
  - cbn [insert_by_date]. destruct Hs as [Hr Hrest].
    destruct (Z.ltb_spec (created_at r) (created_at row)) as [Hlt|Hge].
    + split; [|split; assumption].
      intros r' [<-|Hin]; [lia|]. specialize (Hr r' Hin). lia.
    + split; [|now apply IH].
      intros r' Hin. apply in_insert_by_date in Hin as [->|Hin]; auto.
Qed.

Lemma newest_first_sorted (rows : list Row) :
  newest_to_oldest (newest_first rows).
Proof.
  unfold newest_first. induction rows as [|r rows IH]; [exact I|].
  cbn [fold_right]. now apply insert_by_date_sorted.
Qed.

Lemma cannot_be_json_rejected (text : jsstring) :
  cannot_be_json text = true -> JSON_parse text = inl SyntaxError.
Proof.
  unfold cannot_be_json, JSON_parse. cbn [parse_value].
  destruct (skip_ws text) as [|c t]; [reflexivity|].
  destruct (N.eqb_spec c 0x74) as [->|_].
  { cbn [N.eqb Pos.eqb]. unfold expect. intros Hw.
    apply negb_true_iff in Hw. now rewrite Hw. }
  destruct (N.eqb_spec c 0x66) as [->|_].
  { cbn [N.eqb Pos.eqb]. unfold expect. intros Hw.
    apply negb_true_iff in Hw. now rewrite Hw. }
  destruct (N.eqb_spec c 0x6E) as [->|_].
  { cbn [N.eqb Pos.eqb]. unfold expect. intros Hw.
    apply negb_true_iff in Hw. now rewrite Hw. }
  intros Hc. apply negb_true_iff in Hc.
  repeat (apply orb_false_iff in Hc as [Hc ?]).
  cbn [parse_int].
  repeat match goal with
         | E : _ = false |- _ => rewrite E; clear E
         end.
  reflexivity.
Qed.

End ListingFacts.

Module SavingFacts.

Import JsonFacts RouteFacts ListingFacts.

Section Facts.
Variable parse_date : JsVal -> Z.
Variable aeo_column_is_json : bool.

Lemma keep_name (c c' : jsstring * JsVal) :
  keep aeo_column_is_json c = inr c' -> fst c' = fst c.
Proof.
  destruct c as [name v]. unfold keep.
  destruct (_ && _); [destruct (stored_json v); [discriminate|]|];
    now intros [= <-].
Qed.

Lemma map_sum_keep_names (cols cols' : list (jsstring * JsVal)) :
  map_sum (keep aeo_column_is_json) cols = inr cols' ->
  map fst cols' = map fst cols.
Proof.
  intros Hk. apply map_sum_each in Hk.
  induction Hk as [|c c' cols cols' Hc _ IH]; [reflexivity|].
  cbn [map]. now rewrite IH, (keep_name _ Hc).
Qed.

Lemma last_value_other (name : jsstring) (cols : list (jsstring * JsVal)) :
  existsb (JsString.eqb name) (map fst cols) = false ->
  forall d, last_value name cols d = d.
Proof.
  unfold last_value. induction cols as [|[k v] cols IH]; intros Hn d;
    [reflexivity|].
  cbn [map fst existsb] in Hn. apply orb_false_iff in Hn as [Hk Hn].
  cbn [fold_left fst snd]. rewrite Hk. now apply IH.
Qed.

Lemma assigned_columns (fields : list (jsstring * JsVal)) :
  map fst (update_values fields) = assigned_names.
Proof. reflexivity. Qed.

(** A save of an existing post assigns to the columns of its statement
    and to no other. *)
Lemma set_columns_frame (fields : list (jsstring * JsVal))
    (cols : list (jsstring * JsVal)) (row : Row) (name : jsstring) :
  map_sum (keep aeo_column_is_json) (update_values fields) = inr cols ->
  is_assigned name = false ->
  obj_get name (set_columns cols row) = obj_get name row.
Proof.
  intros Hk Hn. rewrite obj_get_set_columns. apply last_value_other.
  now rewrite (map_sum_keep_names _ Hk), assigned_columns.
Qed.

Lemma upsert_existing (fields : list (jsstring * JsVal)) (st st' : Store)
    (k : jsstring) :
  key_of (obj_get (lit "id") fields) = Some k ->
  existsb (has_key k) st = true ->
  upsert parse_date aeo_column_is_json fields st = inr st' ->
  exists cols,
    map_sum (keep aeo_column_is_json) (update_values fields) = inr cols /\
    st' = map (fun row => if has_key k row then set_columns cols row else row)
              st.
Proof.
  intros Hk Hex. unfold upsert. rewrite Hk, Hex.
  destruct (map_sum _ _) as [e|cols]; [discriminate|].
  intros [= <-]. now exists cols.
Qed.

End Facts.

End SavingFacts.

Module RouteTheorems.

Import JsonFacts RouteFacts ListingFacts SavingFacts.

(** X16.  A [POST] of a post whose id is already in the table changes
    neither the number of rows nor the id or the creation date of any row,
    whatever [dateCreated] the request carries, and leaves every row with
    another id as it was: the statement assigns to the sixteen columns it
    lists after ON DUPLICATE KEY UPDATE, and [id] and [dateCreated] are not
    among them.  A [POST] of a post whose id is new, when it succeeds,
    adds one row at the end and changes no other. *)
Theorem save_touches_one_row_and_keeps_its_date
    (parse_date : JsVal -> Z) (aeo_column_is_json : bool)
    (fields : list (jsstring * JsVal)) (st : Store) (k : jsstring) :
  let st' := snd (POST parse_date aeo_column_is_json (JObj fields) st) in
  key_of (field fields "id") = Some k ->
  (existsb (has_key k) st = true ->
   List.length st' = List.length st /\
   map (obj_get (lit "id")) st' = map (obj_get (lit "id")) st /\
   map (obj_get (lit "dateCreated")) st'
   = map (obj_get (lit "dateCreated")) st /\
   Forall2 (fun row row' => has_key k row = false -> row' = row) st st') /\
  (existsb (has_key k) st = false ->
   st' = st \/
   exists row,
     st' = st ++ [row] /\ has_key k row = true /\
     obj_get (lit "dateCreated") row
     = JNum (parse_date (field fields "dateCreated"))).
Proof.
  cbv zeta. intros Hk. unfold POST. cbn [get_prop]. split.
  - intros Hex.
    destruct (upsert parse_date aeo_column_is_json fields st) as [e|st1]
      eqn:Hup; cbn [snd].
    + repeat split. clear. induction st; constructor; auto.
    + destruct (@upsert_existing parse_date aeo_column_is_json fields st st1 k
                  Hk Hex Hup) as (cols & Hcols & ->).
      rewrite length_map, !map_map.
      repeat split.
      * apply map_ext. intros row. destruct (has_key k row); [|reflexivity].
        now apply (@set_columns_frame aeo_column_is_json fields).
      * apply map_ext. intros row. destruct (has_key k row); [|reflexivity].
        now apply (@set_columns_frame aeo_column_is_json fields).
      * clear. induction st as [|row st IH]; cbn [map]; constructor; auto.
        now intros ->.
  - intros Hex. unfold upsert. fold (field fields "id"). rewrite Hk, Hex.
    destruct (map_sum _ (insert_values parse_date fields)) as [e|row] eqn:Hrow;
      cbn [snd]; [now left|right].
    exists row. split; [reflexivity|].
    unfold insert_values in Hrow. cbn [map_sum] in Hrow.
    unfold keep at 1 2 in Hrow.
    change (JsString.eqb (lit "id") (lit "aeoQuestions")) with false in Hrow.
    change (JsString.eqb (lit "dateCreated") (lit "aeoQuestions")) with false
      in Hrow.
    cbn [andb] in Hrow.
    destruct (map_sum _ (update_values fields)) as [e|cols] eqn:Hcols;
      [discriminate|].
    injection Hrow as <-. split.
    + unfold has_key. cbn [obj_get].
      change (JsString.eqb (lit "id") (lit "id")) with true. cbn iota.
      fold (field fields "id").
      destruct (field fields "id"); try discriminate; cbn [stored];
        rewrite Hk; apply eqb_refl.
    + cbn [obj_get].
      change (JsString.eqb (lit "dateCreated") (lit "id")) with false.
      change (JsString.eqb (lit "dateCreated") (lit "dateCreated")) with true.
      reflexivity.
Qed.

Lemma save_touches_one_row_and_keeps_its_date_witness :
  let first := Demo.properties (Demo.guide [lit "List income"] false) in
  let again :=
    obj_set (lit "dateCreated") (str "2/2/2027, 9:00:00 AM")
      (obj_set (lit "title") (str "A Budget in Three Steps") first) in
  let st := snd (POST Newsdesk.day_of false (JObj first) []) in
  let st' := snd (POST Newsdesk.day_of false (JObj again) st) in
  List.length st' = 1%nat /\
  map (obj_get (lit "dateCreated")) st' = [JNum 1] /\
  map (obj_get (lit "title")) st' = [str "A Budget in Three Steps"].
Proof.
  intros first again st st'.
  destruct (proj1 (@save_touches_one_row_and_keeps_its_date Newsdesk.day_of
                     false again st (lit "1767225600000") eq_refl) eq_refl)
    as (Hlen & _ & Hdate & _).
  split; [exact Hlen|]. split; [exact Hdate|]. reflexivity.
Defined.

(** X17.  For a row that [GET] can decode, the post it lists has every
    column of the row other than [keywords], [aeoQuestions], [steps],
    [commercialIntent] and [isHowTo] with the value the row has, among
    them [id], [title], [content] and [dateCreated], and has booleans for
    the two flags, [true] exactly when the cell is truthy: a NULL flag
    of a row from before the migration is listed as [false]. *)
Theorem listing_copies_the_other_columns (row : Row) (v : JsVal) :
  decode_row row = inr v ->
  exists o,
    v = JObj o /\
    (forall name, is_computed name = false ->
                  obj_get name o = obj_get name row) /\
    obj_get (lit "commercialIntent") o
    = JBool (truthy (obj_get (lit "commercialIntent") row)) /\
    obj_get (lit "isHowTo") o = JBool (truthy (obj_get (lit "isHowTo") row)).
Proof.
  unfold decode_row.
  destruct (parse_or_empty (obj_get (lit "keywords") row)) as [e|kw];
    [discriminate|].
  destruct (parse_if_string (obj_get (lit "aeoQuestions") row)) as [e|aq];
    [discriminate|].
  destruct (parse_or_empty (obj_get (lit "steps") row)) as [e|sp];
    [discriminate|].
  intros [= <-]. eexists. split; [reflexivity|]. split; [|split].
  - intros name Hk. unfold is_computed, computed_names in Hk.
    cbn [existsb] in Hk.
    repeat (apply orb_false_iff in Hk as [? Hk]).
    rewrite !obj_get_obj_set.
    repeat match goal with
           | E : JsString.eqb name _ = false |- _ => rewrite E; clear E
           end.
    reflexivity.
  - rewrite !obj_get_obj_set. reflexivity.
  - rewrite !obj_get_obj_set. reflexivity.
Qed.

Lemma listing_copies_the_other_columns_witness :
  exists o,
    JObj [(lit "id", str "7"); (lit "title", str "Old post");
          (lit "keywords", JArr []); (lit "aeoQuestions", JArr []);
          (lit "steps", JArr []); (lit "commercialIntent", JBool false);
          (lit "isHowTo", JBool false)] = JObj o /\
    (forall name, is_computed name = false ->
                  obj_get name o = obj_get name Newsdesk.old_row) /\
    obj_get (lit "commercialIntent") o = JBool false /\
    obj_get (lit "isHowTo") o = JBool false.
Proof.
  apply (@listing_copies_the_other_columns Newsdesk.old_row). reflexivity.
Defined.

(** X18.  In a row, a [keywords] or [steps] cell that is NULL, absent or
    the empty text is listed as the empty array, and so is an
    [aeoQuestions] cell that is NULL or absent; the row is decoded without
    any call of [JSON.parse].  An [aeoQuestions] cell that holds the empty
    text, however, is handed to [JSON.parse], which throws. *)
Theorem empty_cells_are_listed_as_empty_arrays (row : Row) :
  truthy (obj_get (lit "keywords") row) = false ->
  truthy (obj_get (lit "steps") row) = false ->
  (obj_get (lit "aeoQuestions") row = JNull \/
   obj_get (lit "aeoQuestions") row = JUndefined ->
   exists o,
     decode_row row = inr (JObj o) /\
     obj_get (lit "keywords") o = JArr [] /\
     obj_get (lit "aeoQuestions") o = JArr [] /\
     obj_get (lit "steps") o = JArr []) /\
  (obj_get (lit "aeoQuestions") row = JStr [] ->
   decode_row row = inl SyntaxError).
Proof.
  intros Hkw Hsp. unfold decode_row, parse_or_empty. rewrite Hkw, Hsp. split.
  - intros [Haq|Haq]; rewrite Haq; cbn [parse_if_string js_or truthy];
      eexists; (split; [reflexivity|]);
      rewrite !obj_get_obj_set; repeat split; reflexivity.
  - intros Haq. rewrite Haq. reflexivity.
Qed.

Lemma empty_cells_are_listed_as_empty_arrays_witness :
  (exists o,
      decode_row Newsdesk.old_row = inr (JObj o) /\
      obj_get (lit "keywords") o = JArr [] /\
      obj_get (lit "aeoQuestions") o = JArr [] /\
      obj_get (lit "steps") o = JArr []) /\
  decode_row (obj_set (lit "aeoQuestions") (JStr []) Newsdesk.old_row)
  = inl SyntaxError.
Proof.
  split.
  - apply (proj1 (@empty_cells_are_listed_as_empty_arrays Newsdesk.old_row
                    eq_refl eq_refl)).
    now left.
  - apply (proj2 (@empty_cells_are_listed_as_empty_arrays
                    (obj_set (lit "aeoQuestions") (JStr []) Newsdesk.old_row)
                    eq_refl eq_refl)).
    reflexivity.
Defined.

(** X19.  [GET] answers with status 500 and an error message, and lists
    no post at all, as soon as one row of the table has a [keywords] or
    [steps] cell that is a non-empty text, or an [aeoQuestions] cell that
    is a text, which is no JSON text as its beginning shows: a list of
    keywords separated by commas, for instance, or the empty text in
    [aeoQuestions].  What the other rows are does not matter. *)
Theorem one_unreadable_row_fails_the_listing (st : Store) (row : Row) :
  In row st ->
  (exists c s, obj_get (lit "keywords") row = JStr (c :: s) /\
               cannot_be_json (c :: s) = true) \/
  (exists s, obj_get (lit "aeoQuestions") row = JStr s /\
             cannot_be_json s = true) \/
  (exists c s, obj_get (lit "steps") row = JStr (c :: s) /\
               cannot_be_json (c :: s) = true) ->
  http_status (GET st) = 500%Z /\
  exists e, body (GET st) = JObj [(lit "error", opt_str (err_message e))].
Proof.
  intros Hin Hcell.
  assert (Hrow : exists e, decode_row row = inl e).
  { unfold decode_row.
    destruct Hcell as [(c & s & Hkw & Hs)|[(s & Haq & Hs)|(c & s & Hsp & Hs)]];
      apply cannot_be_json_rejected in Hs.
    - rewrite Hkw. unfold parse_or_empty at 1.
      cbn [truthy JSON_parse_any]. rewrite Hs. eauto.
    - rewrite Haq. cbn [parse_if_string]. rewrite Hs.
      destruct (parse_or_empty _); eauto.
    - rewrite Hsp. unfold parse_or_empty at 2.
      cbn [truthy JSON_parse_any]. rewrite Hs.
      destruct (parse_or_empty _); [eauto|].
      destruct (parse_if_string _); eauto. }
  destruct Hrow as (e & Hrow). unfold GET.
  destruct (@map_sum_fails _ _ decode_row (newest_first st) row e)
    as (e' & ->); [now apply in_newest_first | assumption |].
  split; [reflexivity|]. now exists e'.
Qed.

Lemma one_unreadable_row_fails_the_listing_witness :
  let torn := obj_set (lit "keywords") (str "budget, saving") Newsdesk.old_row in
  http_status (GET [Newsdesk.old_row; torn]) = 500%Z.
Proof.
  intros torn.
  apply (@one_unreadable_row_fails_the_listing [Newsdesk.old_row; torn] torn).
  - right. now left.
  - left. exists 98%N, (lit "udget, saving"). split; reflexivity.
Defined.

(** X20.  When [GET] answers with a list, it lists every row of the table
    once, decoded, and in the order of the query: from the newest
    [dateCreated] to the oldest. *)
Theorem listing_is_complete_and_newest_first (st : Store) (posts : list JsVal) :
  GET st = ok (JArr posts) ->
  exists rows,
    Forall2 (fun row post => decode_row row = inr post) rows posts /\
    List.length posts = List.length st /\
    (forall row, In row rows <-> In row st) /\
    newest_to_oldest rows.
Proof.
  unfold GET.
  destruct (map_sum decode_row (newest_first st)) as [e|ps] eqn:Hrows;
    [discriminate|].
  intros [= <-]. exists (newest_first st). split; [|split; [|split]].
  - now apply map_sum_each.
  - rewrite (map_sum_length _ _ Hrows). apply length_newest_first.
  - intros row. apply in_newest_first.
  - apply newest_first_sorted.
Qed.

Lemma listing_is_complete_and_newest_first_witness :
  let early := [(lit "id", str "1"); (lit "dateCreated", JNum 1)] in
  let late := [(lit "id", str "2"); (lit "dateCreated", JNum 2)] in
  let posts := match body (GET [early; late]) with
               | JArr posts => posts
               | _ => []
               end in
  map (fun post => match post with
                   | JObj o => obj_get (lit "id") o
                   | _ => JUndefined
                   end) posts = [str "2"; str "1"] /\
  exists rows,
    Forall2 (fun row post => decode_row row = inr post) rows posts /\
    List.length posts = 2%nat /\
    (forall row, In row rows <-> In row [early; late]) /\
    newest_to_oldest rows.
Proof.
  intros early late posts. split; [reflexivity|].
  apply (@listing_is_complete_and_newest_first [early; late] posts).
  reflexivity.
Defined.

End RouteTheorems.

(** ** The client of the storage service *)

Module RemoteStorageFacts.

Import RemoteStorage CoverFacts.

Section Facts.
Context {W : Type} `{Browser W}.

Lemma uploadFile_configured (apiUrl apiKey : jsstring) (file : FormFile)
    (s : State W) :
  given API_URL = Some apiUrl -> given API_KEY = Some apiKey ->
  uploadFile file s =
  match browser_URL apiUrl [(lit "action", lit "upload"); (lit "api_key", apiKey)] with
  | inl _ => (inr network_error, s)
  | inr uploadUrl =>
      let request := upload_of uploadUrl apiKey file in
      let s' := mkState (snd (browser_fetch request (world s)))
                        (trace s ++ [EvFetch request]) in
      match fst (browser_fetch request (world s)) with
      | inl _ => (inr network_error, s')
      | inr response =>
          if reply_ok response then
            match reply_json response with
            | inl _ => (inr network_error, s')
            | inr data =>
                match data with
                | JObj fields =>
                    if truthy (obj_get (lit "success") fields)
                    then (inr (mkOutcome true (obj_get (lit "url") fields)
                                         JUndefined), s')
                    else (inr (mkOutcome false JUndefined
                                 (js_or (obj_get (lit "error") fields)
                                        (str "Upload failed"))), s')
                | JUndefined | JNull => (inr network_error, s')
                | _ => (inr (mkOutcome false JUndefined (str "Upload failed")),
                        s')
                end
            end
          else
            match reply_text response with
            | inl _ => (inr network_error, s')
            | inr _ =>
                (inr (mkOutcome false JUndefined
                        (JStr (lit "Upload failed: "
                                 ++ of_Z (reply_status response) ++ lit " "
                                 ++ reply_statusText response))), s')
            end
      end
  end.
Proof.
  intros Hurl Hkey. unfold uploadFile. rewrite Hurl, Hkey.
  unfold try_catch, bind, of_sum, external, ret.
  destruct (browser_URL apiUrl _) as [e|uploadUrl]; [reflexivity|].
  cbv zeta.
  destruct (browser_fetch (upload_of uploadUrl apiKey file) (world s))
    as [[e|response] w']; [reflexivity|].
  cbn [fst snd].
  destruct (reply_ok response); cbn [negb].
  - destruct (reply_json response) as [e|data]; [reflexivity|].
    destruct data; try reflexivity.
    cbn [get_prop]. destruct (truthy (obj_get (lit "success") fields));
      reflexivity.
  - destruct (reply_text response); reflexivity.
Qed.

Lemma deleteFile_configured (apiUrl apiKey filename : jsstring) (s : State W) :
  given API_URL = Some apiUrl -> given API_KEY = Some apiKey ->
  deleteFile filename s =
  match encodeURIComponent filename with
  | None => (inr false, s)
  | Some encoded =>
      let request := delete_of apiUrl apiKey encoded in
      let s' := mkState (snd (browser_fetch request (world s)))
                        (trace s ++ [EvFetch request]) in
      match fst (browser_fetch request (world s)) with
      | inl _ => (inr false, s')
      | inr response =>
          match reply_json response with
          | inr (JObj fields) =>
              (inr (is_true (obj_get (lit "success") fields)), s')
          | _ => (inr false, s')
          end
      end
  end.
Proof.
  intros Hurl Hkey. unfold deleteFile. rewrite Hurl, Hkey.
  unfold encodeURIComponentM, try_catch, bind, of_sum, external, ret, throw.
  destruct (encodeURIComponent filename) as [encoded|]; [|reflexivity].
  cbv zeta.
  destruct (browser_fetch (delete_of apiUrl apiKey encoded) (world s))
    as [[e|response] w']; [reflexivity|].
  cbn [fst snd].
  destruct (reply_json response) as [e|data]; [reflexivity|].
  destruct data; reflexivity.
Qed.

Lemma listFiles_configured (apiUrl apiKey : jsstring) (s : State W) :
  given API_URL = Some apiUrl -> given API_KEY = Some apiKey ->
  listFiles s =
  let request := list_of apiUrl apiKey in
  let s' := mkState (snd (browser_fetch request (world s)))
                    (trace s ++ [EvFetch request]) in
  match fst (browser_fetch request (world s)) with
  | inr response =>
      if reply_ok response then
        match reply_json response with
        | inr files => (inr files, s')
        | inl _ => (inr (JArr []), s')
        end
      else (inr (JArr []), s')
  | inl _ => (inr (JArr []), s')
  end.
Proof.
  intros Hurl Hkey. unfold listFiles. rewrite Hurl, Hkey.
  unfold try_catch, bind, of_sum, external, ret, throw. cbv zeta.
  destruct (browser_fetch (list_of apiUrl apiKey) (world s))
    as [[e|response] w']; [reflexivity|].
  cbn [fst snd].
  destruct (reply_ok response); cbn [negb].
  - destruct (reply_json response); reflexivity.
  - destruct (reply_text response); reflexivity.
Qed.

End Facts.

End RemoteStorageFacts.

Module RemoteStorageTheorems.

Import RemoteStorage CoverFacts RemoteStorageFacts.

(** X21.  When the URL or the key of the storage service is absent or
    empty, the three functions of the client answer at once and send
    nothing: [uploadFile] reports "Remote storage configuration missing",
    [listFiles] returns the empty array and [deleteFile] returns
    [false]. *)
Theorem storage_client_sends_nothing_without_configuration
    {W : Type} `{Browser W} (s : State W) :
  given API_URL = None \/ given API_KEY = None ->
  (forall file, uploadFile file s = (inr missing, s)) /\
  listFiles s = (inr (JArr []), s) /\
  (forall filename, deleteFile filename s = (inr false, s)).
Proof.
  intros [Hc|Hc]; repeat split; intros;
    unfold uploadFile, listFiles, deleteFile; rewrite Hc;
    try reflexivity; now destruct (given API_URL).
Qed.

Lemma storage_client_sends_nothing_without_configuration_witness :
  let B := Cabinet.browser (Some Cabinet.service) (Some []) in
  let s := Demo.start [inr (Cabinet.json_reply 200 (JArr []))] in
  @uploadFile _ B Cabinet.photo s = (inr missing, s) /\
  @listFiles _ B s = (inr (JArr []), s) /\
  @deleteFile _ B (lit "desk.jpg") s = (inr false, s).
Proof.
  intros B s.
  destruct (@storage_client_sends_nothing_without_configuration _ B s)
    as (Hup & Hlist & Hdel); [now right|].
  split; [apply Hup|]. split; [exact Hlist | apply Hdel].
Defined.

(** X22.  [uploadFile] never throws and sends at most one request, a POST
    that carries the file.  It reports success only when the storage
    service has answered that request with an OK status and a JSON object
    whose [success] is truthy, and then the URL it returns is the [url] of
    that object; every thrown error on the way, of [new URL], of [fetch] or
    of a body reader, ends in a result with [success = false]. *)
Theorem upload_succeeds_only_when_the_service_confirms
    {W : Type} `{Browser W} (file : FormFile) (s : State W) :
  exists r s',
    uploadFile file s = (inr r, s') /\
    (trace s' = trace s \/
     exists request,
       trace s' = trace s ++ [EvFetch request] /\
       req_method request = lit "POST" /\ req_body request = Some file) /\
    (done r = true ->
     exists apiUrl apiKey uploadUrl response fields,
       given API_URL = Some apiUrl /\ given API_KEY = Some apiKey /\
       browser_URL apiUrl
         [(lit "action", lit "upload"); (lit "api_key", apiKey)]
       = inr uploadUrl /\
       fst (browser_fetch (upload_of uploadUrl apiKey file) (world s))
       = inr response /\
       reply_ok response = true /\
       reply_json response = inr (JObj fields) /\
       truthy (obj_get (lit "success") fields) = true /\
       at_url r = obj_get (lit "url") fields).
Proof.
  destruct (given API_URL) as [apiUrl|] eqn:Hurl.
  2:{ exists missing, s. unfold uploadFile. rewrite Hurl.
      split; [reflexivity|]. split; [now left | discriminate]. }
  destruct (given API_KEY) as [apiKey|] eqn:Hkey.
  2:{ exists missing, s. unfold uploadFile. rewrite Hurl, Hkey.
      split; [reflexivity|]. split; [now left | discriminate]. }
  rewrite (uploadFile_configured file s Hurl Hkey).
  destruct (browser_URL apiUrl _) as [e|uploadUrl] eqn:Hup.
  { do 2 eexists. split; [reflexivity|]. split; [now left | discriminate]. }
  cbv zeta.
  assert (Hsent : forall w' : W,
             trace (mkState w' (trace s ++ [EvFetch (upload_of uploadUrl apiKey file)]))
             = trace s \/
             exists request,
               trace (mkState w' (trace s ++ [EvFetch (upload_of uploadUrl apiKey file)]))
               = trace s ++ [EvFetch request] /\
               req_method request = lit "POST" /\ req_body request = Some file).
  { intros w'. right. eexists. repeat split. }
  destruct (fst (browser_fetch (upload_of uploadUrl apiKey file) (world s)))
    as [e|response] eqn:Hget.
  { do 2 eexists. split; [reflexivity|]. split; [apply Hsent | discriminate]. }
  destruct (reply_ok response) eqn:Hok.
  - destruct (reply_json response) as [e|data] eqn:Hjson.
    { do 2 eexists. split; [reflexivity|]. split; [apply Hsent | discriminate]. }
    destruct data;
      try (do 2 eexists; split; [reflexivity|];
           split; [apply Hsent | discriminate]).
    destruct (truthy (obj_get (lit "success") fields)) eqn:Hsuccess.
    + do 2 eexists. split; [reflexivity|]. split; [apply Hsent|].
      intros _. exists apiUrl, apiKey, uploadUrl, response, fields.
      repeat split; assumption.
    + do 2 eexists. split; [reflexivity|]. split; [apply Hsent | discriminate].
  - destruct (reply_text response);
      do 2 eexists; (split; [reflexivity|]);
      (split; [apply Hsent | discriminate]).
Qed.

Lemma upload_succeeds_only_when_the_service_confirms_witness :
  let stored :=
    JObj [(lit "success", JBool true);
          (lit "url", str "https://files.example.org/desk.jpg")] in
  exists r s',
    @uploadFile _ Cabinet.connected Cabinet.photo
      (Demo.start [inr (Cabinet.json_reply 200 stored)]) = (inr r, s') /\
    done r = true /\
    at_url r = str "https://files.example.org/desk.jpg".
Proof.
  intros stored.
  destruct (@upload_succeeds_only_when_the_service_confirms _ Cabinet.connected
              Cabinet.photo (Demo.start [inr (Cabinet.json_reply 200 stored)]))
    as (r & s' & Hrun & _ & _).
  exists r, s'. split; [exact Hrun|].
  vm_compute in Hrun. injection Hrun as <- _. split; reflexivity.
Defined.

(** X23.  [deleteFile] never throws.  It returns [true] exactly when the
    storage service has answered the DELETE request with a JSON object
    whose [success] is the boolean [true], whatever the status of the
    answer; anything else, a thrown error included, gives [false].  A file
    name that is not well-formed UTF-16 gives [false] without any
    request. *)
Theorem delete_is_true_only_on_confirmation
    {W : Type} `{Browser W} (filename : jsstring) (s : State W) :
  exists b s',
    deleteFile filename s = (inr b, s') /\
    (well_formed filename = false -> b = false /\ s' = s) /\
    (b = true <->
     exists apiUrl apiKey encoded response fields,
       given API_URL = Some apiUrl /\ given API_KEY = Some apiKey /\
       encodeURIComponent filename = Some encoded /\
       fst (browser_fetch (delete_of apiUrl apiKey encoded) (world s))
       = inr response /\
       reply_json response = inr (JObj fields) /\
       obj_get (lit "success") fields = JBool true).
Proof.
  destruct (given API_URL) as [apiUrl|] eqn:Hurl.
  2:{ exists false, s. unfold deleteFile. rewrite Hurl.
      split; [reflexivity|]. split; [now split|].
      split; [discriminate|]. now intros (? & ? & ? & ? & ? & ? & _). }
  destruct (given API_KEY) as [apiKey|] eqn:Hkey.
  2:{ exists false, s. unfold deleteFile. rewrite Hurl, Hkey.
      split; [reflexivity|]. split; [now split|].
      split; [discriminate|]. now intros (? & ? & ? & ? & ? & _ & ? & _). }
  rewrite (deleteFile_configured filename s Hurl Hkey).
  destruct (encodeURIComponent filename) as [encoded|] eqn:Henc.
  2:{ exists false, s. split; [reflexivity|]. split; [now split|].
      split; [discriminate|]. now intros (? & ? & ? & ? & ? & _ & _ & ? & _). }
  cbv zeta.
  set (request := delete_of apiUrl apiKey encoded).
  set (s' := mkState (snd (browser_fetch request (world s)))
                     (trace s ++ [EvFetch request])).
  set (b := match fst (browser_fetch request (world s)) with
            | inr response =>
                match reply_json response with
                | inr (JObj fields) => is_true (obj_get (lit "success") fields)
                | _ => false
                end
            | inl _ => false
            end).
  exists b, s'. split; [|split].
  - subst b. destruct (fst (browser_fetch request (world s))) as [e|response];
      [reflexivity|].
    destruct (reply_json response) as [e|[]]; reflexivity.
  - intros Hwf. apply encodeURIComponent_throws_iff in Hwf. congruence.
  - subst b. split.
    + intros Hb. exists apiUrl, apiKey, encoded.
      destruct (fst (browser_fetch request (world s))) as [e|response]
        eqn:Hget; [discriminate|].
      destruct (reply_json response) as [e|[]] eqn:Hjson; try discriminate.
      exists response, fields. repeat split; try assumption.
      destruct (obj_get (lit "success") fields) as [| |[|]| | | |];
        try discriminate; reflexivity.
    + intros (apiUrl' & apiKey' & encoded' & response & fields
              & [= <-] & [= <-] & [= <-] & Hget & Hjson & Hs).
      fold request in Hget. now rewrite Hget, Hjson, Hs.
Qed.

Lemma delete_is_true_only_on_confirmation_witness :
  let sorry :=
    JObj [(lit "success", str "true"); (lit "error", str "Read-only")] in
  exists s',
    @deleteFile _ Cabinet.connected (lit "desk.jpg")
      (Demo.start [inr (Cabinet.json_reply 200 sorry)]) = (inr false, s') /\
    @deleteFile _ Cabinet.connected [0xD83D%N]
      (Demo.start [inr (Cabinet.json_reply 200 sorry)])
    = (inr false, Demo.start [inr (Cabinet.json_reply 200 sorry)]).
Proof.
  intros sorry. eexists. split; [reflexivity|].
  destruct (@delete_is_true_only_on_confirmation _ Cabinet.connected
              [0xD83D%N] (Demo.start [inr (Cabinet.json_reply 200 sorry)]))
    as (b & s' & Hrun & Hbad & _).
  destruct (Hbad eq_refl) as [-> ->]. exact Hrun.
Defined.

(** X24.  [listFiles] never throws and sends at most one request.  What
    it returns is the empty array, or else the parsed body of an answer of
    the storage service with an OK status, as it is: that the body is a
    list of files is not checked. *)
Theorem list_is_the_answer_or_empty
    {W : Type} `{Browser W} (s : State W) :
  exists files s',
    listFiles s = (inr files, s') /\
    (trace s' = trace s \/ exists request, trace s' = trace s ++ [EvFetch request]) /\
    (files = JArr [] \/
     exists apiUrl apiKey response,
       given API_URL = Some apiUrl /\ given API_KEY = Some apiKey /\
       fst (browser_fetch (list_of apiUrl apiKey) (world s)) = inr response /\
       reply_ok response = true /\
       reply_json response = inr files).
Proof.
  destruct (given API_URL) as [apiUrl|] eqn:Hurl.
  2:{ exists (JArr []), s. unfold listFiles. rewrite Hurl. auto. }
  destruct (given API_KEY) as [apiKey|] eqn:Hkey.
  2:{ exists (JArr []), s. unfold listFiles. rewrite Hurl, Hkey. auto. }
  rewrite (listFiles_configured s Hurl Hkey). cbv zeta.
  destruct (fst (browser_fetch (list_of apiUrl apiKey) (world s)))
    as [e|response] eqn:Hget.
  { do 2 eexists. split; [reflexivity|]. split; [right; eexists; reflexivity|].
    now left. }
  destruct (reply_ok response) eqn:Hok.
  2:{ do 2 eexists. split; [reflexivity|].
      split; [right; eexists; reflexivity|]. now left. }
  destruct (reply_json response) as [e|files] eqn:Hjson.
  { do 2 eexists. split; [reflexivity|]. split; [right; eexists; reflexivity|].
    now left. }
  do 2 eexists. split; [reflexivity|]. split; [right; eexists; reflexivity|].
  right. exists apiUrl, apiKey, response. repeat split; assumption.
Qed.

End RemoteStorageTheorems.

(** ** The fragments of the Structured-Data Aggregator *)

Module MarkupFacts.

Lemma howto_steps_nth (ss : list jsstring) :
  forall (from : nat) (i : nat) (step : jsstring),
    nth_error ss i = Some step ->
    nth_error (howto_steps (Z.of_nat from) ss) i
    = Some (how_to_step (from + i + 1) step).
Proof.
  induction ss as [|s ss IH]; intros from i step Hi; [now destruct i|].
  cbn [howto_steps]. destruct i as [|i].
  - injection Hi as <-. cbn [nth_error]. unfold how_to_step.
    replace (Z.of_nat (from + 0 + 1)) with (Z.of_nat from + 1)%Z by lia.
    reflexivity.
  - cbn [nth_error] in *.
    replace (Z.of_nat from + 1)%Z with (Z.of_nat (S from)) by lia.
    rewrite (IH (S from) i step Hi). do 2 f_equal. lia.
Qed.

Lemma howto_steps_length (ss : list jsstring) :
  forall from, List.length (howto_steps from ss) = List.length ss.
Proof.
  induction ss as [|s ss IH]; intros from; [reflexivity|].
  cbn [howto_steps List.length]. now rewrite IH.
Qed.

Lemma push_if_all (P : JsVal -> Prop) (fragment : JsVal) (schemas : list JsVal) :
  Forall P schemas ->
  (truthy fragment = true -> P (with_context fragment)) ->
  Forall P (push_if fragment schemas).
Proof.
  intros Hs Hf. unfold push_if. destruct (truthy fragment); [|exact Hs].
  apply Forall_app. split; [exact Hs|]. constructor; [auto|constructor].
Qed.

Lemma push_if_length (fragment : JsVal) (schemas : list JsVal) :
  (List.length schemas <= List.length (push_if fragment schemas)
   <= S (List.length schemas))%nat.
Proof.
  unfold push_if. destruct (truthy fragment); [|lia].
  rewrite length_app. cbn. lia.
Qed.

End MarkupFacts.

Module MarkupTheorems.

Import MarkupFacts.

(** X25.  Every fragment that [aggregateSchemas] returns is an object
    whose first property is ["@context": "https://schema.org"] and which
    has an ["@type"] that is a string, whatever the post: the fragments
    that are always there and the ones that depend on the post alike. *)
Theorem every_fragment_has_its_context_and_type
    `{CaseTables} (now : jsstring) (post : BlogPost) :
  Forall has_context_and_type (aggregateSchemas now post) /\
  (3 <= List.length (aggregateSchemas now post) <= 6)%nat.
Proof.
  unfold aggregateSchemas. split.
  - repeat apply push_if_all.
    + repeat (apply Forall_cons || apply Forall_nil);
        do 2 eexists; (split; reflexivity).
    + unfold generateFAQSchema.
      destruct (aeoQuestions post) as [[|q qs]|]; try discriminate.
      intros _. do 2 eexists; (split; reflexivity).
    + unfold generateHowToSchema.
      destruct (isHowTo post) as [[|]|]; try discriminate.
      destruct (steps post) as [ss|]; try discriminate.
      destruct (List.length ss <? 3)%nat; try discriminate.
      intros _. do 2 eexists; (split; reflexivity).
    + unfold generateServiceSchema.
      destruct (commercialIntent post) as [[|]|]; try discriminate.
      intros _. do 2 eexists; (split; reflexivity).
  - cbv zeta.
    match goal with
    | |- context [push_if ?s (push_if ?h (push_if ?f ?base))] =>
        pose proof (push_if_length f base);
        pose proof (push_if_length h (push_if f base));
        pose proof (push_if_length s (push_if h (push_if f base)));
        change (List.length base) with 3%nat in *
    end.
    lia.
Qed.

(** X26.  In the HowTo fragment of a post the steps are those of the post,
    as many and in the same order, numbered from one: the step at index
    [i] has the position [i + 1], the text of the post's step and the name
    "Step" followed by that number.  In the FAQ fragment the entries are
    the questions of the post, as many and in the same order, each with
    its answer. *)
Theorem howto_and_faq_follow_the_post (post : BlogPost) :
  (forall ss, isHowTo post = Some true -> steps post = Some ss ->
     (3 <= List.length ss)%nat ->
     exists items,
       generateHowToSchema post
       = JObj [(lit "@type", str "HowTo");
               (lit "name", JStr (title post));
               (lit "description", JStr (excerpt post));
               (lit "step", JArr items)] /\
       List.length items = List.length ss /\
       forall i step, nth_error ss i = Some step ->
                      nth_error items i = Some (how_to_step (i + 1) step)) /\
  (forall q qs, aeoQuestions post = Some (q :: qs) ->
     generateFAQSchema post
     = JObj [(lit "@type", str "FAQPage");
             (lit "mainEntity", JArr (map faq_entry (q :: qs)))]).
Proof.
  split.
  - intros ss Hh Hs Hlen. exists (howto_steps 0 ss).
    unfold generateHowToSchema. rewrite Hh, Hs.
    destruct (Nat.ltb_spec (List.length ss) 3) as [Hlt|_]; [lia|].
    split; [reflexivity|]. split; [apply howto_steps_length|].
    intros i step Hi. exact (howto_steps_nth ss 0 i Hi).
  - intros q qs Hq. unfold generateFAQSchema. now rewrite Hq.
Qed.

Lemma howto_and_faq_follow_the_post_witness :
  let post := Demo.guide [lit "List income"; lit "List costs"; lit "Compare"]
                false in
  exists items,
    generateHowToSchema post
    = JObj [(lit "@type", str "HowTo");
            (lit "name", JStr (title post));
            (lit "description", JStr (excerpt post));
            (lit "step", JArr items)] /\
    nth_error items 2
    = Some (JObj [(lit "@type", str "HowToStep");
                  (lit "position", JNum 3);
                  (lit "text", str "Compare");
                  (lit "name", str "Step 3")]).
Proof.
  intros post.
  destruct (proj1 (howto_and_faq_follow_the_post post)
              [lit "List income"; lit "List costs"; lit "Compare"]
              eq_refl eq_refl (le_n 3)) as (items & Hgen & _ & Hnth).
  exists items. split; [exact Hgen|].
  exact (Hnth 2%nat (lit "Compare") eq_refl).
Defined.

End MarkupTheorems.

Module PrettyFacts.

Import ListFacts JsonFacts.

Lemma skip_ws_blank (w x : jsstring) :
  blank w = true -> skip_ws (w ++ x) = skip_ws x.
Proof.
  induction w as [|c w IH]; [reflexivity|].
  cbn [blank forallb app skip_ws]. intros Hw.
  apply andb_true_iff in Hw as [-> Hw]. now apply IH.
Qed.

Lemma parse_value_skip (fuel : nat) (w x : jsstring) :
  blank w = true -> parse_value fuel (w ++ x) = parse_value fuel x.
Proof.
  intros Hw. destruct fuel as [|fuel]; [reflexivity|].
  cbn [parse_value]. now rewrite skip_ws_blank.
Qed.

Lemma parse_elements_skip (fuel : nat) (acc : list JsVal) (w x : jsstring) :
  blank w = true -> parse_elements fuel acc (w ++ x) = parse_elements fuel acc x.
Proof.
  intros Hw. destruct fuel as [|fuel]; [reflexivity|].
  cbn [parse_elements]. now rewrite skip_ws_blank.
Qed.

Lemma parse_member_skip (fuel : nat) (acc : list (jsstring * JsVal))
    (w x : jsstring) :
  blank w = true -> parse_member fuel acc (w ++ x) = parse_member fuel acc x.
Proof.
  intros Hw. destruct fuel as [|fuel]; [reflexivity|].
  cbn [parse_member]. now rewrite skip_ws_blank.
Qed.

Lemma blank_app (a b : jsstring) :
  blank a = true -> blank b = true -> blank (a ++ b) = true.
Proof. unfold blank. intros Ha Hb. now rewrite forallb_app, Ha, Hb. Qed.

Lemma join_sep (sep t : jsstring) (ts : list jsstring) :
  join sep (t :: ts) = t ++ flat_map (app sep) ts.
Proof.
  revert t; induction ts as [|u ts IH]; intros t.
  - cbn. now rewrite app_nil_r.
  - change (join sep (t :: u :: ts)) with (t ++ sep ++ join sep (u :: ts)).
    rewrite IH. cbn [flat_map]. now rewrite <- app_assoc.
Qed.

Lemma number_end_of_delimited (rest : jsstring) :
  delimited (skip_ws rest) = true -> number_end rest = true.
Proof.
  destruct rest as [|c t]; [reflexivity|].
  cbn [skip_ws number_end]. destruct (is_json_space c) eqn:Hs.
  - intros _. unfold is_json_space in Hs.
    repeat (apply orb_true_iff in Hs as [Hs|Hs]);
      apply N.eqb_eq in Hs; subst c; reflexivity.
  - cbn [delimited]. intros Hd.
    repeat (apply orb_true_iff in Hd as [Hd|Hd]);
      apply N.eqb_eq in Hd; subst c; reflexivity.
Qed.

Lemma not_digit_next_of_end (rest : jsstring) :
  number_end rest = true -> not_digit_next rest = true.
Proof.
  destruct rest as [|c t]; [reflexivity|]. cbn.
  destruct (is_digit c); [discriminate | reflexivity].
Qed.

Lemma parse_int_pos_before (p : positive) (rest : jsstring) :
  number_end rest = true ->
  parse_int (of_Z (Z.pos p) ++ rest) = Some (Z.pos p, rest).
Proof.
  intros Hrest.
  pose proof (not_digit_next_of_end rest Hrest) as Hnd.
  unfold of_Z. cbn [Z.to_int NilZero.string_of_int].
  destruct (to_uint_leading p) as (k & d & Hk & Htext & Hval).
  assert (Hnz : NilZero.string_of_uint (Pos.to_uint p)
                = NilEmpty.string_of_uint (Pos.to_uint p)).
  { destruct (Pos.to_uint p) eqn:E; try reflexivity.
    now apply DecimalPos.Unsigned.to_uint_nonnil in E. }
  assert (Hdig : is_digit (0x30 + k) = true).
  { unfold is_digit, in_range. apply andb_true_iff.
    split; apply N.leb_le; lia. }
  rewrite Hnz, Htext, <- app_comm_cons. unfold parse_int. rewrite Hdig.
  destruct (N.eqb_spec (0x30 + k) 0x30); [lia|].
  replace (Z.of_N (0x30 + k - 0x30)) with (Z.pos (N.succ_pos (N.pred k))).
  2:{ pose proof (N.succ_pos_spec (N.pred k)) as Hs.
      apply (f_equal Z.of_N) in Hs. cbn [Z.of_N] in Hs. lia. }
  rewrite parse_digits_uint by exact Hnd. rewrite Hval.
  destruct rest as [|c t]; [reflexivity|].
  cbn [number_end] in Hrest. apply negb_true_iff in Hrest. now rewrite Hrest.
Qed.

Lemma parse_number_before (n : Z) (rest : jsstring) (fuel : nat) :
  number_end rest = true ->
  parse_value (S fuel) (of_Z n ++ rest) = Some (JNum n, rest).
Proof.
  intros Hrest. destruct n as [|p|p].
  - change (of_Z 0 ++ rest) with (0x30%N :: rest).
    cbn [parse_value skip_ws]. change (is_json_space 0x30) with false.
    cbn iota.
    change (0x30 =? 0x22)%N with false. change (0x30 =? 0x5B)%N with false.
    change (0x30 =? 0x7B)%N with false. change (0x30 =? 0x74)%N with false.
    change (0x30 =? 0x66)%N with false. change (0x30 =? 0x6E)%N with false.
    change (0x30 =? 0x2D)%N with false. cbn iota.
    cbn [parse_int]. change (is_digit 0x30) with true. cbn iota.
    change (0x30 =? 0x30)%N with true. cbn iota.
    destruct rest as [|c t]; [reflexivity|].
    cbn [number_end] in Hrest. apply negb_true_iff in Hrest. now rewrite Hrest.
  - pose proof (parse_int_pos_before p rest Hrest) as Hp.
    destruct (to_uint_leading p) as (k & d & Hk & Htext & _).
    assert (Hnz : NilZero.string_of_uint (Pos.to_uint p)
                  = NilEmpty.string_of_uint (Pos.to_uint p)).
    { destruct (Pos.to_uint p) eqn:E; try reflexivity.
      now apply DecimalPos.Unsigned.to_uint_nonnil in E. }
    assert (Htxt : of_Z (Z.pos p) = (0x30 + k)%N :: lit (NilEmpty.string_of_uint d)).
    { unfold of_Z. cbn [Z.to_int NilZero.string_of_int]. now rewrite Hnz. }
    rewrite Htxt in *. rewrite <- app_comm_cons in *.
    cbn [parse_value skip_ws].
    assert (Hc : forall x, (x < 0x30)%N \/ (0x39 < x)%N -> ((0x30 + k =? x)%N = false))
      by (intros x Hx; apply N.eqb_neq; lia).
    unfold is_json_space.
    rewrite (Hc 32%N), (Hc 9%N), (Hc 10%N), (Hc 13%N) by lia. cbn [orb].
    rewrite (Hc 34%N), (Hc 91%N), (Hc 123%N), (Hc 116%N), (Hc 102%N),
      (Hc 110%N), (Hc 45%N) by lia.
    now rewrite Hp.
  - pose proof (parse_int_pos_before p rest Hrest) as Hp.
    assert (Htxt : of_Z (Z.neg p) = 0x2D%N :: of_Z (Z.pos p)) by reflexivity.
    rewrite Htxt, <- app_comm_cons.
    cbn [parse_value skip_ws]. change (is_json_space 0x2D) with false.
    cbn iota.
    change (0x2D =? 0x22)%N with false. change (0x2D =? 0x5B)%N with false.
    change (0x2D =? 0x7B)%N with false. change (0x2D =? 0x74)%N with false.
    change (0x2D =? 0x66)%N with false. change (0x2D =? 0x6E)%N with false.
    change (0x2D =? 0x2D)%N with true. cbn iota. now rewrite Hp.
Qed.

End PrettyFacts.

Module IndentedFacts.

Import ListFacts JsonFacts PrettyFacts.

Lemma serialize_indented (indent : jsstring) (v : JsVal) :
  is_json v = true -> serialize [0x20; 0x20]%N indent v = Some (pretty indent v).
Proof.
  unfold pretty.
  destruct v as [| |[|]| | | |]; try discriminate; reflexivity.
Qed.

Lemma pretty_arr (indent : jsstring) (items : list JsVal) :
  pretty indent (JArr items)
  = bracket [0x20; 0x20]%N indent 0x5B%N 0x5D%N
      (map (pretty (indent ++ [0x20; 0x20]%N)) items).
Proof.
  reflexivity.
Qed.

Lemma pretty_obj (indent : jsstring) (fields : list (jsstring * JsVal)) :
  forallb (fun kv => is_json (snd kv)) fields = true ->
  pretty indent (JObj fields)
  = bracket [0x20; 0x20]%N indent 0x7B%N 0x7D%N
      (map (pretty_member (indent ++ [0x20; 0x20]%N)) fields).
Proof.
  intros Hj. unfold pretty at 1. cbn [serialize]. f_equal.
  induction fields as [|[k x] l IH]; [reflexivity|].
  cbn [forallb snd] in Hj. apply andb_true_iff in Hj as [Hx Hl].
  cbn [map]. rewrite <- (IH Hl). unfold pretty_member. cbn [fst snd].
  now rewrite (serialize_indented _ x Hx).
Qed.

Lemma bracket_lines (indent : jsstring) (o c : N) (t : jsstring)
    (ts : list jsstring) :
  bracket [0x20; 0x20]%N indent o c (t :: ts)
  = o :: (0x0A%N :: indent ++ [0x20; 0x20]%N)
      ++ t ++ more_lines (indent ++ [0x20; 0x20]%N) ts
      ++ (0x0A%N :: indent) ++ [c].
Proof.
  unfold bracket, more_lines. cbv zeta. rewrite join_sep.
  cbn [app]. f_equal. f_equal. rewrite <- !app_assoc. reflexivity.
Qed.

Lemma blank_line (indent : jsstring) :
  blank indent = true -> blank (0x0A%N :: indent) = true.
Proof. intros Hi. exact Hi. Qed.

Lemma blank_inner (indent : jsstring) :
  blank indent = true -> blank (indent ++ [0x20; 0x20]%N) = true.
Proof. intros Hi. now apply blank_app. Qed.

Lemma more_lines_delimited (inner indent : jsstring) (c : N)
    (ts : list jsstring) (rest : jsstring) :
  blank indent = true -> delimited [c] = true ->
  is_json_space c = false ->
  delimited (skip_ws (more_lines inner ts ++ (0x0A%N :: indent) ++ c :: rest))
  = true.
Proof.
  intros Hi Hc Hs. destruct ts as [|t ts].
  - cbn [more_lines flat_map app].
    change (0x0A%N :: indent ++ c :: rest) with ((0x0A%N :: indent) ++ c :: rest).
    rewrite skip_ws_blank by exact Hi. rewrite skip_ws_plain by exact Hs.
    exact Hc.
  - reflexivity.
Qed.

Lemma parse_elements_indented (xs : list JsVal) :
  Forall reads_back_indented xs -> forallb is_json xs = true ->
  forall inner indent fuel acc rest,
    blank inner = true -> blank indent = true ->
    S (sizes xs) <= fuel ->
    parse_elements fuel acc
      (more_lines inner (map (pretty inner) xs)
         ++ (0x0A%N :: indent) ++ 0x5D%N :: rest)
    = Some (JArr (rev acc ++ xs), rest).
Proof.
  induction 1 as [|x xs Hx _ IH];
    intros Hj inner indent fuel acc rest Hin Hind Hfuel.
  - cbn [map more_lines flat_map app].
    change (0x0A%N :: indent ++ 0x5D%N :: rest)
      with ((0x0A%N :: indent) ++ 0x5D%N :: rest).
    rewrite parse_elements_skip by exact Hind.
    destruct fuel as [|fuel]; [lia|]. cbn. now rewrite app_nil_r.
  - cbn [forallb] in Hj. apply andb_true_iff in Hj as [Hjx Hjxs].
    destruct (Hx Hjx inner Hin) as (Hparse & _ & _).
    destruct fuel as [|fuel]; [lia|]. cbn [sizes fold_right] in Hfuel.
    fold (sizes xs) in Hfuel.
    cbn [map]. unfold more_lines at 1. cbn [flat_map].
    fold (more_lines inner (map (pretty inner) xs)).
    rewrite <- !app_assoc. cbn [app parse_elements].
    rewrite skip_ws_plain by reflexivity.
    change (0x2C =? 0x5D)%N with false. change (0x2C =? 0x2C)%N with true.
    cbn iota.
    change (0x0A%N :: inner ++ ?t) with ((0x0A%N :: inner) ++ t).
    rewrite parse_value_skip by exact Hin.
    rewrite Hparse.
    + change (0x0A%N :: indent ++ 0x5D%N :: rest)
        with ((0x0A%N :: indent) ++ 0x5D%N :: rest).
      rewrite IH; [|exact Hjxs|exact Hin|exact Hind|].
      * cbn [rev]. now rewrite <- app_assoc.
      * pose proof (size_pos x). lia.
    + lia.
    + change (0x0A%N :: indent ++ 0x5D%N :: rest)
        with ((0x0A%N :: indent) ++ 0x5D%N :: rest).
      now apply more_lines_delimited.
Qed.

Lemma parse_member_indented (fields : list (jsstring * JsVal)) :
  Forall (fun kv => reads_back_indented (snd kv)) fields ->
  forall k x inner indent fuel acc rest,
    blank inner = true -> blank indent = true ->
    reads_back_indented x ->
    distinct_json_fields ((k, x) :: fields) = true ->
    forallb (fun kv => negb (has_field (fst kv) acc)) ((k, x) :: fields) = true ->
    member_sizes ((k, x) :: fields) <= fuel ->
    parse_member fuel acc
      (pretty_member inner (k, x)
         ++ more_lines inner (map (pretty_member inner) fields)
         ++ (0x0A%N :: indent) ++ 0x7D%N :: rest)
    = Some (JObj (acc ++ (k, x) :: fields), rest).
Proof.
  induction 1 as [|[k' x'] fields Hx' _ IH];
    intros k x inner indent fuel acc rest Hin Hind Hx Hd Hfresh Hfuel;
    cbn [distinct_json_fields] in Hd;
    apply andb_true_iff in Hd as [Hd Hrest];
    apply andb_true_iff in Hd as [Hjx Hk];
    cbn [forallb fst] in Hfresh;
    apply andb_true_iff in Hfresh as [Hkacc Hfresh];
    apply negb_true_iff in Hkacc;
    destruct (Hx Hjx inner Hin) as (Hparse & _ & _);
    (destruct fuel as [|fuel]; [cbn in Hfuel; lia|]);
    unfold pretty_member at 1; cbn [fst snd]; unfold quote;
    rewrite <- !app_assoc; cbn [app parse_member];
    rewrite skip_ws_plain by reflexivity;
    change (0x22 =? 0x22)%N with true; cbn iota; rewrite <- app_assoc; cbn [app];
    rewrite parse_string_quote_units;
    rewrite skip_ws_plain by reflexivity;
    change (0x3A =? 0x3A)%N with true; cbn iota;
    change (0x20%N :: pretty inner x ++ ?t) with ([0x20%N] ++ pretty inner x ++ t);
    rewrite parse_value_skip by reflexivity.
  - cbn [map more_lines flat_map app].
    change (0x0A%N :: indent ++ 0x7D%N :: rest)
      with ((0x0A%N :: indent) ++ 0x7D%N :: rest).
    rewrite Hparse; [|cbn in Hfuel; lia|].
    2:{ rewrite skip_ws_blank by exact Hind. reflexivity. }
    rewrite skip_ws_blank by exact Hind.
    rewrite skip_ws_plain by reflexivity.
    change (0x7D =? 0x7D)%N with true. cbn iota.
    now rewrite obj_set_fresh.
  - cbn [map]. unfold more_lines at 1. cbn [flat_map].
    fold (more_lines inner (map (pretty_member inner) fields)).
    rewrite <- !app_assoc. cbn [app].
    rewrite Hparse; [|cbn in Hfuel; lia|reflexivity].
    rewrite skip_ws_plain by reflexivity.
    change (0x2C =? 0x7D)%N with false. change (0x2C =? 0x2C)%N with true.
    cbn iota. rewrite obj_set_fresh by exact Hkacc.
    change (0x0A%N :: inner ++ ?t) with ((0x0A%N :: inner) ++ t).
    rewrite parse_member_skip by exact Hin.
    change (0x0A%N :: indent ++ 0x7D%N :: rest)
      with ((0x0A%N :: indent) ++ 0x7D%N :: rest).
    rewrite (IH k' x' inner indent fuel (acc ++ [(k, x)]) rest Hin Hind).
    + now rewrite <- app_assoc.
    + exact Hx'.
    + exact Hrest.
    + cbn [forallb fst] in *.
      apply andb_true_iff in Hfresh as [Hk'acc Hfresh].
      apply negb_true_iff in Hk, Hk'acc.
      cbn [has_field existsb fst] in Hk. apply orb_false_iff in Hk as [Hkk' Hk].
      apply andb_true_iff. split.
      * rewrite has_field_app, Hk'acc. cbn [has_field existsb fst orb].
        rewrite orb_false_r.
        apply negb_true_iff.
        destruct (eqb_spec k' k) as [->|Hne]; [|reflexivity].
        destruct (eqb_spec k k); congruence.
      * apply forallb_forall. intros kv Hin'.
        rewrite forallb_forall in Hfresh. specialize (Hfresh kv Hin').
        apply negb_true_iff in Hfresh. apply negb_true_iff.
        rewrite has_field_app, Hfresh. cbn [has_field existsb fst orb].
        rewrite orb_false_r.
        destruct (eqb_spec (fst kv) k) as [E|Hne]; [|reflexivity].
        exfalso. unfold has_field in Hk.
        assert (Hex : existsb (fun kv0 => JsString.eqb k (fst kv0)) fields = true).
        { apply existsb_exists. exists kv. split; [exact Hin'|].
          rewrite E. now destruct (eqb_spec k k). }
        congruence.
    + cbn [member_sizes fold_right snd] in *. lia.
Qed.

Lemma length_more_lines (inner : jsstring) (ts : list jsstring) :
  total_length ts <= List.length (more_lines inner ts).
Proof.
  induction ts as [|t ts IH]; [reflexivity|].
  unfold more_lines in *. cbn [total_length fold_right flat_map].
  rewrite !length_app. cbn [List.length]. rewrite ?length_app.
  unfold total_length in IH. lia.
Qed.

Lemma length_bracket_lines (indent : jsstring) (o c : N) (ts : list jsstring) :
  2 + total_length ts
  <= List.length (bracket [0x20; 0x20]%N indent o c ts).
Proof.
  destruct ts as [|t ts]; [reflexivity|]. rewrite bracket_lines.
  pose proof (length_more_lines (indent ++ [0x20; 0x20]%N) ts) as Hl.
  cbn [List.length total_length fold_right]. rewrite !length_app.
  cbn [List.length]. rewrite ?length_app. unfold total_length in Hl.
  cbn [List.length]. lia.
Qed.

Lemma sizes_le_indented (inner : jsstring) (xs : list JsVal) :
  blank inner = true ->
  Forall reads_back_indented xs -> forallb is_json xs = true ->
  sizes xs <= total_length (map (pretty inner) xs).
Proof.
  intros Hin. induction 1 as [|x xs Hx _ IH]; [reflexivity|].
  cbn [forallb]. intros Hj. apply andb_true_iff in Hj as [Hjx Hjxs].
  destruct (Hx Hjx inner Hin) as (_ & _ & Hlen). specialize (IH Hjxs).
  cbn [map].
  change (sizes (x :: xs)) with (size x + sizes xs).
  change (total_length (pretty inner x :: map (pretty inner) xs))
    with (List.length (pretty inner x) + total_length (map (pretty inner) xs)).
  lia.
Qed.

Lemma member_sizes_le_indented (inner : jsstring)
    (fields : list (jsstring * JsVal)) :
  blank inner = true ->
  Forall (fun kv => reads_back_indented (snd kv)) fields ->
  forallb (fun kv => is_json (snd kv)) fields = true ->
  member_sizes fields <= total_length (map (pretty_member inner) fields).
Proof.
  intros Hin. induction 1 as [|[k x] fields Hx _ IH]; [reflexivity|].
  cbn [forallb snd]. intros Hj. apply andb_true_iff in Hj as [Hjx Hjxs].
  destruct (Hx Hjx inner Hin) as (_ & _ & Hlen). specialize (IH Hjxs).
  cbn [map].
  change (member_sizes ((k, x) :: fields))
    with (S (size x) + member_sizes fields).
  change (total_length (pretty_member inner (k, x)
                          :: map (pretty_member inner) fields))
    with (List.length (pretty_member inner (k, x))
          + total_length (map (pretty_member inner) fields)).
  assert (Hm : S (size x) <= List.length (pretty_member inner (k, x))).
  { unfold pretty_member. cbn [fst snd]. rewrite !length_app.
    cbn [List.length]. cbn [snd] in Hlen. lia. }
  lia.
Qed.

Theorem all_read_back_indented (v : JsVal) : reads_back_indented v.
Proof.
  induction v as [| |b|n|s|items IH|fields IH] using JsVal_nested_ind;
    intros Hj indent Hind.
  - discriminate.
  - split; [|split].
    + intros [|fuel] rest Hfuel Hrest; [cbn in Hfuel; lia|]. reflexivity.
    + now exists 0x6E%N, (lit "ull").
    + cbn. lia.
  - split; [|split].
    + intros [|fuel] rest Hfuel Hrest; [cbn in Hfuel; lia|].
      destruct b; reflexivity.
    + destruct b; [now exists 0x74%N, (lit "rue") | now exists 0x66%N, (lit "alse")].
    + destruct b; cbn; lia.
  - destruct (all_read_back (JNum n) eq_refl) as (_ & Hfirst & Hlen).
    split; [|split]; [|exact Hfirst|exact Hlen].
    intros [|fuel] rest Hfuel Hrest; [cbn in Hfuel; lia|].
    apply parse_number_before. now apply number_end_of_delimited.
  - split; [|split].
    + intros [|fuel] rest Hfuel Hrest; [cbn in Hfuel; lia|].
      change (pretty indent (JStr s)) with (quote s). unfold quote.
      cbn [app parse_value]. rewrite skip_ws_plain by reflexivity.
      change (0x22 =? 0x22)%N with true. cbn iota.
      rewrite <- app_assoc. cbn [app].
      now rewrite parse_string_quote_units.
    + now exists 0x22%N, (quote_units s ++ [0x22%N]).
    + cbn. lia.
  - rewrite is_json_arr in Hj. rewrite pretty_arr.
    pose proof (blank_inner indent Hind) as Hin.
    split; [|split].
    + intros [|fuel] rest Hfuel Hrest; [cbn in Hfuel; lia|].
      rewrite size_arr in Hfuel.
      destruct items as [|x xs]; [reflexivity|].
      cbn [map]. rewrite bracket_lines.
      cbn [forallb] in Hj. apply andb_true_iff in Hj as [Hjx Hjxs].
      apply Forall_cons_iff in IH as [Hx Hxs].
      destruct (Hx Hjx _ Hin) as (Hparse & (c & t' & Htext & Hc & Hc') & _).
      rewrite <- app_comm_cons. cbn [parse_value].
      rewrite skip_ws_plain by reflexivity.
      change (0x5B =? 0x22)%N with false. change (0x5B =? 0x5B)%N with true.
      cbn iota. rewrite <- !app_assoc.
      rewrite skip_ws_blank by exact Hin.
      rewrite Htext at 1. rewrite <- app_comm_cons.
      rewrite skip_ws_plain by exact Hc. rewrite Hc'.
      rewrite parse_value_skip by exact Hin.
      cbn [sizes fold_right] in Hfuel. fold (sizes xs) in Hfuel.
      change ([0x5D%N] ++ rest) with (0x5D%N :: rest).
      rewrite Hparse; [|lia|now apply more_lines_delimited].
      rewrite parse_elements_indented;
        [reflexivity|exact Hxs|exact Hjxs|exact Hin|exact Hind|lia].
    + destruct items as [|x xs]; [now exists 0x5B%N, [0x5D%N]|].
      cbn [map]. rewrite bracket_lines. eexists _, _. split; [reflexivity|].
      split; reflexivity.
    + rewrite size_arr.
      etransitivity; [|apply length_bracket_lines].
      apply Nat.add_le_mono_l. now apply sizes_le_indented.
  - rewrite is_json_obj in Hj.
    pose proof (distinct_fields_json fields Hj) as Hjs.
    rewrite (pretty_obj indent fields Hjs).
    pose proof (blank_inner indent Hind) as Hin.
    split; [|split].
    + intros [|fuel] rest Hfuel Hrest; [cbn in Hfuel; lia|].
      rewrite size_obj in Hfuel.
      destruct fields as [|[k x] fields]; [reflexivity|].
      cbn [map]. rewrite bracket_lines.
      apply Forall_cons_iff in IH as [Hx Hxs]. cbn [snd] in Hx.
      rewrite <- app_comm_cons. cbn [parse_value].
      rewrite skip_ws_plain by reflexivity.
      change (0x7B =? 0x22)%N with false. change (0x7B =? 0x5B)%N with false.
      change (0x7B =? 0x7B)%N with true. cbn iota.
      rewrite <- !app_assoc.
      rewrite skip_ws_blank by exact Hin.
      assert (Hm : pretty_member (indent ++ [0x20; 0x20]%N) (k, x)
                   = 0x22%N :: (quote_units k ++ [0x22%N]) ++ [0x3A; 0x20]%N
                       ++ pretty (indent ++ [0x20; 0x20]%N) x) by reflexivity.
      rewrite Hm at 1. rewrite <- app_comm_cons.
      rewrite skip_ws_plain by reflexivity.
      change (0x22 =? 0x7D)%N with false. cbn iota.
      rewrite parse_member_skip by exact Hin.
      change ([0x7D%N] ++ rest) with (0x7D%N :: rest).
      rewrite (@parse_member_indented fields Hxs k x _ indent fuel [] rest
                 Hin Hind Hx Hj);
        [reflexivity| |lia].
      clear. induction ((k, x) :: fields); [reflexivity|]. cbn. exact IHl.
    + destruct fields as [|[k x] fields]; [now exists 0x7B%N, [0x7D%N]|].
      cbn [map]. rewrite bracket_lines. eexists _, _. split; [reflexivity|].
      split; reflexivity.
    + rewrite size_obj.
      etransitivity; [|apply length_bracket_lines].
      apply Nat.add_le_mono_l. now apply member_sizes_le_indented.
Qed.

(** [JSON.parse(JSON.stringify(v, null, 2))] is [v]. *)
Theorem JSON_parse_stringify_2 (v : JsVal) :
  is_json v = true ->
  JSON_stringify_2 v = Some (pretty [] v) /\ JSON_parse (pretty [] v) = inr v.
Proof.
  intros Hj. split.
  - unfold JSON_stringify_2. now apply serialize_indented.
  - destruct (all_read_back_indented v Hj [] eq_refl) as (Hparse & _ & Hlen).
    unfold JSON_parse.
    rewrite <- (List.app_nil_r (pretty [] v)) at 2.
    rewrite Hparse; [reflexivity|lia|reflexivity].
Qed.

End IndentedFacts.

Module ScriptFacts.

Import ListFacts JsonFacts PrettyFacts IndentedFacts MarkupFacts.

Lemma serialize_written (gap indent : jsstring) (fragment : JsVal) :
  serialize gap indent (written fragment) = serialize gap indent fragment.
Proof.
  destruct fragment as [| |b|n|s|items|fields]; try reflexivity.
  cbn [written serialize]. do 2 f_equal.
  induction fields as [|[k x] l IH]; [reflexivity|].
  cbn [filter snd].
  destruct x as [| |b|n|s|items|fs]; try exact IH; now rewrite IH.
Qed.

Lemma script_text_parses (fragment : JsVal) :
  is_json (written fragment) = true ->
  JSON_parse (stringify_in_template fragment) = inr (written fragment) /\
  exists t, JSON_stringify fragment = Some t /\
            JSON_parse t = inr (written fragment).
Proof.
  intros Hj. split.
  - destruct (JSON_parse_stringify_2 (written fragment) Hj) as [Htext Hparse].
    unfold stringify_in_template, JSON_stringify_2 in *.
    rewrite serialize_written in Htext. now rewrite Htext.
  - destruct (JSON_parse_stringify (written fragment) Hj) as (t & Htext & Hparse).
    exists t. split; [|exact Hparse].
    unfold JSON_stringify in *. now rewrite serialize_written in Htext.
Qed.

Lemma faq_entries_json (qs : list QA) :
  is_json
    (JArr (map (fun q =>
                  JObj [(lit "@type", str "Question");
                        (lit "name", JStr (question q));
                        (lit "acceptedAnswer",
                         JObj [(lit "@type", str "Answer");
                               (lit "text", JStr (answer q))])]) qs))
  = true.
Proof.
  rewrite is_json_arr. induction qs as [|q qs IH]; [reflexivity|].
  cbn [map forallb]. now rewrite IH.
Qed.

Lemma howto_steps_json (ss : list jsstring) :
  forall from, is_json (JArr (howto_steps from ss)) = true.
Proof.
  induction ss as [|s ss IH]; intros from; [reflexivity|].
  rewrite is_json_arr in *. cbn [howto_steps forallb].
  specialize (IH (from + 1)%Z). rewrite is_json_arr in IH. now rewrite IH.
Qed.

Lemma with_array_json (key : jsstring) (items : JsVal)
    (fields : list (jsstring * JsVal)) :
  is_json items = true ->
  is_json (JObj fields) = true ->
  has_field key fields = false ->
  is_json (JObj (fields ++ [(key, items)])) = true.
Proof.
  intros Hi. rewrite !is_json_obj.
  induction fields as [|[k x] l IH]; intros Hj Hk.
  - cbn. now rewrite Hi.
  - cbn [distinct_json_fields app] in *.
    cbn [has_field existsb fst] in Hk. apply orb_false_iff in Hk as [Hkk Hk].
    apply andb_true_iff in Hj as [Hj Hl].
    apply andb_true_iff in Hj as [Hx Hfresh].
    rewrite Hx, (IH Hl Hk). cbn [andb]. rewrite andb_true_r.
    rewrite has_field_app. apply negb_true_iff in Hfresh. rewrite Hfresh.
    cbn [has_field existsb fst orb]. rewrite orb_false_r.
    apply negb_true_iff.
    destruct (eqb_spec k key) as [->|Hne]; [|reflexivity].
    destruct (eqb_spec key key); congruence.
Qed.

End ScriptFacts.

Module ScriptTheorems.

Import ListFacts JsonFacts PrettyFacts IndentedFacts MarkupFacts ScriptFacts.

(** X27.  The text that [getCombinedSchemaHtml] puts in the script of a
    fragment, [JSON.stringify(schema, null, 2)], and the text that the
    post reader puts there, [JSON.stringify(schema)], are both read back
    by [JSON.parse] as the fragment without its [undefined] properties,
    for every post and every fragment of [aggregateSchemas].  For a post
    with a cover image that is the fragment itself; for a post without
    one the first fragment is written without an ["image"] property. *)
Theorem script_texts_parse_back_to_the_fragments
    `{CaseTables} (now : jsstring) (post : BlogPost) :
  Forall (fun fragment =>
            JSON_parse (stringify_in_template fragment)
            = inr (written fragment) /\
            exists t, JSON_stringify fragment = Some t /\
                      JSON_parse t = inr (written fragment))
         (aggregateSchemas now post) /\
  (forall image, coverImage post = Some image ->
     Forall (fun fragment => written fragment = fragment)
            (aggregateSchemas now post)) /\
  (coverImage post = None ->
     exists first others,
       aggregateSchemas now post = first :: others /\
       has_field (lit "image") (properties first) = true /\
       has_field (lit "image") (properties (written first)) = false).
Proof.
  split; [|split].
  - unfold aggregateSchemas.
    repeat apply push_if_all.
    + repeat (apply Forall_cons || apply Forall_nil);
        apply script_text_parses.
      * unfold generateBlogPostingSchema.
        destruct (coverImage post); reflexivity.
      * reflexivity.
      * reflexivity.
    + unfold generateFAQSchema.
      destruct (aeoQuestions post) as [[|q qs]|]; try discriminate.
      intros _. apply script_text_parses.
      apply (@with_array_json (lit "mainEntity") _
               [(lit "@context", str "https://schema.org");
                (lit "@type", str "FAQPage")]);
        [apply faq_entries_json | reflexivity | reflexivity].
    + unfold generateHowToSchema.
      destruct (isHowTo post) as [[|]|]; try discriminate.
      destruct (steps post) as [ss|]; try discriminate.
      destruct (List.length ss <? 3)%nat; try discriminate.
      intros _. apply script_text_parses.
      apply (@with_array_json (lit "step") _
               [(lit "@context", str "https://schema.org");
                (lit "@type", str "HowTo");
                (lit "name", JStr (title post));
                (lit "description", JStr (excerpt post))]);
        [apply howto_steps_json | reflexivity | reflexivity].
    + unfold generateServiceSchema.
      destruct (commercialIntent post) as [[|]|]; try discriminate.
      intros _. apply script_text_parses. reflexivity.
  - intros image Himage. unfold aggregateSchemas.
    repeat apply push_if_all.
    + repeat (apply Forall_cons || apply Forall_nil); try reflexivity.
      unfold generateBlogPostingSchema. now rewrite Himage.
    + unfold generateFAQSchema.
      destruct (aeoQuestions post) as [[|q qs]|]; try discriminate.
      reflexivity.
    + unfold generateHowToSchema.
      destruct (isHowTo post) as [[|]|]; try discriminate.
      destruct (steps post) as [ss|]; try discriminate.
      destruct (List.length ss <? 3)%nat; try discriminate.
      reflexivity.
    + unfold generateServiceSchema.
      destruct (commercialIntent post) as [[|]|]; try discriminate.
      reflexivity.
  - intros Himage.
    exists (with_context (generateBlogPostingSchema now post)),
      (push_if (generateServiceSchema post)
         (push_if (generateHowToSchema post)
            (push_if (generateFAQSchema post)
               [with_context generateOrganizationSchema;
                with_context (generateBreadcrumbSchema post)]))).
    split; [|split].
    + unfold aggregateSchemas, push_if.
      destruct (truthy (generateFAQSchema post)),
        (truthy (generateHowToSchema post)),
        (truthy (generateServiceSchema post)); reflexivity.
    + reflexivity.
    + unfold generateBlogPostingSchema. now rewrite Himage.
Qed.

End ScriptTheorems.

(** ** The migration script *)

Module MigrationFacts.

Import Migration.

Section Facts.
Context {W : Type} `{MySql W}.

Lemma queries_of_app (a b : list Step) :
  queries_of (a ++ b) = queries_of a ++ queries_of b.
Proof. apply flat_map_app. Qed.

Lemma disconnects_app (a b : list Step) :
  disconnects (a ++ b) = disconnects a || disconnects b.
Proof. apply existsb_app. Qed.

(** The loop issues a prefix of its queries, in order, and all of them
    when it ends without an error. *)
Lemma run_queries_prefix (queries : list jsstring) :
  forall (w : W) (log : list Step),
  exists n,
    let '(r, _, log') := run_queries queries w log in
    queries_of log' = queries_of log ++ firstn n queries /\
    disconnects log' = disconnects log /\
    (n <= List.length queries)%nat /\
    match r with
    | inr _ => n = List.length queries
    | inl e => is_duplicate_column e = false /\ (0 < n)%nat
    end.
Proof.
  induction queries as [|sql rest IH]; intros w log.
  - exists 0%nat. cbn. rewrite app_nil_r. auto.
  - cbn [run_queries].
    assert (Hnext : forall w',
               exists n,
                 let '(r, _, log') := run_queries rest w' (log ++ [Query sql]) in
                 queries_of log' = queries_of log ++ firstn n (sql :: rest) /\
                 disconnects log' = disconnects log /\
                 (n <= List.length (sql :: rest))%nat /\
                 match r with
                 | inr _ => n = List.length (sql :: rest)
                 | inl e => is_duplicate_column e = false /\ (0 < n)%nat
                 end).
    { intros w'. destruct (IH w' (log ++ [Query sql])) as (n & Hn).
      exists (S n).
      destruct (run_queries rest w' (log ++ [Query sql])) as [[r w2] log'].
      destruct Hn as (Hq & Hd & Hle & Hr).
      rewrite queries_of_app, <- app_assoc in Hq.
      rewrite disconnects_app in Hd. cbn in Hd. rewrite orb_false_r in Hd.
      repeat split; try assumption; [cbn; lia|].
      destruct r as [e|[]]; [|cbn; lia].
      destruct Hr. split; [assumption | lia]. }
    destruct (query sql w) as [[err|[]] w']; [|apply Hnext].
    destruct (is_duplicate_column err) eqn:Hdup; [apply Hnext|].
    exists 1%nat. rewrite queries_of_app, disconnects_app. cbn.
    rewrite orb_false_r. repeat split; auto; lia.
Qed.

End Facts.

End MigrationFacts.

Module MigrationTheorems.

Import Migration MigrationFacts.

(** X29.  The migration script exits with status 0 or 1.  It issues its
    three ALTER statements in their order, each at most once, and stops at
    the first one that fails with an error other than
    [ER_DUP_COLUMN_NAME]: the queries it has issued are a first part of
    the list.  It closes the connection only after all three, and it exits
    with 0 only after it has closed the connection. *)
Theorem migration_issues_a_prefix_and_closes_after_all
    {W : Type} `{MySql W} (w : W) :
  let code := fst (fst (migrate w)) in
  let log := snd (migrate w) in
  (code = 0 \/ code = 1)%Z /\
  (exists n, queries_of log = firstn n alterQueries) /\
  (disconnects log = true -> queries_of log = alterQueries) /\
  (code = 0%Z -> disconnects log = true).
Proof.
  cbv zeta. unfold migrate.
  destruct (createConnection w) as [[e|[]] w1].
  { cbn. repeat split; auto; try discriminate. now exists 0%nat. }
  destruct (run_queries_prefix alterQueries w1 [Connect]) as (n & Hn).
  destruct (run_queries alterQueries w1 [Connect]) as [[r w2] log].
  destruct Hn as (Hq & Hd & Hle & Hr). cbn [queries_of flat_map app] in Hq.
  cbn in Hd.
  destruct r as [e|[]].
  - cbn [fst snd]. repeat split; auto; try discriminate; [eauto|congruence].
  - subst n. rewrite firstn_all in Hq.
    destruct (end_connection w2) as [[e|[]] w3]; cbn [fst snd];
      rewrite queries_of_app, disconnects_app, Hq; cbn;
      rewrite ?app_nil_r, ?orb_true_r;
      repeat split; auto; try discriminate; now exists 3%nat.
Qed.

Lemma migration_issues_a_prefix_and_closes_after_all_witness :
  disconnects (snd (@migrate _ Workshop.server [None; None; None])) = true /\
  queries_of (snd (@migrate _ Workshop.server [None; None; None]))
  = alterQueries.
Proof.
  pose proof (@migration_issues_a_prefix_and_closes_after_all _
                Workshop.server [None; None; None]) as (_ & _ & Hall & Hzero).
  split; [exact (Hzero eq_refl) | exact (Hall (Hzero eq_refl))].
Defined.

(** X30.  Running the migration again is harmless: when the connection
    can be opened and closed and every ALTER statement either succeeds or
    fails with [ER_DUP_COLUMN_NAME], because its column is already there,
    the script issues all three statements, closes the connection and
    exits with status 0. *)
Theorem migration_can_be_run_again
    {W : Type} `{MySql W} (w : W) :
  (forall w0, exists w1, createConnection w0 = (inr tt, w1)) ->
  (forall w0, exists w1, end_connection w0 = (inr tt, w1)) ->
  (forall sql w0 e w1, query sql w0 = (inl e, w1) ->
                       is_duplicate_column e = true) ->
  fst (fst (migrate w)) = 0%Z /\
  snd (migrate w)
  = [Connect] ++ map Query alterQueries ++ [Disconnect].
Proof.
  intros Hopen Hclose Hdup. unfold migrate.
  destruct (Hopen w) as (w1 & ->).
  assert (Hrun : forall queries w0 log,
             exists w2, run_queries queries w0 log
                        = (inr tt, w2, log ++ map Query queries)).
  { induction queries as [|sql rest IH]; intros w0 log.
    - exists w0. cbn. now rewrite app_nil_r.
    - cbn [run_queries map].
      destruct (query sql w0) as [[e|[]] w'] eqn:Hq.
      + rewrite (Hdup _ _ _ _ Hq).
        destruct (IH w' (log ++ [Query sql])) as (w2 & ->).
        exists w2. now rewrite <- app_assoc.
      + destruct (IH w' (log ++ [Query sql])) as (w2 & ->).
        exists w2. now rewrite <- app_assoc. }
  destruct (Hrun alterQueries w1 [Connect]) as (w2 & ->).
  destruct (Hclose w2) as (w3 & ->).
  split; [reflexivity|]. cbn [fst snd]. now rewrite <- app_assoc.
Qed.

Lemma migration_can_be_run_again_witness :
  let migrated :=
    [Some (lit "ER_DUP_COLUMN_NAME"); Some (lit "ER_DUP_COLUMN_NAME");
     Some (lit "ER_DUP_COLUMN_NAME")] in
  let always_there : MySql (list (option jsstring)) :=
    {| createConnection := fun w => (inr tt, w);
       query := fun _ w =>
                  Workshop.scripted [Some (lit "ER_DUP_COLUMN_NAME")];
       end_connection := fun w => (inr tt, w) |} in
  fst (fst (@migrate _ always_there migrated)) = 0%Z.
Proof.
  intros migrated always_there.
  apply (@migration_can_be_run_again _ always_there migrated).
  - intros w0. now exists w0.
  - intros w0. now exists w0.
  - intros sql w0 e w1 [= <- _]. reflexivity.
Defined.

End MigrationTheorems.

